(** * file-streaming: a shallow embedding of the tutorial's stream programs

    The Go programs under [file-streaming/] are embedded as Rocq functions.
    Effects are written out as explicit world passing: a reader or a writer
    is a transformer of its own state and of the world it runs in (the
    clock, the file system), and a callback is a world transformer. Loops
    that need not terminate for an arbitrary reader take a fuel argument and
    return [None] when it runs out. The two goroutines around [io.Pipe] are
    a step relation over all their interleavings.

    Part I is the embedding: [GoIO], [GoTime] and [GoOS] for what the
    programs use of Go's library, then one module per program ([Step11],
    [FileOps], [Step08], [Step09], [Step05]). Part II holds the theorems. *)

From Stdlib Require Import ZArith List String Ascii SpecFloat Lia Bool.
From Stdlib.Strings Require Import Byte.
From stdpp Require Import base option gmap strings list pretty.


(* ===================================================================== *)
(** * Part I: the embedding                                               *)
(* ===================================================================== *)

(** ** Go's [io] vocabulary: errors, readers, writers, [io.Copy] *)
Module GoIO.

(** The error values the programs can meet. [EOF] is [io.EOF], the
    end-of-data signal; everything else is a fault. [nil] is [None]. *)
Inductive error : Type :=
| EOF
| ErrShortWrite
| ErrInvalidWrite
| ErrClosedPipe
| ErrNotExist
| ErrIsDir
| ErrNoSpace
| ErrInvalid
| ErrOther (msg : string).

#[global] Instance error_eq_dec : EqDecision error.
Proof. solve_decision. Defined.

Definition is_fault (e : option error) : bool :=
  match e with
  | None | Some EOF => false
  | Some _ => true
  end.

(** Two's complement wrap-around of [int64] arithmetic. *)
Definition wrap64 (z : Z) : Z := ((z + 2 ^ 63) mod 2 ^ 64 - 2 ^ 63)%Z.

(** What one [Read(p)] call returns: the bytes stored in [p[:n]] (so [n] is
    their number) and the error. *)
Definition ReadResult : Type := list byte * option error.

(** [io.Reader]: [Read r n w] is [r.Read(p)] with [len(p) = n] in world [w]. *)
Class Reader (W R : Type) := Read : R -> nat -> W -> ReadResult * R * W.

(** [io.Writer]: [Write s p w] is [s.Write(p)], returning the count and the
    error. *)
Class Writer (W S : Type) := Write : S -> list byte -> W -> (nat * option error) * S * W.

(** [strings.Reader], [bytes.Reader], a section of memory: the unread
    bytes. At the end every call reports [EOF], also for an empty buffer. *)
Record BytesReader : Type := { unread : list byte }.

#[global] Instance BytesReader_Read {W} : Reader W BytesReader :=
  fun r n w =>
    match unread r with
    | [] => (([], Some EOF), r, w)
    | bs => ((take n bs, None), {| unread := drop n bs |}, w)
    end.

(** A scripted source: the sequence of results its next reads will give.
    A chunk longer than the caller's buffer is handed out in pieces, its
    error with the last piece. Once the script is over the source reports
    [EOF] for ever. A stall is the entry [([], None)]. *)
Record ScriptReader : Type := { script : list ReadResult }.

#[global] Instance ScriptReader_Read {W} : Reader W ScriptReader :=
  fun r n w =>
    match script r with
    | [] => (([], Some EOF), r, w)
    | (data, err) :: rest =>
        if (n <? length data)%nat
        then ((take n data, None), {| script := (drop n data, err) :: rest |}, w)
        else ((data, err), {| script := rest |}, w)
    end.

(** An in-memory sink that accepts everything ([bytes.Buffer]). *)
Record Buffer : Type := { contents : list byte }.

#[global] Instance Buffer_Write {W} : Writer W Buffer :=
  fun b p w => ((length p, None), {| contents := contents b ++ p |}, w).

(** [io.Copy]'s buffer. *)
Definition copy_buffer_size : nat := 32 * 1024.
#[global] Arguments copy_buffer_size : simpl never.

(** [io.Copy(dst, src)], the generic loop of [io.copyBuffer]:

      for {
        nr, er := src.Read(buf)
        if nr > 0 {
          nw, ew := dst.Write(buf[0:nr])
          if nw < 0 || nr < nw { nw = 0; if ew == nil { ew = errInvalidWrite } }
          written += int64(nw)
          if ew != nil { err = ew; break }
          if nr != nw { err = ErrShortWrite; break }
        }
        if er != nil { if er != EOF { err = er }; break }
      }
      return written, err *)
Fixpoint io_Copy_from {W R S} `{!Reader W R, !Writer W S}
    (fuel : nat) (written : Z) (dst : S) (src : R) (w : W)
  : option ((Z * option error) * S * R * W) :=
  match fuel with
  | O => None
  | S fuel' =>
      let '((data, er), src1, w1) := Read src copy_buffer_size w in
      let nr := length data in
      let finish written dst w :=
        match er with
        | None => io_Copy_from fuel' written dst src1 w
        | Some EOF => Some ((written, None), dst, src1, w)
        | Some e => Some ((written, Some e), dst, src1, w)
        end in
      if (0 <? nr)%nat then
        let '((nw0, ew0), dst1, w2) := Write dst data w1 in
        let '(nw, ew) :=
          if (nr <? nw0)%nat
          then (O, Some (default ErrInvalidWrite ew0))
          else (nw0, ew0) in
        let written1 := wrap64 (written + Z.of_nat nw) in
        match ew with
        | Some e => Some ((written1, Some e), dst1, src1, w2)
        | None =>
            if (nr =? nw)%nat
            then finish written1 dst1 w2
            else Some ((written1, Some ErrShortWrite), dst1, src1, w2)
        end
      else finish written dst w1
  end.

Definition io_Copy {W R S} `{!Reader W R, !Writer W S}
    (fuel : nat) (dst : S) (src : R) (w : W) :=
  io_Copy_from fuel 0%Z dst src w.

(** [io.TeeReader(r, w)]:

      n, err = t.r.Read(p)
      if n > 0 { if n, err := t.w.Write(p[:n]); err != nil { return n, err } }
      return *)
Record TeeReader (R S : Type) : Type := { tee_r : R; tee_w : S }.
Arguments tee_r {R S} _.
Arguments tee_w {R S} _.

#[global] Instance TeeReader_Read {W R S} `{!Reader W R, !Writer W S}
  : Reader W (TeeReader R S) :=
  fun t n w =>
    let '((data, err), r1, w1) := Read (tee_r t) n w in
    if (0 <? length data)%nat then
      let '((nw, ew), s1, w2) := Write (tee_w t) data w1 in
      match ew with
      | Some e => ((take nw data, Some e), {| tee_r := r1; tee_w := s1 |}, w2)
      | None => ((data, err), {| tee_r := r1; tee_w := s1 |}, w2)
      end
    else ((data, err), {| tee_r := r1; tee_w := tee_w t |}, w1).

(** [io.LimitReader(r, n)], a [*io.LimitedReader]:

      if l.N <= 0 { return 0, EOF }
      if int64(len(p)) > l.N { p = p[0:l.N] }
      n, err = l.R.Read(p)
      l.N -= int64(n)
      return *)
Record LimitedReader (R : Type) : Type := { lim_R : R; lim_N : Z }.
Arguments lim_R {R} _.
Arguments lim_N {R} _.

#[global] Instance LimitedReader_Read {W R} `{!Reader W R} : Reader W (LimitedReader R) :=
  fun l n w =>
    if (lim_N l <=? 0)%Z then (([], Some EOF), l, w)
    else
      let n' := if (lim_N l <? Z.of_nat n)%Z then Z.to_nat (lim_N l) else n in
      let '((data, err), r1, w1) := Read (lim_R l) n' w in
      ((data, err),
       {| lim_R := r1; lim_N := wrap64 (lim_N l - Z.of_nat (length data)) |},
       w1).

(** [io.ReadAll(r)]. [b] is the slice read so far, [cap] its capacity, 512
    at first; [grow cap] is the capacity [append] gives a full slice, which
    is the runtime's choice.

      b := make([]byte, 0, 512)
      for {
        n, err := r.Read(b[len(b):cap(b)])
        b = b[:len(b)+n]
        if err != nil { if err == EOF { err = nil }; return b, err }
        if len(b) == cap(b) { b = append(b, 0)[:len(b)] }
      } *)
Fixpoint io_ReadAll_from {W R} `{!Reader W R} (grow : nat -> nat) (fuel : nat)
    (b : list byte) (cap : nat) (r : R) (w : W)
  : option ((list byte * option error) * R * W) :=
  match fuel with
  | O => None
  | S fuel' =>
      let '((data, err), r1, w1) := Read r (cap - length b) w in
      let b1 := b ++ data in
      match err with
      | Some e => Some ((b1, if bool_decide (e = EOF) then None else Some e), r1, w1)
      | None =>
          io_ReadAll_from grow fuel' b1
            (if (length b1 =? cap)%nat then grow cap else cap) r1 w1
      end
  end.

Definition io_ReadAll {W R} `{!Reader W R} (grow : nat -> nat) (fuel : nat)
    (r : R) (w : W) :=
  io_ReadAll_from grow fuel [] 512 r w.

End GoIO.

(** ** Go's [float64] and [time] as the throttled reader uses them *)
Module GoTime.

(** [float64] is IEEE 754 binary64, computed by the standard library's
    executable specification of it. *)
Definition float64 : Type := spec_float.
Definition f64_of_int64 (z : Z) : float64 := binary_normalize 53 1024 z 0 false.
Definition f64_add : float64 -> float64 -> float64 := SFadd 53 1024.
Definition f64_mul : float64 -> float64 -> float64 := SFmul 53 1024.
Definition f64_div : float64 -> float64 -> float64 := SFdiv 53 1024.

(** The integer part of a finite float, rounded toward zero. *)
Definition f64_trunc (f : float64) : option Z :=
  match f with
  | S754_zero _ => Some 0%Z
  | S754_finite s m e =>
      let v := match e with
               | Z0 => Zpos m
               | Zpos k => Z.shiftl (Zpos m) (Zpos k)
               | Zneg k => Z.shiftr (Zpos m) (Zpos k)
               end in
      Some (if s then (- v)%Z else v)
  | S754_infinity _ | S754_nan => None
  end.

(** [int64(f)]. Go leaves the result open when the value does not fit; the
    model takes what amd64 gives, the smallest [int64]. *)
Definition int64_of_f64 (f : float64) : Z :=
  match f64_trunc f with
  | Some z => if ((- 2 ^ 63 <=? z) && (z <? 2 ^ 63))%Z then z else (- 2 ^ 63)%Z
  | None => (- 2 ^ 63)%Z
  end.

(** A [time.Duration] is a number of nanoseconds. *)
Definition Nanosecond : Z := 1.
Definition Millisecond : Z := 1000000.
Definition Second : Z := 1000000000.

(** [Duration.Seconds]:
      sec := d / Second; nsec := d % Second
      return float64(sec) + float64(nsec)/1e9 *)
Definition Seconds (d : Z) : float64 :=
  f64_add (f64_of_int64 (Z.quot d Second))
          (f64_div (f64_of_int64 (Z.rem d Second)) (f64_of_int64 1000000000)).

(** A world with a monotonic clock, read in nanoseconds, that [time.Sleep]
    advances. *)
Class Clock (W : Type) := {
  Now : W -> Z;
  Sleep : Z -> W -> W
}.

(** [time.Since(t)], saturating like [Time.Sub]. *)
Definition Since {W} `{!Clock W} (t : Z) (w : W) : Z :=
  Z.max (- 2 ^ 63) (Z.min (2 ^ 63 - 1) (Now w - t)).

End GoTime.

(** ** step11-advanced-patterns/main.go *)
Module Step11.
Import GoIO GoTime.

(** What a call returns: a result, or a run-time panic. *)
Inductive outcome (A : Type) : Type :=
| Ret (a : A)
| Panic (msg : string).
Arguments Ret {A} _.
Arguments Panic {A} _.

(** [type ProgressCallback func(current, total int64)]: its effect on the
    world is all a callback is. *)
Definition ProgressCallback (W : Type) : Type := Z -> Z -> W -> W.

Module ProgressReader.

Record t (W R : Type) : Type := {
  reader : R;
  total : Z;
  current : Z;
  callback : option (ProgressCallback W)
}.
Arguments reader {W R} _.
Arguments total {W R} _.
Arguments current {W R} _.
Arguments callback {W R} _.

(** [NewProgressReader(r, total, callback)] *)
Definition New {W R} (r : R) (total : Z) (cb : option (ProgressCallback W)) : t W R :=
  {| reader := r; total := total; current := 0; callback := cb |}.

(** [func (pr *ProgressReader) Read(p []byte) (n int, err error)]:
      n, err = pr.reader.Read(p)
      pr.current += int64(n)
      if pr.callback != nil { pr.callback(pr.current, pr.total) }
      return n, err *)
Definition Read_ {W R} `{!Reader W R} (pr : t W R) (n : nat) (w : W)
  : ReadResult * t W R * W :=
  let '((data, err), r1, w1) := Read (reader pr) n w in
  let cur := wrap64 (current pr + Z.of_nat (length data)) in
  let w2 := match callback pr with
            | Some f => f cur (total pr) w1
            | None => w1
            end in
  ((data, err),
   {| reader := r1; total := total pr; current := cur; callback := callback pr |},
   w2).

#[global] Instance Reader_inst {W R} `{!Reader W R} : Reader W (t W R) := Read_.

End ProgressReader.

Module ThrottledReader.

Record t (R : Type) : Type := {
  reader : R;
  bytesPerSec : Z;
  lastRead : Z
}.
Arguments reader {R} _.
Arguments bytesPerSec {R} _.
Arguments lastRead {R} _.

(** [NewThrottledReader(r, bytesPerSec)] *)
Definition New {W R} `{!Clock W} (r : R) (bps : Z) (w : W) : t R :=
  {| reader := r; bytesPerSec := bps; lastRead := Now w |}.

(** [int64(float64(tr.bytesPerSec) * elapsed.Seconds())] *)
Definition allowedBytes (bps elapsed : Z) : Z :=
  int64_of_f64 (f64_mul (f64_of_int64 bps) (Seconds elapsed)).

(** The length of [p] after
      if allowedBytes < int64(len(p)) { p = p[:allowedBytes] }
    or the panic of the slice expression on a negative bound. *)
Definition clip (allowed : Z) (n : nat) : outcome nat :=
  if (allowed <? Z.of_nat n)%Z
  then if (allowed <? 0)%Z
       then Panic "slice bounds out of range"
       else Ret (Z.to_nat allowed)
  else Ret n.

(** [func (tr *ThrottledReader) Read(p []byte) (n int, err error)]:
      elapsed := time.Since(tr.lastRead)
      allowedBytes := int64(float64(tr.bytesPerSec) * elapsed.Seconds())
      if allowedBytes < int64(len(p)) { p = p[:allowedBytes] }
      if len(p) == 0 { time.Sleep(time.Millisecond * 10); return 0, nil }
      n, err = tr.reader.Read(p)
      tr.lastRead = time.Now()
      return n, err *)
Definition Read_ {W R} `{!Clock W, !Reader W R} (tr : t R) (n : nat) (w : W)
  : outcome (ReadResult * t R * W) :=
  let elapsed := Since (lastRead tr) w in
  let allowed := allowedBytes (bytesPerSec tr) elapsed in
  match clip allowed n with
  | Panic msg => Panic msg
  | Ret O => Ret (([], None), tr, Sleep (Millisecond * 10) w)
  | Ret n' =>
      let '(res, r1, w1) := Read (reader tr) n' w in
      Ret (res,
           {| reader := r1; bytesPerSec := bytesPerSec tr; lastRead := Now w1 |},
           w1)
  end.

(** The number of bytes the call asks of the inner reader: what the limiter
    grants this read. *)
Definition granted {W} `{!Clock W} {R} (tr : t R) (n : nat) (w : W) : outcome nat :=
  clip (allowedBytes (bytesPerSec tr) (Since (lastRead tr) w)) n.

End ThrottledReader.

(** [io.Copy(io.Discard, src)] for a source without [WriteTo], as the
    throttled reader in [main]: [io.Copy] hands the copy to the [ReadFrom]
    of [io.Discard], which reads into a buffer of 8192 bytes until a read
    reports an error:

      for {
        readSize, err = r.Read(buf)
        n += int64(readSize)
        if err != nil { if err == EOF { return n, nil }; return }
      }

    A read of no bytes without an error brings the next read. *)
Definition discard_buffer_size : nat := 2 * 4096.
#[global] Arguments discard_buffer_size : simpl never.

(** What the throttled reader grants to that buffer 10 ms after a read. *)
Definition granted_later (bps : Z) : nat :=
  Nat.min discard_buffer_size
    (Z.to_nat (ThrottledReader.allowedBytes bps (Millisecond * 10))).

Fixpoint Discard_ReadFrom {W R} `{!Clock W, !Reader W R} (fuel : nat) (n : Z)
    (tr : ThrottledReader.t R) (w : W)
  : option (outcome ((Z * option error) * ThrottledReader.t R * W)) :=
  match fuel with
  | O => None
  | S fuel' =>
      match ThrottledReader.Read_ tr discard_buffer_size w with
      | Panic msg => Some (Panic msg)
      | Ret ((data, err), tr1, w1) =>
          let n1 := wrap64 (n + Z.of_nat (length data)) in
          match err with
          | Some e =>
              Some (Ret ((n1, if bool_decide (e = EOF) then None else Some e), tr1, w1))
          | None => Discard_ReadFrom fuel' n1 tr1 w1
          end
      end
  end.

(** The throttled reader as the step's README documents it, with a bucket:

      now := time.Now(); elapsed := now.Sub(tr.lastTime); tr.lastTime = now
      tr.bucket += int64(float64(tr.bytesPerSec) * elapsed.Seconds())
      if tr.bucket > tr.bytesPerSec { tr.bucket = tr.bytesPerSec }
      if tr.bucket <= 0 { time.Sleep(time.Millisecond * 10); return 0, nil }
      readSize := len(p)
      if int64(readSize) > tr.bucket { readSize = int(tr.bucket) }
      n, err = tr.reader.Read(p[:readSize])
      tr.bucket -= int64(n)
      return n, err *)
Module DocumentedThrottledReader.

Record t (R : Type) : Type := {
  reader : R;
  bytesPerSec : Z;
  lastTime : Z;
  bucket : Z
}.
Arguments reader {R} _.
Arguments bytesPerSec {R} _.
Arguments lastTime {R} _.
Arguments bucket {R} _.

Definition New {W R} `{!Clock W} (r : R) (bps : Z) (w : W) : t R :=
  {| reader := r; bytesPerSec := bps; lastTime := Now w; bucket := bps |}.

Definition refill {R} (tr : t R) (now : Z) : Z :=
  let elapsed := Z.max (- 2 ^ 63) (Z.min (2 ^ 63 - 1) (now - lastTime tr)) in
  let b := wrap64 (bucket tr + ThrottledReader.allowedBytes (bytesPerSec tr) elapsed) in
  if (bytesPerSec tr <? b)%Z then bytesPerSec tr else b.

Definition Read_ {W R} `{!Clock W, !Reader W R} (tr : t R) (n : nat) (w : W)
  : ReadResult * t R * W :=
  let now := Now w in
  let b := refill tr now in
  if (b <=? 0)%Z then
    (([], None),
     {| reader := reader tr; bytesPerSec := bytesPerSec tr; lastTime := now; bucket := b |},
     Sleep (Millisecond * 10) w)
  else
    let readSize := if (b <? Z.of_nat n)%Z then Z.to_nat b else n in
    let '((data, err), r1, w1) := Read (reader tr) readSize w in
    ((data, err),
     {| reader := r1; bytesPerSec := bytesPerSec tr; lastTime := now;
        bucket := wrap64 (b - Z.of_nat (length data)) |},
     w1).

End DocumentedThrottledReader.

(** The world of this program: the clock, and the progress lines printed,
    kept as the arguments of each callback invocation. *)
Record World : Type := {
  clock : Z;
  progress : list (Z * Z)
}.

#[global] Instance World_Clock : Clock World := {|
  Now := clock;
  Sleep := fun d w => {| clock := clock w + d; progress := progress w |}
|}.

(** [main]'s [progressCallback], seen through its arguments. *)
Definition progressCallback : ProgressCallback World :=
  fun current total w =>
    {| clock := clock w; progress := progress w ++ [(current, total)] |}.

(** Time passing between two calls. *)
Definition idle (d : Z) (w : World) : World :=
  {| clock := clock w + d; progress := progress w |}.

(** [k] successive [Read] calls on a progress reader, each with a buffer of
    [n] bytes: the results in order, the reader and the world at the end. *)
Fixpoint read_times {W R} `{!Reader W R} (k n : nat) (pr : ProgressReader.t W R) (w : W)
  : list ReadResult * ProgressReader.t W R * W :=
  match k with
  | O => ([], pr, w)
  | S k' =>
      let '(res, pr1, w1) := ProgressReader.Read_ pr n w in
      let '(rs, pr2, w2) := read_times k' n pr1 w1 in
      (res :: rs, pr2, w2)
  end.

(** The cumulative counts after each of a sequence of read results, from
    the count [cur]. *)
Fixpoint running_totals (cur : Z) (results : list ReadResult) : list Z :=
  match results with
  | [] => []
  | (data, _) :: rest =>
      let c := wrap64 (cur + Z.of_nat (length data)) in
      c :: running_totals c rest
  end.

(** A source that delivers [ab], then fails, then is at its end. *)
Definition failing_source : list ReadResult :=
  [(list_byte_of_string "ab", None); ([], Some (ErrOther "read failed")); ([], Some EOF)].

(** [main]'s progress reader with [rest] still to come from what it reads. *)
Definition progress_remaining (pr : ProgressReader.t World BytesReader)
    (rest : list byte) : Prop :=
  unread (ProgressReader.reader pr) = rest
  /\ ProgressReader.callback pr = Some progressCallback.

(** The claim about the callback, as the specification states it: a read
    that succeeds (end-of-data included) reports once, a read that returns a
    fault does not report. *)
Definition reports_only_successes : Prop :=
  forall (results : list ReadResult) (n : nat) (total cur : Z) (w : World),
    let pr := {| ProgressReader.reader := {| script := results |};
                 ProgressReader.total := total;
                 ProgressReader.current := cur;
                 ProgressReader.callback := Some progressCallback |} in
    let '((data, err), _, w') := ProgressReader.Read_ pr n w in
    progress w'
    = if is_fault err then progress w
      else progress w ++ [(wrap64 (cur + Z.of_nat (length data)), total)].

End Step11.

(** ** Go's [os] and [path/filepath] over a small file system *)
Module GoOS.
Import GoIO.

Definition is_slash (c : ascii) : bool := Ascii.eqb c "/"%char.

Fixpoint split_aux (cs cur : list ascii) : list string :=
  match cs with
  | [] => [string_of_list_ascii (rev cur)]
  | c :: cs' =>
      if is_slash c
      then string_of_list_ascii (rev cur) :: split_aux cs' []
      else split_aux cs' (c :: cur)
  end.

(** The components of a path name, empty ones included. *)
Definition split_path (name : string) : list string :=
  split_aux (list_ascii_of_string name) [].

Fixpoint drop_slashes (cs : list ascii) : list ascii :=
  match cs with
  | c :: cs' => if is_slash c then drop_slashes cs' else cs
  | [] => []
  end.

Fixpoint upto_slash (cs : list ascii) : list ascii :=
  match cs with
  | c :: cs' => if is_slash c then [] else c :: upto_slash cs'
  | [] => []
  end.

(** [filepath.Base] on Unix: the last element of the path, after trailing
    slashes are removed; ["."] for the empty path and ["/"] for a path of
    slashes only. *)
Definition Base (path : string) : string :=
  match list_ascii_of_string path with
  | [] => "."
  | cs =>
      match rev (upto_slash (drop_slashes (rev cs))) with
      | [] => "/"
      | elt => string_of_list_ascii elt
      end
  end.

(** A file system seen from the working directory: a path is the list of
    its components after the directories on the way were walked. [free] is
    the space left on the device, [synced] the files whose content reached
    the disk since their last change, [sync_fault] whether [Sync] fails. *)
Record FS : Type := {
  dirs : gset (list string);
  files : gmap (list string) (list byte);
  synced : gset (list string);
  free : nat;
  sync_fault : bool
}.

(** The working directory and the directories above it exist. *)
Definition is_dir (fs : FS) (p : list string) : bool :=
  forallb (String.eqb "..") p || bool_decide (p ∈ dirs fs).

Definition parent (p : list string) : list string :=
  match last p with
  | None => [".."]
  | Some s => if String.eqb s ".." then p ++ [".."] else removelast p
  end.

(** Walking the components from directory [cur]. A component that is not
    the last must name a directory. *)
Fixpoint walk (fs : FS) (cur segs : list string) : option (list string) :=
  match segs with
  | [] => Some cur
  | s :: rest =>
      if String.eqb s "" || String.eqb s "." then walk fs cur rest
      else if String.eqb s ".." then walk fs (parent cur) rest
      else match rest with
           | [] => Some (cur ++ [s])
           | _ => if is_dir fs (cur ++ [s]) then walk fs (cur ++ [s]) rest else None
           end
  end.

(** The file or directory a relative path name designates. *)
Definition resolve (fs : FS) (name : string) : option (list string) :=
  if String.eqb name "" then None else walk fs [] (split_path name).

(** [ENOTDIR] *)
Definition ErrNotDir : error := ErrOther "not a directory".

(** Why a walk fails: at a component on the way that is no directory,
    because a file is in the way ([ENOTDIR]) or because nothing is there
    ([ENOENT]). *)
Fixpoint walk_error (fs : FS) (cur segs : list string) : error :=
  match segs with
  | [] => ErrNotExist
  | s :: rest =>
      if String.eqb s "" || String.eqb s "." then walk_error fs cur rest
      else if String.eqb s ".." then walk_error fs (parent cur) rest
      else match rest with
           | [] => ErrNotExist
           | _ =>
               if is_dir fs (cur ++ [s]) then walk_error fs (cur ++ [s]) rest
               else if bool_decide (is_Some (files fs !! (cur ++ [s]))) then ErrNotDir
               else ErrNotExist
           end
  end.

(** The error of a path name that does not resolve; the empty name is
    [ENOENT]. The file system has no symbolic links and no permission bits,
    so these two are the only ways a name can fail to resolve. *)
Definition resolve_error (fs : FS) (name : string) : error :=
  if String.eqb name "" then ErrNotExist else walk_error fs [] (split_path name).

(** An open file: where it is, and the offset of the next read or write. *)
Record File : Type := {
  fpath : list string;
  offset : nat;
  is_directory : bool
}.

Definition content_of (fs : FS) (p : list string) : list byte :=
  default [] (files fs !! p).

(** [os.Open] *)
Definition os_Open (name : string) (fs : FS) : error + File :=
  match resolve fs name with
  | None => inl (resolve_error fs name)
  | Some p =>
      if is_dir fs p then inr {| fpath := p; offset := 0; is_directory := true |}
      else match files fs !! p with
           | Some _ => inr {| fpath := p; offset := 0; is_directory := false |}
           | None => inl ErrNotExist
           end
  end.

(** [os.Create]: the file is created, or truncated when it exists. *)
Definition os_Create (name : string) (fs : FS) : error + (File * FS) :=
  match resolve fs name with
  | None => inl (resolve_error fs name)
  | Some p =>
      if is_dir fs p then inl ErrIsDir
      else if negb (is_dir fs (removelast p)) then inl ErrNotExist
      else inr ({| fpath := p; offset := 0; is_directory := false |},
                {| dirs := dirs fs;
                   files := <[p := []]> (files fs);
                   synced := synced fs ∖ {[p]};
                   free := free fs + length (content_of fs p);
                   sync_fault := sync_fault fs |})
  end.

(** [os.Remove] of a file; its result is never looked at. *)
Definition os_Remove (name : string) (fs : FS) : FS :=
  match resolve fs name with
  | None => fs
  | Some p =>
      {| dirs := dirs fs;
         files := delete p (files fs);
         synced := synced fs ∖ {[p]};
         free := free fs + length (content_of fs p);
         sync_fault := sync_fault fs |}
  end.

(** [File.Stat().Size()]; a directory's size is the system's business,
    the model says 4096. *)
Definition File_Size (f : File) (fs : FS) : Z :=
  if is_directory f then 4096%Z else Z.of_nat (length (content_of fs (fpath f))).

(** [File.Read]: nothing for an empty buffer, [EOF] at the end. *)
#[global] Instance File_Read : Reader FS File :=
  fun f n fs =>
    if (n =? 0)%nat then (([], None), f, fs)
    else if is_directory f then (([], Some ErrIsDir), f, fs)
    else
      match take n (drop (offset f) (content_of fs (fpath f))) with
      | [] => (([], Some EOF), f, fs)
      | data =>
          ((data, None),
           {| fpath := fpath f; offset := offset f + length data;
              is_directory := false |},
           fs)
      end.

(** [File.Write] at the offset: the bytes that fit on the device are
    written, and [ENOSPC] is reported when some did not. *)
#[global] Instance File_Write : Writer FS File :=
  fun f p fs =>
    if is_directory f then ((O, Some ErrInvalid), f, fs)
    else
      let old := content_of fs (fpath f) in
      let room := (free fs + (length old - offset f))%nat in
      let k := Nat.min (length p) room in
      let new := take (offset f) old ++ take k p ++ drop (offset f + k) old in
      ((k, if (k <? length p)%nat then Some ErrNoSpace else None),
       {| fpath := fpath f; offset := offset f + k; is_directory := false |},
       {| dirs := dirs fs;
          files := <[fpath f := new]> (files fs);
          synced := synced fs ∖ {[fpath f]};
          free := (free fs + length old - length new)%nat;
          sync_fault := sync_fault fs |}).

(** [File.Sync] *)
Definition File_Sync (f : File) (fs : FS) : option error * FS :=
  if sync_fault fs then (Some (ErrOther "sync"), fs)
  else (None,
        {| dirs := dirs fs; files := files fs;
           synced := synced fs ∪ {[fpath f]};
           free := free fs; sync_fault := false |}).

(** A handle on a regular file that holds [c], positioned at its end. *)
Definition at_end (f : File) (fs : FS) (c : list byte) : Prop :=
  is_directory f = false /\ files fs !! fpath f = Some c /\ offset f = length c.

(** A run of characters without a path separator. *)
Definition no_slash (cs : list ascii) : Prop := Forall (fun c => is_slash c = false) cs.

(** A regular file is a finite stream of its bytes from the offset on. *)
Definition file_remaining (f : File) (fs : FS) (rest : list byte) : Prop :=
  is_directory f = false
  /\ exists c, files fs !! fpath f = Some c /\ drop (offset f) c = rest.

End GoOS.

(** ** The file-operations step (the source file of [chunkedFilePattern]) *)
Module FileOps.
Import GoIO GoOS.

(** [chunkSize := 1024 * 1024 * 100] *)
Definition chunkSize : nat := 1024 * 1024 * 100.
#[global] Arguments chunkSize : simpl never.

(** What the function printed: the failure line of a read, if any, and the
    final total. *)
Record Summary : Type := {
  totalBytes : Z;
  chunkNumber : Z;
  failure : option (Z * error)
}.

(** The loop of [chunkedFilePattern]; [process] stands for the body's work
    on [buffer[:n]] as chunk number [chunkNumber]:

      for {
        n, err := file.Read(buffer)
        if err != nil && err != io.EOF { fmt.Printf(...); break }
        if n == 0 { break }
        ... process buffer[:n] ...
        totalBytes += n
        chunkNumber++
      } *)
Fixpoint chunk_loop {W R} `{!Reader W R} (process : Z -> list byte -> W -> W)
    (fuel : nat) (total number : Z) (file : R) (w : W)
  : option (Summary * R * W) :=
  match fuel with
  | O => None
  | S fuel' =>
      let '((data, err), file1, w1) := Read file chunkSize w in
      let stop failure :=
        Some ({| totalBytes := total; chunkNumber := number;
                 failure := failure |}, file1, w1) in
      let body :=
        if (length data =? 0)%nat then stop None
        else chunk_loop process fuel'
               (wrap64 (total + Z.of_nat (length data))) (wrap64 (number + 1))
               file1 (process number data w1) in
      match err with
      | Some e => if bool_decide (e = EOF) then body else stop (Some (number, e))
      | None => body
      end
  end.

(** The body's work in the program: the chunk goes to [chunk_<number>.txt].
      outputFile, _ := os.Create(fmt.Sprintf(...)); outputFile.Write(buffer[:n]) *)
Definition write_chunk (number : Z) (data : list byte) (fs : FS) : FS :=
  match os_Create ("chunk_" +:+ pretty number +:+ ".txt") fs with
  | inl _ => fs
  | inr (outputFile, fs1) => snd (Write outputFile data fs1)
  end.

(** [chunkedFilePattern]: the loop over [fake.log]. A file that could not be
    opened is a nil handle, whose reads fail. *)
Definition chunkedFilePattern (fuel : nat) (fs : FS) : option (Summary * FS) :=
  match os_Open "fake.log" fs with
  | inl _ =>
      Some ({| totalBytes := 0; chunkNumber := 1;
               failure := Some (1%Z, ErrInvalid) |}, fs)
  | inr file =>
      match chunk_loop write_chunk fuel 0 1 file fs with
      | Some (s, _, fs1) => Some (s, fs1)
      | None => None
      end
  end.

(** What the loop's body does with the chunks [chunks] in turn, from chunk
    number [number]: the number the loop is left with, and the world. *)
Fixpoint process_all {W : Type} (process : Z -> list byte -> W -> W)
    (number : Z) (chunks : list (list byte)) (w : W) : Z * W :=
  match chunks with
  | [] => (number, w)
  | data :: rest => process_all process (wrap64 (number + 1)) rest (process number data w)
  end.

(** *** [createFilePattern] *)

(** The flags of [os.OpenFile], with their values on Linux. The two low
    bits are the access mode; [O_RDONLY] is no bit at all. *)
Definition O_RDONLY : Z := 0.
Definition O_WRONLY : Z := 1.
Definition O_RDWR : Z := 2.
Definition O_CREATE : Z := 64.
Definition O_EXCL : Z := 128.
Definition O_TRUNC : Z := 512.
Definition O_APPEND : Z := 1024.

Definition access_mode (flag : Z) : Z := Z.land flag 3.

(** A descriptor can be written through in the modes [O_WRONLY] and
    [O_RDWR]; in mode 3 it can be neither read nor written. *)
Definition write_access (flag : Z) : bool :=
  ((access_mode flag =? O_WRONLY) || (access_mode flag =? O_RDWR))%Z.

Definition flag_set (flag bit : Z) : bool := negb (Z.land flag bit =? 0)%Z.

(** [EEXIST], [EBADF] *)
Definition ErrExist : error := ErrOther "file exists".
Definition ErrBadFd : error := ErrOther "bad file descriptor".

(** A file opened with [os.OpenFile]: the handle and the flags it was
    opened with. *)
Record Opened : Type := { handle : File; flag : Z }.

(** [os.OpenFile(name, flag, perm)] for the flags of package [os], as
    [open(2)] treats them on Linux (the permission bits play no part in
    this file system):
    - [O_CREATE|O_EXCL] fails on a name that exists;
    - a directory opens in mode [O_RDONLY] without [O_CREATE] and
      [O_TRUNC] only;
    - [O_TRUNC] empties an existing file, whatever the access mode;
    - a missing file is created under [O_CREATE]. *)
Definition os_OpenFile (name : string) (flag : Z) (fs : FS) : error + (Opened * FS) :=
  match resolve fs name with
  | None => inl (resolve_error fs name)
  | Some p =>
      let exists_ := is_dir fs p || bool_decide (is_Some (files fs !! p)) in
      let opened := {| handle := {| fpath := p; offset := 0; is_directory := false |};
                       flag := flag |} in
      let created :=
        match os_Create name fs with
        | inl e => inl e
        | inr (_, fs1) => inr (opened, fs1)
        end in
      if exists_ && flag_set flag O_CREATE && flag_set flag O_EXCL then inl ErrExist
      else if is_dir fs p then
        if negb (access_mode flag =? O_RDONLY)%Z
           || flag_set flag O_CREATE || flag_set flag O_TRUNC
        then inl ErrIsDir
        else inr ({| handle := {| fpath := p; offset := 0; is_directory := true |};
                     flag := flag |}, fs)
      else
        match files fs !! p with
        | Some _ => if flag_set flag O_TRUNC then created else inr (opened, fs)
        | None => if flag_set flag O_CREATE then created else inl ErrNotExist
        end
  end.

(** [Write] on such a file: it fails on a descriptor without write access;
    under [O_APPEND] it goes to the end of the file. *)
Definition Opened_Write (o : Opened) (p : list byte) (fs : FS)
  : (nat * option error) * Opened * FS :=
  if negb (write_access (flag o)) then ((O, Some ErrBadFd), o, fs)
  else
    let f := if flag_set (flag o) O_APPEND
             then {| fpath := fpath (handle o);
                     offset := length (content_of fs (fpath (handle o)));
                     is_directory := is_directory (handle o) |}
             else handle o in
    let '(res, f1, fs1) := Write f p fs in
    (res, {| handle := f1; flag := flag o |}, fs1).

(** [createFilePattern], for the three lines written in place of its fixed
    ones; no result is looked at, and a handle that could not be opened is
    nil:

      file1, _ := os.Create("create_file.txt")
      file1.WriteString(line1)
      file1.Write([]byte(line2))
      file2, _ := os.OpenFile("create_file.txt", os.O_APPEND, 0644)
      file2.WriteString(line3) *)
Definition createFilePattern (line1 line2 line3 : list byte) (fs : FS) : FS :=
  let fs2 :=
    match os_Create "create_file.txt" fs with
    | inl _ => fs
    | inr (file1, fs1) =>
        let '(_, file1a, fs1a) := Write file1 line1 fs1 in
        (Write file1a line2 fs1a).2
    end in
  match os_OpenFile "create_file.txt" O_APPEND fs2 with
  | inl _ => fs2
  | inr (file2, fs3) => (Opened_Write file2 line3 fs3).2
  end.

End FileOps.

(** ** step08-error-handling/main.go *)
Module Step08.
Import GoIO GoOS.

(** [fmt.Errorf("...: %w", err)] *)
Inductive wrapped : Type :=
| Errorf (msg : string) (cause : error).

(** [safeCopyFile(src, dst)]. The deferred closure runs on every return after
    the destination was created: it closes the file and, when [err] is set,
    removes [dst]. *)
Definition safeCopyFile (fuel : nat) (src dst : string) (fs : FS)
  : option (option wrapped * FS) :=
  match os_Open src fs with
  | inl e => Some (Some (Errorf "소스 파일 열기 실패" e), fs)
  | inr sourceFile =>
      match os_Create dst fs with
      | inl e => Some (Some (Errorf "목적지 파일 생성 실패" e), fs)
      | inr (destFile, fs1) =>
          match io_Copy fuel destFile sourceFile fs1 with
          | None => None
          | Some ((_, Some e), _, _, fs2) =>
              Some (Some (Errorf "복사 실패" e), os_Remove dst fs2)
          | Some ((_, None), destFile1, _, fs2) =>
              match File_Sync destFile1 fs2 with
              | (Some e, fs3) => Some (Some (Errorf "동기화 실패" e), os_Remove dst fs3)
              | (None, fs3) => Some (None, fs3)
              end
          end
      end
  end.

(** [type FileProcessError struct { Filename, Op string; Err error }] *)
Record FileProcessError : Type := {
  Filename : string;
  Op : string;
  Err : error
}.

(** [func (e *FileProcessError) Unwrap() error] *)
Definition Unwrap (e : FileProcessError) : error := Err e.

(** [errors.Is(err, target)] for a [*FileProcessError]: the error itself is
    not the target, so the chain is followed through [Unwrap]. *)
Definition errors_Is (e : FileProcessError) (target : error) : bool :=
  bool_decide (Unwrap e = target).

(** [processFile(filename)]: the error returned and the lines printed.

      file, err := os.Open(filename)
      if err != nil { return &FileProcessError{filename, "open", err} }
      data := make([]byte, 1024)
      _, err = file.Read(data)
      if err != nil && err != io.EOF { return &FileProcessError{filename, "read", err} }
      fmt.Println(string(data))
      return nil

    The whole buffer is printed, not [data[:n]]. *)
Definition processFile (filename : string) (fs : FS)
  : option FileProcessError * list (list byte) :=
  match os_Open filename fs with
  | inl err => (Some {| Filename := filename; Op := "open"; Err := err |}, [])
  | inr file =>
      let '((read, err), _, _) := Read file 1024 fs in
      let data := read ++ repeat x00 (1024 - length read) in
      match err with
      | Some e =>
          if bool_decide (e = EOF) then (None, [data])
          else (Some {| Filename := filename; Op := "read"; Err := e |}, [])
      | None => (None, [data])
      end
  end.

(** What [errorWrappingPattern] prints: the data line of [processFile], or
    the four lines about a [*FileProcessError], and the line saying that the
    file does not exist. *)
Inductive printed : Type :=
| DataLine (data : list byte)
| FileErrorLines (filename op : string) (cause : error)
| NotExistLine.

(** [errorWrappingPattern]; [errors.As] finds the [*FileProcessError], the
    only error [processFile] returns. *)
Definition errorWrappingPattern (fs : FS) : list printed :=
  match processFile "nonexistent.txt" fs with
  | (Some fileErr, out) =>
      map DataLine out
      ++ [FileErrorLines (Filename fileErr) (Op fileErr) (Err fileErr)]
      ++ (if errors_Is fileErr ErrNotExist then [NotExistLine] else [])
  | (None, out) => map DataLine out
  end.

(** *** [readFileWithTimeout] *)

(** [context.DeadlineExceeded] *)
Definition DeadlineExceeded : error := ErrOther "context deadline exceeded".

(** What [readFileWithTimeout] returns: the wrapped timeout, the error the
    goroutine sent, or the data it sent. *)
Inductive returned : Type :=
| TimedOut (err : wrapped)
| Failed (err : error)
| Data (data : list byte).

(** The goroutine, up to its one send, on [errorChan] ([inl]) or on
    [resultChan] ([inr]); both channels have room for it:

      file, err := os.Open(filename)
      if err != nil { errorChan <- err; return }
      data, err := io.ReadAll(file)
      if err != nil { errorChan <- err; return }
      resultChan <- data *)
Definition readFile_goroutine (grow : nat -> nat) (fuel : nat) (filename : string)
    (fs : FS) : option (error + list byte) :=
  match os_Open filename fs with
  | inl err => Some (inl err)
  | inr file =>
      match io_ReadAll grow fuel file fs with
      | None => None
      | Some ((_, Some err), _, _) => Some (inl err)
      | Some ((data, None), _, _) => Some (inr data)
      end
  end.

(** [readFileWithTimeout(filename, timeout)]. [deadline_first] says that
    the [select] takes [ctx.Done()]: the deadline passed before the
    goroutine sent, or both were ready and that case was chosen.

      select {
      case <-ctx.Done():       return nil, fmt.Errorf("타임아웃: %w", ctx.Err())
      case err := <-errorChan: return nil, err
      case data := <-resultChan: return data, nil
      } *)
Definition readFileWithTimeout (grow : nat -> nat) (fuel : nat) (deadline_first : bool)
    (filename : string) (fs : FS) : option returned :=
  if deadline_first then Some (TimedOut (Errorf "타임아웃" DeadlineExceeded))
  else
    match readFile_goroutine grow fuel filename fs with
    | None => None
    | Some (inl err) => Some (Failed err)
    | Some (inr data) => Some (Data data)
    end.

End Step08.

(** ** step09-http-streaming/main.go *)
Module Step09.
Import GoIO GoOS.

(** The part of [multipart.FileHeader] the handler reads. *)
Record FileHeader : Type := {
  Filename : string;
  Size : Z
}.

(** An incoming request: the method, the URL's query, the [Range] header,
    and what [ParseMultipartForm] makes of the body ([None] when it fails):
    the file parts by field name, each with its header and its bytes. *)
Record Request : Type := {
  Method : string;
  Query : gmap string string;
  Range : option string;
  MultipartForm : option (gmap string (FileHeader * list byte))
}.

(** [r.URL.Query().Get(key)] *)
Definition Query_Get (r : Request) (key : string) : string :=
  default "" (Query r !! key).

(** [r.ParseMultipartForm(maxMemory)]. [maxMemory] only decides which parts
    are kept in memory and which in temporary files; it bounds nothing. *)
Definition ParseMultipartForm (r : Request) (maxMemory : Z)
  : option (gmap string (FileHeader * list byte)) := MultipartForm r.

(** [r.FormFile(key)]: the part's content as a reader, and its header. *)
Definition FormFile (form : gmap string (FileHeader * list byte)) (key : string)
  : option (BytesReader * FileHeader) :=
  match form !! key with
  | Some (header, content) => Some ({| unread := content |}, header)
  | None => None
  end.

(** [http.ResponseWriter]: the header map, the status line once it is
    written, the body so far. *)
Record ResponseWriter : Type := {
  Header : gmap string string;
  status : option Z;
  body : list byte
}.

Definition StatusOK : Z := 200.
Definition StatusBadRequest : Z := 400.
Definition StatusNotFound : Z := 404.
Definition StatusMethodNotAllowed : Z := 405.
Definition StatusRequestEntityTooLarge : Z := 413.
Definition StatusInternalServerError : Z := 500.

(** The status the client sees: 200 unless another was written. *)
Definition statusCode (rw : ResponseWriter) : Z := default StatusOK (status rw).

(** [w.Header().Set(key, value)] *)
Definition Header_Set (key value : string) (rw : ResponseWriter) : ResponseWriter :=
  {| Header := <[key := value]> (Header rw); status := status rw; body := body rw |}.

(** [w.WriteHeader(code)]; a second call changes nothing. *)
Definition WriteHeader (code : Z) (rw : ResponseWriter) : ResponseWriter :=
  {| Header := Header rw;
     status := Some (default code (status rw));
     body := body rw |}.

(** [w.Write(p)]: the first write sends status 200 if none was sent. *)
#[global] Instance ResponseWriter_Write {W} : Writer W ResponseWriter :=
  fun rw p w =>
    ((length p, None),
     {| Header := Header rw;
        status := Some (default StatusOK (status rw));
        body := body rw ++ p |},
     w).

Definition write_string (s : string) (rw : ResponseWriter) : ResponseWriter :=
  {| Header := Header rw;
     status := Some (default StatusOK (status rw));
     body := body rw ++ list_byte_of_string s |}.

(** [http.Error(w, msg, code)] *)
Definition http_Error (msg : string) (code : Z) (rw : ResponseWriter) : ResponseWriter :=
  let rw1 :=
    {| Header := <["X-Content-Type-Options" := "nosniff"]>
                   (<["Content-Type" := "text/plain; charset=utf-8"]>
                      (delete "Content-Length" (Header rw)));
       status := status rw; body := body rw |} in
  write_string (msg +:+ String "010"%char "") (WriteHeader code rw1).

(** The [ProgressReader] of this step, the one of step 11 with its callback
    field named [onProgress]. *)
Record ProgressReader (W R : Type) : Type := {
  reader : R;
  total : Z;
  current : Z;
  onProgress : option (Z -> Z -> W -> W)
}.
Arguments reader {W R} _.
Arguments total {W R} _.
Arguments current {W R} _.
Arguments onProgress {W R} _.

(** [func (pr *ProgressReader) Read(p []byte) (n int, err error)]:
      n, err = pr.reader.Read(p)
      pr.current += int64(n)
      if pr.onProgress != nil { pr.onProgress(pr.current, pr.total) }
      return n, err *)
Definition ProgressReader_Read {W R} `{!Reader W R} (pr : ProgressReader W R)
    (n : nat) (w : W) : ReadResult * ProgressReader W R * W :=
  let '((data, err), r1, w1) := Read (reader pr) n w in
  let cur := wrap64 (current pr + Z.of_nat (length data)) in
  let w2 := match onProgress pr with
            | Some f => f cur (total pr) w1
            | None => w1
            end in
  ((data, err),
   {| reader := r1; total := total pr; current := cur; onProgress := onProgress pr |},
   w2).

(** The same reader in step 11's record. *)
Definition as_step11 {W R} (pr : ProgressReader W R) : Step11.ProgressReader.t W R :=
  {| Step11.ProgressReader.reader := reader pr;
     Step11.ProgressReader.total := total pr;
     Step11.ProgressReader.current := current pr;
     Step11.ProgressReader.callback := onProgress pr |}.

(** What a handler leaves behind: the response, the file system, the lines
    it logged. *)
Definition Handled : Type := ResponseWriter * FS * list string.

(** [downloadHandler] *)
Definition downloadHandler (fuel : nat) (r : Request) (w : ResponseWriter) (fs : FS)
  : option Handled :=
  let filename := Query_Get r "file" in
  if String.eqb filename "" then
    Some (http_Error "파일명이 필요합니다" StatusBadRequest w, fs, [])
  else
    let safeFilename := Base filename in
    match os_Open ("./uploads/" +:+ safeFilename) fs with
    | inl _ => Some (http_Error "파일을 찾을 수 없습니다" StatusNotFound w, fs, [])
    | inr file =>
        let w1 := Header_Set "Content-Disposition"
                    ("attachment; filename=" +:+ filename) w in
        let w2 := Header_Set "Content-Type" "application/octet-stream" w1 in
        let w3 := Header_Set "Content-Length" (pretty (File_Size file fs)) w2 in
        match io_Copy fuel w3 file fs with
        | None => None
        | Some ((written, Some e), w4, _, fs1) =>
            Some (w4, fs1, ["전송 중 에러"])
        | Some ((written, None), w4, _, fs1) =>
            Some (w4, fs1,
                  [filename +:+ " 파일 전송 완료: " +:+ pretty written +:+ " 바이트"])
        end
    end.

Section RangeDownload.

(** [http.ServeContent(w, r, name, modtime, content)] belongs to [net/http];
    the handler is embedded over it. *)
Variable ServeContent : ResponseWriter -> Request -> string -> File -> FS -> ResponseWriter * FS.

(** [rangeDownloadHandler] (the [fmt.Println] of the file info is left out) *)
Definition rangeDownloadHandler (r : Request) (w : ResponseWriter) (fs : FS) : Handled :=
  let filename := Query_Get r "file" in
  if String.eqb filename "" then
    (http_Error "파일명이 필요합니다" StatusBadRequest w, fs, [])
  else
    let safeFilename := Base filename in
    match os_Open ("./uploads/" +:+ safeFilename) fs with
    | inl _ => (http_Error "파일을 찾을 수 없습니다" StatusNotFound w, fs, [])
    | inr file =>
        let w1 := Header_Set "Content-Disposition"
                    ("attachment; filename=" +:+ safeFilename) w in
        let '(w2, fs1) := ServeContent w1 r safeFilename file fs in
        (w2, fs1, [])
    end.

End RangeDownload.

(** [uploadHandler] *)
Definition uploadHandler (fuel : nat) (r : Request) (w : ResponseWriter) (fs : FS)
  : option Handled :=
  if negb (String.eqb (Method r) "POST") then
    Some (http_Error "POST 메서드만 허용됩니다" StatusMethodNotAllowed w, fs, [])
  else
    match ParseMultipartForm r (Z.shiftl 10 20) with
    | None => Some (http_Error "폼 파싱 실패" StatusBadRequest w, fs, [])
    | Some form =>
        match FormFile form "file" with
        | None => Some (http_Error "파일을 가져올 수 없습니다" StatusBadRequest w, fs, [])
        | Some (file, header) =>
            match os_Create ("uploads/" +:+ Filename header) fs with
            | inl _ =>
                Some (http_Error "파일 생성 실패" StatusInternalServerError w, fs, [])
            | inr (dst, fs1) =>
                match io_Copy fuel dst file fs1 with
                | None => None
                | Some ((written, Some _), _, _, fs2) =>
                    Some (http_Error "파일 저장 실패" StatusInternalServerError w, fs2, [])
                | Some ((written, None), _, _, fs2) =>
                    let line := Filename header +:+ " (" +:+ pretty written +:+ " 바이트)" in
                    Some (write_string ("파일 업로드 성공: " +:+ line +:+ String "010"%char "") w,
                          fs2,
                          ["파일 업로드: " +:+ line])
                end
            end
        end
    end.

(** A [POST] whose form holds the file part [name] with bytes [content]. *)
Definition upload_request (name : string) (content : list byte) : Request :=
  {| Method := "POST"; Query := ∅; Range := None;
     MultipartForm :=
       Some {[ "file" := ({| Filename := name; Size := Z.of_nat (length content) |},
                          content) ]} |}.

(** A [GET] with [?file=name]. *)
Definition download_request (name : string) : Request :=
  {| Method := "GET"; Query := {[ "file" := name ]}; Range := None;
     MultipartForm := None |}.

(** [Part.FileName] of [mime/multipart], by which [ParseMultipartForm] fills
    [FileHeader.Filename] (Go 1.17 and later): the [filename] parameter of
    the part's [Content-Disposition] header, through [filepath.Base]; empty
    when the part has none, and such a part is a plain value, not a file.

      filename := p.dispositionParams["filename"]
      if filename == "" { return "" }
      return filepath.Base(filename) *)
Definition Part_FileName (raw : string) : string :=
  if String.eqb raw "" then "" else Base raw.

(** The request [net/http] hands to the handler for a [POST] whose body is
    one part in the field [file], sent with the file name [raw] and the
    bytes [content]. *)
Definition received_upload (raw : string) (content : list byte) : Request :=
  if String.eqb raw "" then
    {| Method := "POST"; Query := ∅; Range := None; MultipartForm := Some ∅ |}
  else upload_request (Part_FileName raw) content.

(** A response nothing was written to yet. *)
Definition fresh : ResponseWriter := {| Header := ∅; status := None; body := [] |}.

(** The working directory of the server after [os.MkdirAll("uploads", 0755)],
    with the given files in [uploads] and the given free space. *)
Definition server_fs (stored : list (string * list byte)) (space : nat) : FS :=
  {| dirs := {[ ["uploads"] ]};
     files := list_to_map (map (fun '(name, content) => (["uploads"; name], content)) stored);
     synced := ∅;
     free := space;
     sync_fault := false |}.

(** What the success branch of [uploadHandler] answers and logs. *)
Definition upload_line (name : string) (written : Z) : string :=
  name +:+ " (" +:+ pretty written +:+ " 바이트)".

Definition upload_success (name : string) (written : Z) (w : ResponseWriter)
  : ResponseWriter :=
  write_string ("파일 업로드 성공: " +:+ upload_line name written +:+ String "010"%char "") w.

(** The claim of a size ceiling, as the specification states it: an upload
    whose body is longer than [ceiling] is answered 413 and no more than
    [ceiling] bytes reach the destination. *)
Definition size_ceiling_enforced (ceiling : nat) : Prop :=
  forall fuel name content w fs w' fs' log p,
    ceiling < length content ->
    status w = None ->
    resolve fs ("uploads/" +:+ name) = Some p ->
    uploadHandler fuel (upload_request name content) w fs = Some (w', fs', log) ->
    statusCode w' = StatusRequestEntityTooLarge
    /\ length (content_of fs' p) <= ceiling.

(** Whether a resolved path lies inside the upload root [uploads]. *)
Definition under_uploads (p : list string) : bool :=
  match p with
  | root :: _ :: _ => String.eqb root "uploads"
  | _ => false
  end.

End Step09.

(** ** step05-advanced-streaming/main.go *)
Module Step05.
Import GoIO GoOS.

(** *** [teeReaderPattern] *)

(** A running hash ([hash.Hash]): the bytes written to it so far; [Sum]
    is the digest of them all. The digest function itself is opaque. *)
Record Hash : Type := { absorbed : list byte }.

Definition md5_New : Hash := {| absorbed := [] |}.

#[global] Instance Hash_Write {W} : Writer W Hash :=
  fun h p w => ((length p, None), {| absorbed := absorbed h ++ p |}, w).

(** The nil [*os.File] left by an [os.Create] whose error was dropped:
    writing to it fails. *)
Inductive NilFile : Type := nil_file.

#[global] Instance NilFile_Write : Writer FS NilFile :=
  fun f p fs => ((O, Some ErrInvalid), f, fs).

(** [io.Copy(dst, src)] with a [*os.File] destination and a source without
    [WriteTo] hands the copy to [dst.ReadFrom]. The [ReadFrom] of [os.File]
    checks the handle first, and on the nil file returns [ErrInvalid] before any
    read of the source; on an open file, for a source that is no file, it
    runs the generic loop. *)
Definition NilFile_ReadFrom {W R : Type} (f : NilFile) (src : R) (w : W)
  : option ((Z * option error) * NilFile * R * W) :=
  Some ((0%Z, Some ErrInvalid), f, src, w).

(** What [teeReaderPattern] printed, and what its hash was fed. *)
Record TeeReport : Type := {
  checksum : list byte;
  written : Z;
  mirrored : list byte
}.

Section Tee.

(** The MD5 digest of a byte sequence. *)
Variable md5 : list byte -> list byte.

(** [hash.Sum(nil)] *)
Definition Hash_Sum (h : Hash) : list byte := md5 (absorbed h).

(** Hashing a byte sequence directly: one [Write], then [Sum]. *)
Definition hash_directly (data : list byte) : list byte :=
  Hash_Sum (Write md5_New data tt).1.2.

Definition tee_report {S : Type}
    (copied : option ((Z * option error) * S * TeeReader BytesReader Hash * FS))
  : option (TeeReport * FS) :=
  match copied with
  | None => None
  | Some ((written, _), _, teeReader, fs) =>
      Some ({| checksum := Hash_Sum (tee_w teeReader);
               written := written;
               mirrored := absorbed (tee_w teeReader) |}, fs)
  end.

(** [teeReaderPattern], for the input [data] in place of its fixed text:

      reader := strings.NewReader(data)
      hash := md5.New()
      teeReader := io.TeeReader(reader, hash)
      file, _ := os.Create("tee_reader.txt")
      written, _ := io.Copy(file, teeReader)
      checksum := hash.Sum(nil) *)
Definition teeReaderPattern (fuel : nat) (data : list byte) (fs : FS)
  : option (TeeReport * FS) :=
  let reader := {| unread := data |} in
  let hash := md5_New in
  let teeReader := {| tee_r := reader; tee_w := hash |} in
  match os_Create "tee_reader.txt" fs with
  | inl _ => tee_report (NilFile_ReadFrom nil_file teeReader fs)
  | inr (file, fs1) => tee_report (io_Copy fuel file teeReader fs1)
  end.

End Tee.

(** The tee over a byte reader is a finite stream of the unread bytes; what
    its hash absorbed and what is still unread make up the input. *)
Definition tee_remaining (data : list byte) (t : TeeReader BytesReader Hash)
    (rest : list byte) : Prop :=
  unread (tee_r t) = rest /\ absorbed (tee_w t) ++ rest = data.

(** *** [ioPipePattern] *)

(** What the producer goroutine does to its end of the pipe, in order.
    [pw.Close()] is [PClose None], [pw.CloseWithError(err)] is
    [PClose (Some err)]. *)
Inductive pipe_op : Type :=
| PWrite (b : list byte)
| PClose (err : option error).

(** The write end seen from the producer: it records the operations. A
    write returns when the consumer has taken all of its bytes; it can only
    fail once the read end is closed, which this program never does. *)
Record PipeWriter : Type := { ops : list pipe_op }.

#[global] Instance PipeWriter_Write {W} : Writer W PipeWriter :=
  fun pw b w => ((length b, None), {| ops := ops pw ++ [PWrite b] |}, w).

(** The goroutine of [ioPipePattern], from the result of its [os.Open]:

      defer pw.Close()
      file, err := os.Open("fake.log")
      if err != nil { pw.CloseWithError(err); return }
      _, err = io.Copy(pw, file)
      if err != nil { pw.CloseWithError(err) } *)
Definition producer {W R} `{!Reader W R} (fuel : nat) (opened : error + R) (w : W)
  : option (list pipe_op) :=
  match opened with
  | inl err => Some [PClose (Some err); PClose None]
  | inr file =>
      match io_Copy fuel {| ops := [] |} file w with
      | None => None
      | Some ((_, Some err), pw, _, _) => Some (ops pw ++ [PClose (Some err); PClose None])
      | Some ((_, None), pw, _, _) => Some (ops pw ++ [PClose None])
      end
  end.

(** The pipe of [io.Pipe]: the slice a blocked [Write] offers on [wrCh],
    whether [done] is closed, and [werr], which keeps the first error
    stored by a close of the write end ([EOF] for a plain [Close]). *)
Record pipe : Type := {
  wrCh : option (list byte);
  done : bool;
  werr : option error
}.

(** The consumer, [io.Copy(gzipWriter, pr)] in the main goroutine: inside
    the loop with what it has passed on so far, or returned. *)
Inductive consumer : Type :=
| Copying (received : list byte) (written : Z)
| Returned (received : list byte) (written : Z) (err : option error).

(** The two goroutines and the pipe between them. *)
Record system : Type := {
  pending : list pipe_op;
  shared : pipe;
  reading : consumer
}.

Definition start (program : list pipe_op) : system :=
  {| pending := program;
     shared := {| wrCh := None; done := false; werr := None |};
     reading := Copying [] 0 |}.

(** [onceError.Store] in [closeWrite]: the first stored error stays. *)
Definition closeWrite (err : option error) (p : pipe) : pipe :=
  {| wrCh := wrCh p; done := true;
     werr := match werr p with
             | Some e => Some e
             | None => Some (default EOF err)
             end |}.

(** [readCloseError] when the read end was not closed. *)
Definition readCloseError (p : pipe) : error := default ErrClosedPipe (werr p).

(** What [io.Copy] returns when its read reports the close error. *)
Definition copy_result (e : error) : option error :=
  if bool_decide (e = EOF) then None else Some e.

(** One move of one goroutine:
    - the producer enters [Write] and offers its slice, or finds the pipe
      closed and gets [ErrClosedPipe];
    - the producer closes once no write of its own is under way;
    - the consumer's [Read] takes up to a buffer of the offered slice, and
      the write goes on with the rest, or returns when nothing is left;
    - the consumer's [Read] finds [done] closed and [io.Copy] returns. *)
Inductive step : system -> system -> Prop :=
| step_offer b rest p c :
    wrCh p = None -> done p = false ->
    step {| pending := PWrite b :: rest; shared := p; reading := c |}
         {| pending := rest;
            shared := {| wrCh := Some b; done := false; werr := werr p |};
            reading := c |}
| step_write_closed b rest p c :
    wrCh p = None -> done p = true ->
    step {| pending := PWrite b :: rest; shared := p; reading := c |}
         {| pending := rest; shared := p; reading := c |}
| step_close err rest p c :
    wrCh p = None ->
    step {| pending := PClose err :: rest; shared := p; reading := c |}
         {| pending := rest; shared := closeWrite err p; reading := c |}
| step_read ops b p received written :
    wrCh p = Some b -> done p = false ->
    step {| pending := ops; shared := p; reading := Copying received written |}
         {| pending := ops;
            shared := {| wrCh := if (length b <=? copy_buffer_size)%nat
                                 then None
                                 else Some (drop copy_buffer_size b);
                         done := false; werr := werr p |};
            reading := Copying (received ++ take copy_buffer_size b)
                         (wrap64 (written + Z.of_nat (length (take copy_buffer_size b)))) |}
| step_read_closed ops p received written :
    done p = true ->
    step {| pending := ops; shared := p; reading := Copying received written |}
         {| pending := ops; shared := p;
            reading := Returned received written (copy_result (readCloseError p)) |}.

(** A scheduler: the consumer moves when it can, else the producer. *)
Definition schedule (s : system) : option system :=
  let p := shared s in
  match reading s with
  | Copying received written =>
      if done p then
        Some {| pending := pending s; shared := p;
                reading := Returned received written (copy_result (readCloseError p)) |}
      else
        match wrCh p with
        | Some b =>
            Some {| pending := pending s;
                    shared := {| wrCh := if (length b <=? copy_buffer_size)%nat
                                         then None
                                         else Some (drop copy_buffer_size b);
                                 done := false; werr := werr p |};
                    reading := Copying (received ++ take copy_buffer_size b)
                                 (wrap64 (written + Z.of_nat (length (take copy_buffer_size b)))) |}
        | None =>
            match pending s with
            | PWrite b :: rest =>
                Some {| pending := rest;
                        shared := {| wrCh := Some b; done := false; werr := werr p |};
                        reading := reading s |}
            | PClose err :: rest =>
                Some {| pending := rest; shared := closeWrite err p; reading := reading s |}
            | [] => None
            end
        end
  | Returned _ _ _ => None
  end.

Fixpoint run (fuel : nat) (s : system) : system :=
  match fuel with
  | O => s
  | S fuel' =>
      match schedule s with
      | Some s' => run fuel' s'
      | None => s
      end
  end.

(** The bytes of the writes of a program, up to its first close. *)
Fixpoint bytes_written (program : list pipe_op) : list byte :=
  match program with
  | PWrite b :: rest => b ++ bytes_written rest
  | PClose _ :: _ | [] => []
  end.

(** The error the first close of a program stores, if it closes. *)
Fixpoint close_error (program : list pipe_op) : option error :=
  match program with
  | PWrite _ :: rest => close_error rest
  | PClose err :: _ => Some (default EOF err)
  | [] => None
  end.

(** A producer that writes [ab], then [c], then closes with a fault; the
    deferred plain close follows. *)
Definition faulting_program : list pipe_op :=
  [PWrite (list_byte_of_string "ab"); PWrite (list_byte_of_string "c");
   PClose (Some (ErrOther "disk")); PClose None].

(** The bytes of the write under way, if any. *)
Definition in_flight (p : pipe) : list byte := default [] (wrCh p).

(** What holds of every state the two goroutines can reach from [start
    program]: the bytes the consumer has, those in flight and those of the
    writes to come make up the bytes the program writes before it closes;
    the pipe is closed only after all of them were taken, with the error of
    the program's first close. *)
Definition pipe_inv (program : list pipe_op) (s : system) : Prop :=
  match reading s with
  | Copying received written =>
      written = wrap64 (Z.of_nat (length received))
      /\ if done (shared s)
         then wrCh (shared s) = None
              /\ received = bytes_written program
              /\ is_Some (werr (shared s))
              /\ werr (shared s) = close_error program
         else werr (shared s) = None
              /\ received ++ in_flight (shared s) ++ bytes_written (pending s)
                 = bytes_written program
              /\ close_error (pending s) = close_error program
  | Returned received written err =>
      received = bytes_written program
      /\ written = wrap64 (Z.of_nat (length received))
      /\ exists e, close_error program = Some e /\ err = copy_result e
  end.

(** A bound on the moves left. *)
Definition op_weight (op : pipe_op) : nat :=
  match op with
  | PWrite b => 2 + length b
  | PClose _ => 1
  end.

Definition weight (s : system) : nat :=
  sum_list (map op_weight (pending s))
  + match wrCh (shared s) with Some b => 1 + length b | None => 0 end
  + match reading s with Copying _ _ => 1 | Returned _ _ _ => 0 end.

(** *** [UpperCaseReader], [LineNumberWriter], [customReaderWriterPattern] *)

(** [bytes.ToUpper] maps an all-ASCII slice byte by byte; what it does to
    other slices is [unicode.ToUpper]'s business, kept abstract. *)
Class Unicode := unicode_ToUpper : list byte -> list byte.

Definition is_ascii_byte (b : byte) : bool := (Byte.to_N b <? 128)%N.

Definition upper_byte (b : byte) : byte :=
  let n := Byte.to_N b in
  if ((97 <=? n) && (n <=? 122))%N then default b (Byte.of_N (n - 32)) else b.

Definition bytes_ToUpper `{!Unicode} (s : list byte) : list byte :=
  if forallb is_ascii_byte s then map upper_byte s else unicode_ToUpper s.

Record UpperCaseReader (R : Type) : Type := { source : R }.
Arguments source {R} _.

(** [func (u *UpperCaseReader) Read(p []byte) (int, error)]:
      n, err := u.source.Read(p)
      if err != nil { return n, err }
      copy(p, bytes.ToUpper(p[:n]))
      return n, nil
    [copy] overwrites the first [min(len(p), len(upper))] bytes of [p]; the
    caller gets [p[:n]]. *)
#[global] Instance UpperCaseReader_Read {W R} `{!Unicode, !Reader W R}
  : Reader W (UpperCaseReader R) :=
  fun u n w =>
    let '((data, err), r1, w1) := Read (source u) n w in
    match err with
    | Some e => ((data, Some e), {| source := r1 |}, w1)
    | None =>
        let upper := take n (bytes_ToUpper data) in
        ((take (length data) (upper ++ drop (length upper) data), None),
         {| source := r1 |}, w1)
    end.

Module LineNumberWriter.

Record t (D : Type) : Type := {
  dest : D;
  lineNumber : Z;
  newLine : bool
}.
Arguments dest {D} _.
Arguments lineNumber {D} _.
Arguments newLine {D} _.

(** [[]byte(fmt.Sprintf("%d: ", l.lineNumber))] *)
Definition prefix (number : Z) : list byte :=
  list_byte_of_string (pretty number +:+ ": ").

Definition is_newline (b : byte) : bool := Byte.eqb b x0a.

(** The [range] loop of [Write], at index [i] with the bytes [rest] of [p]
    still to visit and [written] bytes flushed:

      for i, b := range p {
        if l.newLine {
          l.dest.Write([]byte(prefix)); l.lineNumber++; l.newLine = false
        }
        if b == '\n' {
          l.dest.Write([]byte(p[written : i+1])); written = i + 1
          l.newLine = true
        }
      } *)
Fixpoint loop {W D} `{!Writer W D} (p rest : list byte) (i written : nat)
    (l : t D) (w : W) : nat * t D * W :=
  match rest with
  | [] => (written, l, w)
  | b :: rest' =>
      let '(l1, w1) :=
        if newLine l then
          let '(_, d1, w1) := Write (dest l) (prefix (lineNumber l)) w in
          ({| dest := d1; lineNumber := wrap64 (lineNumber l + 1); newLine := false |}, w1)
        else (l, w) in
      let '(written1, l2, w2) :=
        if is_newline b then
          let '(_, d2, w2) :=
            Write (dest l1) (take (i + 1 - written) (drop written p)) w1 in
          (i + 1, {| dest := d2; lineNumber := lineNumber l1; newLine := true |}, w2)
        else (written, l1, w1) in
      loop p rest' (S i) written1 l2 w2
  end.

(** [func (l *LineNumberWriter) Write(p []byte) (int, error)]: the loop,
    then
      if written < len(p) { n, _ := l.dest.Write([]byte(p[written:])); written += n }
      return written, nil *)
Definition Write_ {W D} `{!Writer W D} (l : t D) (p : list byte) (w : W)
  : (nat * option error) * t D * W :=
  let '(written, l1, w1) := loop p p 0 0 l w in
  if (written <? length p)%nat then
    let '((n, _), d, w2) := Write (dest l1) (drop written p) w1 in
    ((written + n, None),
     {| dest := d; lineNumber := lineNumber l1; newLine := newLine l1 |}, w2)
  else ((written, None), l1, w1).

#[global] Instance Writer_inst {W D} `{!Writer W D} : Writer W (t D) := Write_.

(** The text a line-numbering writer should produce from the bytes [p],
    byte by byte: the number of the line goes before the first byte of
    every line. [fresh] says that the next byte starts a line. *)
Fixpoint numbered (number : Z) (fresh : bool) (p : list byte) : list byte :=
  match p with
  | [] => []
  | b :: p' =>
      (if fresh then prefix number else [])
      ++ b :: numbered (if fresh then wrap64 (number + 1) else number) (is_newline b) p'
  end.

(** The line number and the flag after the bytes [p]. *)
Fixpoint state_after (number : Z) (fresh : bool) (p : list byte) : Z * bool :=
  match p with
  | [] => (number, fresh)
  | b :: p' => state_after (if fresh then wrap64 (number + 1) else number) (is_newline b) p'
  end.

End LineNumberWriter.

(** [customReaderWriterPattern], for the text [testData] in place of its
    fixed one, with standard output as a buffer: what was printed. *)
Definition customReaderWriterPattern `{!Unicode} (fuel : nat) (testData : list byte)
  : option (list byte) :=
  let upperReader := {| source := {| unread := testData |} |} in
  let lineNumberWriter :=
    {| LineNumberWriter.dest := {| contents := [] |};
       LineNumberWriter.lineNumber := 1;
       LineNumberWriter.newLine := true |} in
  match io_Copy fuel lineNumberWriter upperReader tt with
  | None => None
  | Some (_, l, _, _) => Some (contents (LineNumberWriter.dest l))
  end.

(** *** [limitReaderPattern] *)

(** What [limitReaderPattern] prints, for the text [longText]: the bytes
    read through the limit, their number, the 100-byte buffer after the
    direct read, its length. The limited reader and the direct read share
    the one [strings.Reader]. *)
Definition limitReaderPattern (grow : nat -> nat) (fuel : nat) (longText : list byte)
  : option (list byte * nat * list byte * nat) :=
  let reader := {| unread := longText |} in
  let limited := {| lim_R := reader; lim_N := 100 |} in
  match io_ReadAll grow fuel limited tt with
  | None => None
  | Some ((b, _), limited1, _) =>
      let '((data, _), _, _) := Read (lim_R limited1) 100 tt in
      let buff := data ++ repeat x00 (100 - length data) in
      Some (b, length b, buff, length buff)
  end.

(** *** [ioPipePattern] on the file system *)

(** The program of the producer goroutine for the file system [fs]. *)
Definition ioPipePattern_producer (fuel : nat) (fs : FS) : option (list pipe_op) :=
  producer fuel (os_Open "fake.log" fs) fs.

(** The payloads of the writes of a program. *)
Definition payloads (program : list pipe_op) : list byte :=
  concat (omap (fun op => match op with PWrite b => Some b | PClose _ => None end) program).

(** The read end as the main goroutine drives it: what the producer still
    has to do, and the pipe. A [Read] blocks until the producer offers a
    write or closes, so it takes the producer that far:

      select { case <-p.done: return 0, p.readCloseError(); default: }
      select {
      case bw := <-p.wrCh: nr := copy(b, bw); p.rdCh <- nr; return nr, nil
      case <-p.done:       return 0, p.readCloseError()
      }

    A producer that ended without closing would leave the read blocked for
    ever; the model then returns nothing new, and a copy that goes on
    reading runs out of fuel. *)
Record PipeReader : Type := { coming : list pipe_op; between : pipe }.

#[global] Instance PipeReader_Read {W} : Reader W PipeReader :=
  fun pr n w =>
    let p := between pr in
    let taken (b : list byte) (ops : list pipe_op) :=
      ((take n b, None),
       {| coming := ops;
          between := {| wrCh := if (length b <=? n)%nat then None else Some (drop n b);
                        done := false; werr := werr p |} |},
       w) in
    if done p then (([], Some (readCloseError p)), pr, w)
    else
      match wrCh p with
      | Some b => taken b (coming pr)
      | None =>
          match coming pr with
          | PWrite b :: ops => taken b ops
          | PClose err :: ops =>
              (([], Some (readCloseError (closeWrite err p))),
               {| coming := ops; between := closeWrite err p |}, w)
          | [] => (([], None), pr, w)
          end
      end.

(** The read end of a new pipe whose producer runs [program]. *)
Definition pipe_of (program : list pipe_op) : PipeReader :=
  {| coming := program; between := shared (start program) |}.

(** A bound on the reads a copy needs to see the producer's close. *)
Definition reads_left (pr : PipeReader) : nat :=
  sum_list (map (fun op => match op with PWrite b => S (length b) | PClose _ => 1 end)
              (coming pr))
  + match wrCh (between pr) with Some b => S (length b) | None => 0 end.

(** How [ioPipePattern] ends: at the failed [os.Create], at a failed copy,
    or with the count it prints. *)
Inductive pipe_result : Type :=
| CreateFailed (e : error)
| CopyFailed (e : error)
| Compressed (written : Z).

Section Pipe.

(** [gzip.Writer] belongs to [compress/gzip]: a writer over the output
    file, of which the function uses [NewWriter], [Write] and the deferred
    [Close], whose error is dropped. *)
Context {G : Type} `{!Writer FS G}.
Variable gzip_NewWriter : File -> G.
Variable gzip_Close : G -> FS -> FS.

(** [ioPipePattern]. The goroutine reads [fake.log] and nothing else, and
    the main goroutine writes [compressed.zip] and nothing else, so the
    goroutine's program is the one of the file system the function starts
    on.

      pr, pw := io.Pipe()
      go func() { ... }()
      outFile, err := os.Create("compressed.zip")
      if err != nil { fmt.Printf(...); return }
      defer outFile.Close()
      gzipWriter := gzip.NewWriter(outFile)
      defer gzipWriter.Close()
      written, err := io.Copy(gzipWriter, pr)
      if err != nil { fmt.Printf(...); return }
      fmt.Printf(..., written) *)
Definition ioPipePattern (fuel : nat) (fs : FS) : option (pipe_result * FS) :=
  match os_Create "compressed.zip" fs with
  | inl e => Some (CreateFailed e, fs)
  | inr (outFile, fs1) =>
      match ioPipePattern_producer fuel fs with
      | None => None
      | Some program =>
          match io_Copy fuel (gzip_NewWriter outFile) (pipe_of program) fs1 with
          | None => None
          | Some ((_, Some e), gzipWriter, _, fs2) =>
              Some (CopyFailed e, gzip_Close gzipWriter fs2)
          | Some ((written, None), gzipWriter, _, fs2) =>
              Some (Compressed written, gzip_Close gzipWriter fs2)
          end
      end
  end.

End Pipe.

(** The upper-casing reader over a byte reader that holds ASCII text is a
    finite stream of that text in upper case. *)
Definition upper_remaining (u : UpperCaseReader BytesReader) (rest : list byte) : Prop :=
  forallb is_ascii_byte (unread (source u)) = true
  /\ rest = map upper_byte (unread (source u)).

(** A working directory that holds [fake.log] with the bytes [c] and
    nothing else, on a full device. *)
Definition log_fs (c : list byte) : FS :=
  {| dirs := ∅; files := {[ ["fake.log"] := c ]}; synced := ∅; free := 0;
     sync_fault := false |}.

(** A working directory in which [tee_reader.txt] is a directory. *)
Definition tee_dir_fs : FS :=
  {| dirs := {[ ["tee_reader.txt"] ]}; files := ∅; synced := ∅; free := 3;
     sync_fault := false |}.

End Step05.

(** ** step02-io-interfaces/main.go *)
Module Step02.
Import GoIO.

(** What the loop of [readPattern] prints: a chunk, or the fault of a read. *)
Inductive line : Type :=
| Chunk (data : list byte)
| Failure (e : error).

(** The loop of [readPattern], with the lines printed so far:

      buf := make([]byte, 256)
      for {
        n, err := reader.Read(buf)
        if err == io.EOF { break }
        if err != nil { fmt.Println("Error:", err); break }
        fmt.Println(buf[:n]); fmt.Printf(..., n, string(buf[:n]))
      } *)
Fixpoint readPattern_loop {W R} `{!Reader W R} (fuel : nat) (reader : R) (w : W)
    (out : list line) : option (list line * R * W) :=
  match fuel with
  | O => None
  | S fuel' =>
      let '((data, err), r1, w1) := Read reader 256 w in
      match err with
      | Some e =>
          if bool_decide (e = EOF) then Some (out, r1, w1)
          else Some (out ++ [Failure e], r1, w1)
      | None => readPattern_loop fuel' r1 w1 (out ++ [Chunk data])
      end
  end.

(** [readPattern], for the text [text] in place of its fixed one. *)
Definition readPattern (fuel : nat) (text : list byte) : option (list line) :=
  match readPattern_loop fuel {| unread := text |} tt [] with
  | Some (out, _, _) => Some out
  | None => None
  end.

(** The bytes of the chunks printed. *)
Definition printed_bytes (out : list line) : list byte :=
  concat (omap (fun l => match l with Chunk d => Some d | Failure _ => None end) out).

(** The text cut into slices of [n] bytes, the last one shorter when the
    length is no multiple of [n]; [fuel] bounds the number of slices. *)
Fixpoint slices (fuel n : nat) (text : list byte) : list (list byte) :=
  match fuel, text with
  | O, _ | _, [] => []
  | S fuel', _ => take n text :: slices fuel' n (drop n text)
  end.

End Step02.

(* ===================================================================== *)
(** * Part II: the theorems                                               *)
(* ===================================================================== *)

(** ** Copying into a file *)
Module CopyFacts.
Import GoIO GoOS.

Lemma wrap64_idem (a b : Z) : wrap64 (wrap64 a + b) = wrap64 (a + b).
Proof.
  unfold wrap64.
  replace ((a + 2 ^ 63) mod 2 ^ 64 - 2 ^ 63 + b + 2 ^ 63)%Z
    with ((a + 2 ^ 63) mod 2 ^ 64 + b)%Z by lia.
  rewrite Zplus_mod_idemp_l. f_equal. f_equal. lia.
Qed.

Lemma wrap64_wrap64 (a : Z) : wrap64 (wrap64 a) = wrap64 a.
Proof.
  pose proof (wrap64_idem a 0) as H. by rewrite !Z.add_0_r in H.
Qed.

Lemma wrap64_small_nonneg (z : Z) : (0 <= z < 2 ^ 63)%Z -> wrap64 z = z.
Proof.
  intros Hz. unfold wrap64. rewrite Z.mod_small; lia.
Qed.

Lemma wrap64_small (z : Z) : (- 2 ^ 63 <= z < 2 ^ 63)%Z -> wrap64 z = z.
Proof.
  intros Hz. unfold wrap64. rewrite Z.mod_small; lia.
Qed.

(** Writing at the end of a file with room for the bytes appends them and
    touches nothing else. *)
Lemma File_Write_at_end (f : File) (fs : FS) (c p : list byte) :
  at_end f fs c -> length p <= free fs ->
  exists f' fs',
    Write f p fs = ((length p, None), f', fs')
    /\ at_end f' fs' (c ++ p) /\ fpath f' = fpath f
    /\ free fs' = free fs - length p
    /\ dirs fs' = dirs fs
    /\ synced fs' ⊆ synced fs
    /\ (forall q, q <> fpath f -> files fs' !! q = files fs !! q).
Proof.
  intros (Hdir & Hc & Hoff) Hroom.
  unfold Write, File_Write. rewrite Hdir, Hoff.
  unfold content_of. rewrite Hc. cbn [default].
  replace (free fs + (length c - length c)) with (free fs) by lia.
  rewrite Nat.min_l by lia.
  rewrite firstn_all, (take_ge p) by lia.
  rewrite (drop_ge c) by lia. rewrite app_nil_r.
  assert (Hlt : (length p <? length p)%nat = false) by (apply Nat.ltb_ge; lia).
  rewrite Hlt.
  eexists _, _. split; [reflexivity|].
  unfold at_end; cbn. rewrite lookup_insert_eq.
  repeat split.
  - rewrite length_app. lia.
  - rewrite length_app. lia.
  - apply subseteq_difference_l. reflexivity.
  - intros q Hq. by rewrite lookup_insert_ne.
Qed.

(** Without room for all the bytes the write is short and reports
    [ErrNoSpace]. *)
Lemma File_Write_no_room (f : File) (fs : FS) (c p : list byte) :
  at_end f fs c -> free fs < length p ->
  exists f' fs', Write f p fs = ((free fs, Some ErrNoSpace), f', fs').
Proof.
  intros (Hdir & Hc & Hoff) Hroom.
  unfold Write, File_Write. rewrite Hdir, Hoff.
  unfold content_of. rewrite Hc. cbn [default from_option]. unfold id.
  replace (free fs + (length c - length c)) with (free fs) by lia.
  rewrite Nat.min_r by lia.
  replace (free fs <? length p)%nat with true by (symmetry; apply Nat.ltb_lt; lia).
  by eexists _, _.
Qed.

Section FromStream.

Context {R : Type} `{!Reader FS R}.

(** [remaining r rest]: the reader [r] is a well-behaved finite stream that
    still has exactly the bytes [rest] to deliver. *)
Variable remaining : R -> list byte -> Prop.

Hypothesis remaining_Read : forall r rest n fs,
  remaining r rest -> 0 < n ->
  exists r',
    Read r n fs = ((take n rest, match rest with [] => Some EOF | _ => None end), r', fs)
    /\ remaining r' (drop n rest).

(** [io.Copy] from such a stream into a file with room for it stores all
    its bytes, reports their number and no error, and leaves the rest of the
    file system alone. *)
Lemma io_Copy_stream_to_file (fuel : nat) :
  forall (rest c : list byte) (r : R) (f : File) (fs : FS) (written : Z),
    remaining r rest -> at_end f fs c -> length rest <= free fs ->
    length rest < fuel -> wrap64 written = written ->
    exists f' r' fs',
      io_Copy_from fuel written f r fs
        = Some ((wrap64 (written + Z.of_nat (length rest)), None), f', r', fs')
      /\ remaining r' [] /\ at_end f' fs' (c ++ rest) /\ fpath f' = fpath f
      /\ free fs' = free fs - length rest
      /\ dirs fs' = dirs fs
      /\ synced fs' ⊆ synced fs
      /\ (forall q, q <> fpath f -> files fs' !! q = files fs !! q).
Proof.
  induction fuel as [|fuel IH]; intros rest c r f fs written Hrem Hend Hroom Hfuel Hw; [lia|].
  assert (Hbuf : 0 < copy_buffer_size) by (unfold copy_buffer_size; lia).
  destruct (remaining_Read r rest copy_buffer_size fs Hrem Hbuf) as (r1 & Hread & Hrem1).
  cbn [io_Copy_from]. rewrite Hread.
  destruct rest as [|b rest].
  - (* the stream is at its end *)
    rewrite take_nil. cbn [length Nat.ltb Nat.leb].
    exists f, r1, fs.
    rewrite Z.add_0_r, app_nil_r, Nat.sub_0_r, Hw.
    by rewrite drop_nil in Hrem1.
  - set (data := take copy_buffer_size (b :: rest)) in *.
    assert (Hlen : 0 < length data <= length (b :: rest)).
    { unfold data. rewrite length_take. cbn [length]. lia. }
    assert (Hdata : data ++ drop copy_buffer_size (b :: rest) = b :: rest)
      by apply take_drop.
    assert (Hsplit : length (b :: rest)
                     = length data + length (drop copy_buffer_size (b :: rest))).
    { rewrite <- length_app. by rewrite Hdata. }
    destruct (File_Write_at_end f fs c data Hend) as
      (f1 & fs1 & Hwrite & Hend1 & Hpath1 & Hfree1 & Hdirs1 & Hsync1 & Hframe1);
      [lia|].
    replace (0 <? length data)%nat with true by (symmetry; apply Nat.ltb_lt; lia).
    rewrite Hwrite.
    replace (length data <? length data)%nat with false
      by (symmetry; apply Nat.ltb_ge; lia).
    rewrite Nat.eqb_refl.
    destruct (IH (drop copy_buffer_size (b :: rest)) (c ++ data) r1 f1 fs1
                (wrap64 (written + Z.of_nat (length data))))
      as (f2 & r2 & fs2 & Hcopy & Hrem2 & Hend2 & Hpath2 & Hfree2 & Hdirs2
          & Hsync2 & Hframe2);
      [done | done | lia | lia | apply wrap64_wrap64 |].
    exists f2, r2, fs2. rewrite Hcopy.
    split.
    { by rewrite wrap64_idem, Hsplit, Nat2Z.inj_add, Z.add_assoc. }
    rewrite Hpath1 in Hpath2, Hframe2.
    rewrite <- app_assoc, Hdata in Hend2.
    split; [exact Hrem2|].
    split; [exact Hend2|].
    split; [exact Hpath2|].
    split; [lia|].
    split; [congruence|].
    split; [by transitivity (synced fs1)|].
    intros q Hq. by rewrite Hframe2, Hframe1.
Qed.

(** Whatever the room on the device: when [io.Copy] from such a stream into
    a file returns without an error, the file holds all the stream's bytes
    after what it held. A copy never ends well on a part of the stream. *)
Lemma io_Copy_stream_success (fuel : nat) :
  forall (rest c : list byte) (r : R) (f : File) (fs : FS) (written n : Z) f' r' fs',
    remaining r rest -> at_end f fs c ->
    io_Copy_from fuel written f r fs = Some ((n, None), f', r', fs') ->
    files fs' !! fpath f = Some (c ++ rest) /\ remaining r' [].
Proof.
  induction fuel as [|fuel IH];
    intros rest c r f fs written n f' r' fs' Hrem Hend Hcopy; [discriminate|].
  assert (Hbuf : 0 < copy_buffer_size) by (unfold copy_buffer_size; lia).
  destruct (remaining_Read r rest copy_buffer_size fs Hrem Hbuf) as (r1 & Hread & Hrem1).
  cbn [io_Copy_from] in Hcopy. rewrite Hread in Hcopy.
  destruct rest as [|b rest].
  - rewrite take_nil in Hcopy. cbn [length Nat.ltb Nat.leb] in Hcopy.
    injection Hcopy as <- <- <- <-.
    rewrite app_nil_r, drop_nil in *. split; [apply Hend | exact Hrem1].
  - set (data := take copy_buffer_size (b :: rest)) in *.
    assert (Hlen : 0 < length data).
    { unfold data. rewrite length_take. cbn [length]. lia. }
    assert (Hdata : data ++ drop copy_buffer_size (b :: rest) = b :: rest)
      by apply take_drop.
    replace (0 <? length data)%nat with true in Hcopy
      by (symmetry; apply Nat.ltb_lt; lia).
    destruct (le_lt_dec (length data) (free fs)) as [Hroom|Hfull].
    + destruct (File_Write_at_end f fs c data Hend Hroom) as
        (f1 & fs1 & Hwrite & Hend1 & Hpath1 & _).
      rewrite Hwrite in Hcopy.
      replace (length data <? length data)%nat with false in Hcopy
        by (symmetry; apply Nat.ltb_ge; lia).
      rewrite Nat.eqb_refl in Hcopy.
      apply (IH _ (c ++ data) _ _ _ _ _ _ _ _ Hrem1 Hend1) in Hcopy as [Hfile Hrem2].
      rewrite Hpath1, <- app_assoc, Hdata in Hfile. by split.
    + destruct (File_Write_no_room f fs c data Hend Hfull) as (f1 & fs1 & Hwrite).
      rewrite Hwrite in Hcopy.
      replace (length data <? free fs)%nat with false in Hcopy
        by (symmetry; apply Nat.ltb_ge; lia).
      discriminate Hcopy.
Qed.

End FromStream.

(** The plain byte reader is such a stream. *)
Lemma BytesReader_remaining (r : BytesReader) (rest : list byte) (n : nat) (fs : FS) :
  unread r = rest -> 0 < n ->
  exists r',
    Read r n fs = ((take n rest, match rest with [] => Some EOF | _ => None end), r', fs)
    /\ unread r' = drop n rest.
Proof.
  intros <- Hn. unfold Read, BytesReader_Read.
  destruct (unread r) as [|b bs] eqn:E.
  - exists r. by rewrite take_nil, drop_nil.
  - by eexists.
Qed.

End CopyFacts.

(** ** step09: the upload handler *)
Module UploadFacts.
Import GoIO GoOS Step09 CopyFacts.

Lemma FormFile_upload_request (name : string) (content : list byte) :
  ParseMultipartForm (upload_request name content) (Z.shiftl 10 20)
  = Some {[ "file" := ({| Filename := name; Size := Z.of_nat (length content) |}, content) ]}
  /\ FormFile {[ "file" := ({| Filename := name; Size := Z.of_nat (length content) |}, content) ]}
       "file"
     = Some ({| unread := content |},
             {| Filename := name; Size := Z.of_nat (length content) |}).
Proof.
  split; [reflexivity|]. unfold FormFile. by rewrite lookup_singleton_eq.
Qed.

(** [os.Create] on a path that resolves to a non-directory inside an
    existing directory gives an empty file and a handle at its end. *)
Lemma os_Create_ok (name : string) (fs : FS) (p : list string) :
  resolve fs name = Some p -> is_dir fs p = false -> is_dir fs (removelast p) = true ->
  exists f fs1,
    os_Create name fs = inr (f, fs1)
    /\ fpath f = p /\ at_end f fs1 []
    /\ free fs1 = free fs + length (content_of fs p)
    /\ dirs fs1 = dirs fs
    /\ (p ∉ synced fs1)
    /\ (forall q, q <> p -> files fs1 !! q = files fs !! q).
Proof.
  intros Hres Hnd Hpd. unfold os_Create. rewrite Hres, Hnd, Hpd. cbn [negb].
  eexists _, _. split; [reflexivity|].
  unfold at_end; cbn. rewrite lookup_insert_eq.
  repeat split; try done.
  - intros [_ Hp]%elem_of_difference. apply Hp. by apply elem_of_singleton.
  - intros q Hq. by rewrite lookup_insert_ne.
Qed.

Lemma statusCode_http_Error (msg : string) (code : Z) (w : ResponseWriter) :
  status w = None -> statusCode (http_Error msg code w) = code.
Proof. intros Hw. unfold statusCode, http_Error, write_string, WriteHeader; cbn. by rewrite Hw. Qed.

Lemma statusCode_upload_success (name : string) (n : Z) (w : ResponseWriter) :
  status w = None -> statusCode (upload_success name n w) = StatusOK.
Proof. intros Hw. unfold statusCode, upload_success, write_string; cbn. by rewrite Hw. Qed.

(** The success path of [uploadHandler]: when the destination can be created
    and the device has room, the whole part is stored under the resolved
    path, whatever its length, and success is answered and logged. Nothing
    syncs the file. *)
Lemma uploadHandler_stores (fuel : nat) (name : string) (content : list byte)
    (w : ResponseWriter) (fs : FS) (p : list string) :
  resolve fs ("uploads/" +:+ name) = Some p ->
  is_dir fs p = false -> is_dir fs (removelast p) = true ->
  length content <= free fs + length (content_of fs p) ->
  length content < fuel ->
  exists fs',
    uploadHandler fuel (upload_request name content) w fs
      = Some (upload_success name (wrap64 (Z.of_nat (length content))) w, fs',
              ["파일 업로드: " +:+ upload_line name (wrap64 (Z.of_nat (length content)))])
    /\ files fs' !! p = Some content
    /\ (p ∉ synced fs')
    /\ dirs fs' = dirs fs
    /\ (forall q, q <> p -> files fs' !! q = files fs !! q).
Proof.
  intros Hres Hnd Hpd Hroom Hfuel.
  destruct (os_Create_ok _ _ _ Hres Hnd Hpd)
    as (dst & fs1 & Hcreate & Hpath & Hend & Hfree1 & Hdirs1 & Hsync1 & Hframe1).
  destruct (io_Copy_stream_to_file (fun r rest => unread r = rest)
              (fun r rest n fs0 => BytesReader_remaining r rest n fs0)
              fuel content [] {| unread := content |} dst fs1 0%Z)
    as (dst2 & r2 & fs2 & Hcopy & _ & Hend2 & Hpath2 & _ & Hdirs2 & Hsync2 & Hframe2);
    [done | done | lia | done | done |].
  exists fs2. unfold uploadHandler.
  destruct (FormFile_upload_request name content) as [-> ->].
  cbn [Method upload_request String.eqb Ascii.eqb Bool.eqb negb Filename].
  rewrite Hcreate. unfold io_Copy. rewrite Hcopy.
  rewrite Z.add_0_l. split; [reflexivity|].
  destruct Hend2 as (_ & Hc & _). rewrite Hpath2, Hpath in Hc. rewrite Hpath in Hframe2.
  split; [exact Hc|].
  split; [by intros Hin; apply Hsync1, Hsync2|].
  split; [congruence|].
  intros q Hq. by rewrite Hframe2, Hframe1.
Qed.

(** No branch of [uploadHandler] answers 413. *)
Lemma uploadHandler_never_413 (fuel : nat) (r : Request) (w w' : ResponseWriter)
    (fs fs' : FS) (log : list string) :
  status w = None ->
  uploadHandler fuel r w fs = Some (w', fs', log) ->
  statusCode w' <> StatusRequestEntityTooLarge.
Proof.
  intros Hw. unfold uploadHandler.
  repeat match goal with
         | |- context [match ?x with _ => _ end] => destruct x eqn:?
         end;
    intros [= <- <- <-];
    rewrite ?statusCode_http_Error, ?statusCode_upload_success by done;
    try done.
  unfold statusCode, write_string; cbn. by rewrite Hw.
Qed.

(** C10. An upload whose file name designates a file already stored is
    answered like any other successful upload, with the same success line
    and log line and no error; the stored file then holds the new body and
    nothing of the old content, and the other files are unchanged. *)
Theorem uploadHandler_replaces_existing_file (fuel : nat) (name : string)
    (content old : list byte) (w : ResponseWriter) (fs : FS) (p : list string) :
  status w = None ->
  resolve fs ("uploads/" +:+ name) = Some p ->
  files fs !! p = Some old ->
  is_dir fs p = false -> is_dir fs (removelast p) = true ->
  length content <= free fs + length old ->
  length content < fuel ->
  exists fs',
    uploadHandler fuel (upload_request name content) w fs
      = Some (upload_success name (wrap64 (Z.of_nat (length content))) w, fs',
              ["파일 업로드: " +:+ upload_line name (wrap64 (Z.of_nat (length content)))])
    /\ statusCode (upload_success name (wrap64 (Z.of_nat (length content))) w) = StatusOK
    /\ files fs' !! p = Some content
    /\ (forall q, q <> p -> files fs' !! q = files fs !! q).
Proof.
  intros Hw Hres Hold Hnd Hpd Hroom Hfuel.
  destruct (uploadHandler_stores fuel name content w fs p Hres Hnd Hpd)
    as (fs' & Hup & Hnew & _ & _ & Hframe); [|done|].
  { unfold content_of. rewrite Hold. exact Hroom. }
  exists fs'. split; [exact Hup|].
  split; [by apply statusCode_upload_success|].
  split; [exact Hnew | exact Hframe].
Qed.

Lemma uploadHandler_replaces_existing_file_witness :
  exists fs',
    uploadHandler 5 (upload_request "x.txt" (list_byte_of_string "new!")) fresh
      (server_fs [("x.txt", list_byte_of_string "old")] 5)
      = Some (upload_success "x.txt" (wrap64 4) fresh, fs',
              ["파일 업로드: " +:+ upload_line "x.txt" (wrap64 4)])
    /\ statusCode (upload_success "x.txt" (wrap64 4) fresh) = StatusOK
    /\ files fs' !! ["uploads"; "x.txt"] = Some (list_byte_of_string "new!")
    /\ (forall q, q <> ["uploads"; "x.txt"] ->
         files fs' !! q = files (server_fs [("x.txt", list_byte_of_string "old")] 5) !! q).
Proof.
  apply (uploadHandler_replaces_existing_file 5 "x.txt" (list_byte_of_string "new!")
           (list_byte_of_string "old") fresh
           (server_fs [("x.txt", list_byte_of_string "old")] 5) ["uploads"; "x.txt"]).
  - reflexivity.
  - reflexivity.
  - reflexivity.
  - reflexivity.
  - reflexivity.
  - vm_compute; lia.
  - vm_compute; lia.
Defined.

(** An upload is answered 200 only when the whole part was stored. *)
Lemma uploadHandler_success_is_complete (fuel : nat) (name : string)
    (content : list byte) (w w' : ResponseWriter) (fs fs' : FS) (log : list string)
    (p : list string) :
  status w = None ->
  resolve fs ("uploads/" +:+ name) = Some p ->
  uploadHandler fuel (upload_request name content) w fs = Some (w', fs', log) ->
  statusCode w' = StatusOK ->
  files fs' !! p = Some content.
Proof.
  intros Hw Hres. unfold uploadHandler.
  destruct (FormFile_upload_request name content) as [-> ->].
  cbn [Method upload_request String.eqb Ascii.eqb Bool.eqb negb Filename].
  destruct (os_Create _ fs) as [e|[dst fs1]] eqn:Hcreate.
  { intros [= <- <- <-]. by rewrite statusCode_http_Error. }
  assert (Hdst : fpath dst = p /\ at_end dst fs1 []).
  { unfold os_Create in Hcreate. rewrite Hres in Hcreate.
    destruct (is_dir fs p); [discriminate|].
    destruct (negb _); [discriminate|]. injection Hcreate as <- <-.
    unfold at_end; cbn. by rewrite lookup_insert_eq. }
  destruct Hdst as [Hpath Hend]. unfold io_Copy.
  destruct (io_Copy_from _ _ _ _ _) as [[[[[n err] d2] r2] fs2]|] eqn:Hcopy; [|discriminate].
  destruct err as [e|].
  { intros [= <- <- <-]. by rewrite statusCode_http_Error. }
  intros [= <- <- <-] _.
  apply (io_Copy_stream_success (fun r rest => unread r = rest)
           (fun r rest n0 fs0 => BytesReader_remaining r rest n0 fs0)
           fuel content [] {| unread := content |} dst fs1 0%Z n d2 r2 fs2
           eq_refl Hend) in Hcopy as [Hfile _].
  by rewrite Hpath in Hfile.
Qed.

(** C3, as the code has it. The receiver knows no size ceiling and no 413
    answer. Whatever the length of the file part: the answer is never 413,
    and it is 200 only when the whole part, uncut, is in the destination;
    and when the destination can be created and the device has room, the
    part is stored whole and the answer is 200 with the full byte count. *)
Theorem uploadHandler_no_size_ceiling (fuel : nat) (name : string)
    (content : list byte) (w : ResponseWriter) (fs : FS) (p : list string) :
  status w = None ->
  resolve fs ("uploads/" +:+ name) = Some p ->
  (forall w' fs' log,
     uploadHandler fuel (upload_request name content) w fs = Some (w', fs', log) ->
     statusCode w' <> StatusRequestEntityTooLarge
     /\ (statusCode w' = StatusOK -> files fs' !! p = Some content))
  /\ (is_dir fs p = false -> is_dir fs (removelast p) = true ->
      length content <= free fs + length (content_of fs p) ->
      length content < fuel ->
      exists fs',
        uploadHandler fuel (upload_request name content) w fs
        = Some (upload_success name (wrap64 (Z.of_nat (length content))) w, fs',
                ["파일 업로드: " +:+ upload_line name (wrap64 (Z.of_nat (length content)))])
        /\ statusCode (upload_success name (wrap64 (Z.of_nat (length content))) w)
           = StatusOK
        /\ files fs' !! p = Some content).
Proof.
  intros Hw Hres. split.
  - intros w' fs' log Hup. split.
    + by eapply uploadHandler_never_413.
    + by eapply uploadHandler_success_is_complete.
  - intros Hnd Hpd Hroom Hfuel.
    destruct (uploadHandler_stores fuel name content w fs p Hres Hnd Hpd Hroom Hfuel)
      as (fs' & Hup & Hnew & _).
    exists fs'. split; [exact Hup|].
    split; [by apply statusCode_upload_success | exact Hnew].
Qed.

Lemma uploadHandler_no_size_ceiling_witness :
  (forall w' fs' log,
     uploadHandler 9 (upload_request "big.bin" (list_byte_of_string "12345678")) fresh
       (server_fs [] 8) = Some (w', fs', log) ->
     statusCode w' <> StatusRequestEntityTooLarge
     /\ (statusCode w' = StatusOK ->
         files fs' !! ["uploads"; "big.bin"] = Some (list_byte_of_string "12345678")))
  /\ (is_dir (server_fs [] 8) ["uploads"; "big.bin"] = false ->
      is_dir (server_fs [] 8) (removelast ["uploads"; "big.bin"]) = true ->
      length (list_byte_of_string "12345678")
      <= free (server_fs [] 8) + length (content_of (server_fs [] 8) ["uploads"; "big.bin"]) ->
      length (list_byte_of_string "12345678") < 9 ->
      exists fs',
        uploadHandler 9 (upload_request "big.bin" (list_byte_of_string "12345678")) fresh
          (server_fs [] 8)
        = Some (upload_success "big.bin"
                  (wrap64 (Z.of_nat (length (list_byte_of_string "12345678")))) fresh, fs',
                ["파일 업로드: " +:+
                 upload_line "big.bin"
                   (wrap64 (Z.of_nat (length (list_byte_of_string "12345678"))))])
        /\ statusCode (upload_success "big.bin"
                         (wrap64 (Z.of_nat (length (list_byte_of_string "12345678")))) fresh)
           = StatusOK
        /\ files fs' !! ["uploads"; "big.bin"] = Some (list_byte_of_string "12345678")).
Proof.
  exact (uploadHandler_no_size_ceiling 9 "big.bin" (list_byte_of_string "12345678")
           fresh (server_fs [] 8) ["uploads"; "big.bin"] eq_refl eq_refl).
Defined.

(** C3, as stated, fails for every ceiling: a body one byte longer than the
    ceiling is stored whole and answered 200. *)
Lemma uploadHandler_size_ceiling_refuted :
  ~ (exists ceiling : nat, size_ceiling_enforced ceiling).
Proof.
  intros [ceiling Hclaim].
  set (content := repeat "x"%byte (S ceiling)).
  set (fs := server_fs [] (S ceiling)).
  assert (Hlen : length content = S ceiling) by apply repeat_length.
  destruct (uploadHandler_stores (S (S ceiling)) "big.bin" content fresh fs
              ["uploads"; "big.bin"])
    as (fs' & Hup & _); [reflexivity | reflexivity | reflexivity | | lia |].
  { rewrite Hlen. cbn [fs server_fs free]. lia. }
  assert (Hover : ceiling < length content) by (rewrite Hlen; lia).
  destruct (Hclaim (S (S ceiling)) "big.bin" content fresh fs _ _ _
              ["uploads"; "big.bin"] Hover eq_refl eq_refl Hup) as [H413 _].
  rewrite statusCode_upload_success in H413 by reflexivity. discriminate H413.
Qed.

(** The handler has no guard of its own: on a form whose file name kept its
    directories, as the parser of Go before 1.17 handed it over, the part
    named [../evil.txt] is written to [evil.txt] in the working directory,
    outside [uploads], and the upload is answered 200. *)
Example uploadHandler_has_no_guard_of_its_own :
  let fs := server_fs [] 100 in
  resolve fs ("uploads/" +:+ "../evil.txt") = Some ["evil.txt"]
  /\ under_uploads ["evil.txt"] = false
  /\ files fs !! ["evil.txt"] = None
  /\ match uploadHandler 2 (upload_request "../evil.txt" (list_byte_of_string "abc"))
            fresh fs with
     | Some (w', fs', _) =>
         statusCode w' = StatusOK
         /\ files fs' !! ["evil.txt"] = Some (list_byte_of_string "abc")
     | None => False
     end.
Proof. vm_compute. repeat split. Qed.

(** C4 at the failing input: the device fills up after five bytes; the
    upload is answered 500 and the five bytes stay in the destination. A
    successful upload is reported without the file being synced. *)
Theorem uploadHandler_leaves_partial_file :
  let fs := server_fs [] 5 in
  match uploadHandler 3 (upload_request "big.bin" (list_byte_of_string "abcdefghijkl"))
          fresh fs with
  | Some (w', fs', _) =>
      statusCode w' = StatusInternalServerError
      /\ files fs' !! ["uploads"; "big.bin"] = Some (list_byte_of_string "abcde")
  | None => False
  end
  /\ match uploadHandler 3 (upload_request "ok.bin" (list_byte_of_string "abc"))
            fresh fs with
     | Some (w', fs', _) =>
         statusCode w' = StatusOK
         /\ bool_decide (["uploads"; "ok.bin"] ∈ synced fs') = false
     | None => False
     end.
Proof. vm_compute. repeat split. Qed.

End UploadFacts.

(** ** step09: the download handlers *)
Module DownloadFacts.
Import GoIO GoOS Step09.

(** Copying into the response writes body bytes only; the header map stays. *)
Lemma io_Copy_keeps_Header {R : Type} `{!Reader FS R} (fuel : nat) :
  forall (written : Z) (w : ResponseWriter) (r : R) (fs : FS) res w' r' fs',
    io_Copy_from fuel written w r fs = Some (res, w', r', fs') ->
    Header w' = Header w.
Proof.
  induction fuel as [|fuel IH]; intros written w r fs res w' r' fs' Hcopy; [discriminate|].
  cbn [io_Copy_from] in Hcopy.
  destruct (Read r copy_buffer_size fs) as [[[data er] r1] fs1].
  destruct (0 <? length data)%nat.
  - unfold Write, ResponseWriter_Write in Hcopy.
    rewrite Nat.ltb_irrefl, Nat.eqb_refl in Hcopy.
    destruct er as [[]|]; try (injection Hcopy as <- <- <- <-; reflexivity).
    apply IH in Hcopy. exact Hcopy.
  - destruct er as [[]|]; try (injection Hcopy as <- <- <- <-; reflexivity).
    apply IH in Hcopy. exact Hcopy.
Qed.

(** Whenever [downloadHandler] finds the file, the [Content-Disposition]
    header it sends carries the [file] query parameter as the caller wrote
    it, not its base name. *)
Lemma downloadHandler_disposition (fuel : nat) (r : Request) (w w' : ResponseWriter)
    (fs fs' : FS) (log : list string) (file : File) :
  Query_Get r "file" <> "" ->
  os_Open ("./uploads/" +:+ Base (Query_Get r "file")) fs = inr file ->
  downloadHandler fuel r w fs = Some (w', fs', log) ->
  Header w' !! "Content-Disposition"
  = Some ("attachment; filename=" +:+ Query_Get r "file").
Proof.
  intros Hname Hopen. unfold downloadHandler.
  destruct (String.eqb_spec (Query_Get r "file") "") as [|_]; [done|].
  rewrite Hopen. unfold io_Copy.
  destruct (io_Copy_from _ _ _ _ _) as [[[[[written err] w4] file'] fs1]|] eqn:Hcopy;
    [|discriminate].
  apply io_Copy_keeps_Header in Hcopy.
  assert (Hdisp : Header w4 !! "Content-Disposition"
                  = Some ("attachment; filename=" +:+ Query_Get r "file")).
  { rewrite Hcopy. unfold Header_Set; cbn.
    rewrite lookup_insert_ne by done. rewrite lookup_insert_ne by done.
    apply lookup_insert_eq. }
  destruct err; intros [= <- <- <-]; exact Hdisp.
Qed.

Section RangeDownloadFacts.

Variable ServeContent : ResponseWriter -> Request -> string -> File -> FS -> ResponseWriter * FS.

(** [http.ServeContent] sets headers of its own and leaves
    [Content-Disposition] as it found it. *)
Hypothesis ServeContent_keeps_disposition : forall w r name file fs,
  Header (fst (ServeContent w r name file fs)) !! "Content-Disposition"
  = Header w !! "Content-Disposition".

(** [rangeDownloadHandler] sends the base name of the parameter. *)
Lemma rangeDownloadHandler_disposition (r : Request) (w : ResponseWriter) (fs : FS)
    (file : File) :
  Query_Get r "file" <> "" ->
  os_Open ("./uploads/" +:+ Base (Query_Get r "file")) fs = inr file ->
  Header (rangeDownloadHandler ServeContent r w fs).1.1 !! "Content-Disposition"
  = Some ("attachment; filename=" +:+ Base (Query_Get r "file")).
Proof.
  intros Hname Hopen. unfold rangeDownloadHandler.
  destruct (String.eqb_spec (Query_Get r "file") "") as [|_]; [done|].
  rewrite Hopen.
  pose proof (ServeContent_keeps_disposition
                (Header_Set "Content-Disposition"
                   ("attachment; filename=" +:+ Base (Query_Get r "file")) w)
                r (Base (Query_Get r "file")) file fs) as Hkeep.
  destruct (ServeContent _ _ _ _ _) as [w2 fs1]. cbn in *.
  rewrite Hkeep. apply lookup_insert_eq.
Qed.

End RangeDownloadFacts.

(** C2 at the failing input: [?file=sub/x.txt] and [?file=x.txt] have the
    same base name and are served the same file, but [downloadHandler] shows
    the first caller [sub/x.txt], directory and all. *)
Theorem downloadHandler_exposes_caller_path :
  let fs := server_fs [("x.txt", list_byte_of_string "old")] 0 in
  Base "sub/x.txt" = Base "x.txt"
  /\ match downloadHandler 3 (download_request "sub/x.txt") fresh fs,
           downloadHandler 3 (download_request "x.txt") fresh fs with
     | Some (w1, _, _), Some (w2, _, _) =>
         Header w1 !! "Content-Disposition" = Some "attachment; filename=sub/x.txt"
         /\ Header w2 !! "Content-Disposition" = Some "attachment; filename=x.txt"
         /\ body w1 = body w2
     | _, _ => False
     end.
Proof. vm_compute. repeat split. Qed.

End DownloadFacts.

(** ** The chunked loop *)
Module FileOpsFacts.
Import GoIO GoOS FileOps CopyFacts.

Lemma chunkSize_pos : 0 < chunkSize.
Proof. unfold chunkSize. lia. Qed.

(** A read of at most a kilobyte fits the buffer. *)
Lemma small_fits (data : list byte) : length data <= 1024 -> length data <= chunkSize.
Proof. unfold chunkSize. lia. Qed.

End FileOpsFacts.

(** ** step11: the progress reader and the throttled reader *)
Module Step11Facts.
Import GoIO GoTime Step11 CopyFacts.

(** One call: the callback, when there is one, runs exactly once, on the
    world the inner read left, with the new cumulative count and the total;
    the inner read's result, error included, is returned as it came. *)
Lemma ProgressReader_Read_once {W R : Type} `{!Reader W R}
    (pr : ProgressReader.t W R) (f : ProgressCallback W) (n : nat) (w : W) :
  ProgressReader.callback pr = Some f ->
  forall data err r1 w1,
    Read (ProgressReader.reader pr) n w = ((data, err), r1, w1) ->
    ProgressReader.Read_ pr n w
    = ((data, err),
       {| ProgressReader.reader := r1;
          ProgressReader.total := ProgressReader.total pr;
          ProgressReader.current :=
            wrap64 (ProgressReader.current pr + Z.of_nat (length data));
          ProgressReader.callback := Some f |},
       f (wrap64 (ProgressReader.current pr + Z.of_nat (length data)))
         (ProgressReader.total pr) w1).
Proof.
  intros Hcb data err r1 w1 Hread.
  unfold ProgressReader.Read_. by rewrite Hread, Hcb.
Qed.

(** Without a callback nothing is reported. *)
Lemma ProgressReader_Read_nil {W R : Type} `{!Reader W R}
    (pr : ProgressReader.t W R) (n : nat) (w : W) :
  ProgressReader.callback pr = None ->
  (ProgressReader.Read_ pr n w).2 = (Read (ProgressReader.reader pr) n w).2.
Proof.
  intros Hcb. unfold ProgressReader.Read_.
  destruct (Read _ n w) as [[[data err] r1] w1]. by rewrite Hcb.
Qed.

(** C5, as the code has it. Over any number of calls, whatever they return
    (data, end of data or a fault), a progress reader with a callback
    reports once per call and in order: the lines printed are the
    cumulative counts after each call, each with the total. *)
Theorem ProgressReader_reports_every_call {R : Type} `{!Reader World R} (k n : nat) :
  forall (pr : ProgressReader.t World R) (w : World),
    (forall r m w0, progress (Read r m w0).2 = progress w0) ->
    ProgressReader.callback pr = Some progressCallback ->
    let '(results, pr', w') := read_times k n pr w in
    length results = k
    /\ progress w'
       = progress w
         ++ map (fun c => (c, ProgressReader.total pr))
                (running_totals (ProgressReader.current pr) results).
Proof.
  induction k as [|k IH]; intros pr w Hsilent Hcb.
  - cbn. by rewrite app_nil_r.
  - cbn [read_times].
    destruct (Read (ProgressReader.reader pr) n w) as [[[data err] r1] w1] eqn:Hread.
    rewrite (ProgressReader_Read_once pr progressCallback n w Hcb data err r1 w1 Hread).
    set (pr1 := {| ProgressReader.reader := r1 |}).
    set (w2 := progressCallback _ _ w1).
    specialize (IH pr1 w2 Hsilent eq_refl).
    destruct (read_times k n pr1 w2) as [[rs pr2] w3].
    destruct IH as [Hlen Hlog]. split; [cbn; by rewrite Hlen|].
    rewrite Hlog. unfold w2, pr1, progressCallback. cbn.
    pose proof (Hsilent (ProgressReader.reader pr) n w) as Hw1.
    rewrite Hread in Hw1. cbn in Hw1. rewrite Hw1.
    by rewrite <- app_assoc.
Qed.

(** A scripted source leaves the world alone. *)
Lemma ScriptReader_silent (r : ScriptReader) (m : nat) (w0 : World) :
  progress (Read r m w0).2 = progress w0.
Proof.
  unfold Read, ScriptReader_Read.
  destruct (script r) as [|[d e] s]; [reflexivity|].
  by destruct (m <? length d)%nat.
Qed.

Lemma ProgressReader_reports_every_call_witness :
  let pr := ProgressReader.New {| script := failing_source |} 10 (Some progressCallback) in
  let w := {| clock := 0; progress := [] |} in
  let '(results, pr', w') := read_times 3 8 pr w in
  length results = 3
  /\ progress w'
     = progress w
       ++ map (fun c => (c, ProgressReader.total pr))
              (running_totals (ProgressReader.current pr) results).
Proof.
  apply (ProgressReader_reports_every_call 3 8
           (ProgressReader.New {| script := failing_source |} 10 (Some progressCallback))
           {| clock := 0; progress := [] |}).
  - exact ScriptReader_silent.
  - reflexivity.
Defined.

(** C5, as stated, fails: the inner read returns a fault and the callback
    is invoked all the same. *)
Lemma ProgressReader_reports_faults : ~ reports_only_successes.
Proof.
  intros Hclaim.
  specialize (Hclaim [([], Some (ErrOther "read failed"))] 8 10%Z 0%Z
                {| clock := 0; progress := [] |}).
  vm_compute in Hclaim. discriminate Hclaim.
Qed.

(** The progress reader of step 9 behaves as the one of step 11. *)
Lemma Step09_ProgressReader_Read {W R : Type} `{!Reader W R}
    (pr : Step09.ProgressReader W R) (n : nat) (w : W) :
  let '(res, pr', w') := Step09.ProgressReader_Read pr n w in
  ProgressReader.Read_ (Step09.as_step11 pr) n w = (res, Step09.as_step11 pr', w').
Proof.
  unfold Step09.ProgressReader_Read, ProgressReader.Read_, Step09.as_step11; cbn.
  by destruct (Read (Step09.reader pr) n w) as [[[data err] r1] w1].
Qed.

(** What the limiter grants a read is the smaller of the buffer and the
    allowance. *)
Lemma ThrottledReader_granted {W R : Type} `{!Clock W} (tr : ThrottledReader.t R)
    (n : nat) (w : W) :
  let allowed := ThrottledReader.allowedBytes (ThrottledReader.bytesPerSec tr)
                   (Since (ThrottledReader.lastRead tr) w) in
  (0 <= allowed)%Z ->
  ThrottledReader.granted tr n w = Ret (Nat.min n (Z.to_nat allowed)).
Proof.
  intros allowed Hpos. unfold ThrottledReader.granted, ThrottledReader.clip.
  fold allowed.
  destruct (Z.ltb_spec allowed (Z.of_nat n)) as [Hlt|Hge].
  - destruct (Z.ltb_spec allowed 0); [lia|]. f_equal. lia.
  - f_equal. lia.
Qed.

(** The allowance grows with the idle time and is not capped at one second's
    worth. *)
Example allowedBytes_after_3s : ThrottledReader.allowedBytes 10 (3 * Second) = 30%Z.
Proof. reflexivity. Qed.

(** C6 at the failing input: at 10 bytes a second, after three idle
    seconds, one read with a buffer of 100 asks the inner reader for 30
    bytes and returns 30, three times the capacity of one second. *)
Theorem ThrottledReader_burst_exceeds_capacity :
  let tr := {| ThrottledReader.reader := {| unread := repeat "x"%byte 40 |};
               ThrottledReader.bytesPerSec := 10;
               ThrottledReader.lastRead := 0 |} in
  let w := {| clock := 3 * Second; progress := [] |} in
  ThrottledReader.granted tr 100 w = Ret 30
  /\ match ThrottledReader.Read_ tr 100 w with
     | Ret ((data, err), _, _) =>
         length data = 30 /\ err = None
         /\ (ThrottledReader.bytesPerSec tr < Z.of_nat (length data))%Z
     | Panic _ => False
     end.
Proof. vm_compute. repeat split. Qed.

(** The reader of the README caps its bucket: whatever the idle time, the
    refilled bucket is at most [bytesPerSec]. *)
Lemma Documented_refill_capped {R : Type} (tr : DocumentedThrottledReader.t R) (now : Z) :
  (DocumentedThrottledReader.refill tr now <= DocumentedThrottledReader.bytesPerSec tr)%Z.
Proof.
  unfold DocumentedThrottledReader.refill.
  destruct (Z.ltb_spec (DocumentedThrottledReader.bytesPerSec tr)
              (wrap64 (DocumentedThrottledReader.bucket tr
                       + ThrottledReader.allowedBytes
                           (DocumentedThrottledReader.bytesPerSec tr)
                           (Z.max (- 2 ^ 63)
                              (Z.min (2 ^ 63 - 1)
                                 (now - DocumentedThrottledReader.lastTime tr))))));
    lia.
Qed.

(** So one read of the README's reader is granted at most one second's
    worth, and leaves a bucket between 0 and the capacity, when the inner
    reader returns no more than it is asked for. *)
Lemma Documented_Read_within_capacity {W R : Type} `{!Clock W, !Reader W R}
    (tr : DocumentedThrottledReader.t R) (n : nat) (w : W) :
  (forall r m w0, length (Read r m w0).1.1.1 <= m) ->
  (DocumentedThrottledReader.bytesPerSec tr < 2 ^ 63)%Z ->
  let '((data, _), tr', _) := DocumentedThrottledReader.Read_ tr n w in
  (Z.of_nat (length data) <= Z.max 0 (DocumentedThrottledReader.bytesPerSec tr))%Z
  /\ (DocumentedThrottledReader.bucket tr' <= DocumentedThrottledReader.bytesPerSec tr')%Z
  /\ (data <> [] -> 0 <= DocumentedThrottledReader.bucket tr')%Z.
Proof.
  intros Hcontract Hbps. unfold DocumentedThrottledReader.Read_.
  pose proof (Documented_refill_capped tr (Now w)) as Hcap.
  set (b := DocumentedThrottledReader.refill tr (Now w)) in *.
  destruct (Z.leb_spec b 0) as [Hb|Hb].
  - cbn. repeat split; [lia | lia | done].
  - set (readSize := if (b <? Z.of_nat n)%Z then Z.to_nat b else n).
    assert (Hsize : (Z.of_nat readSize <= b)%Z).
    { unfold readSize. destruct (Z.ltb_spec b (Z.of_nat n)); lia. }
    pose proof (Hcontract (DocumentedThrottledReader.reader tr) readSize w) as Hlen.
    destruct (Read (DocumentedThrottledReader.reader tr) readSize w)
      as [[[data err] r1] w1].
    cbn in *.
    rewrite wrap64_small_nonneg by lia.
    repeat split; lia.
Qed.

End Step11Facts.

(** ** step05: the tee *)
Module TeeFacts.
Import GoIO GoOS Step05 CopyFacts UploadFacts.

Lemma tee_remaining_Read (data : list byte) (t : TeeReader BytesReader Hash)
    (rest : list byte) (n : nat) (fs : FS) :
  tee_remaining data t rest -> 0 < n ->
  exists t',
    Read t n fs = ((take n rest, match rest with [] => Some EOF | _ => None end), t', fs)
    /\ tee_remaining data t' (drop n rest).
Proof.
  intros [Hrest Habs] Hn.
  destruct (BytesReader_remaining (tee_r t) rest n fs Hrest Hn) as (r1 & Hread & Hrest1).
  unfold Read at 1, TeeReader_Read. rewrite Hread.
  destruct rest as [|b rest].
  - rewrite take_nil. cbn [length Nat.ltb Nat.leb].
    eexists. split; [reflexivity|]. rewrite drop_nil in *. by split.
  - assert (Hpos : (0 <? length (take n (b :: rest)))%nat = true).
    { apply Nat.ltb_lt. rewrite length_take. cbn [length]. lia. }
    rewrite Hpos. unfold Write, Hash_Write.
    eexists. split; [reflexivity|]. split; [exact Hrest1|]. cbn [tee_w absorbed].
    by rewrite <- app_assoc, take_drop.
Qed.

(** C9. Driven to its end into a file that can be created and has room,
    the tee leaves the same bytes in the file and in the hash, namely the
    input; the checksum printed is the digest of the input hashed directly,
    and the count printed is the input's length. *)
Theorem teeReaderPattern_mirror_equals_primary (md5 : list byte -> list byte)
    (fuel : nat) (data : list byte) (fs : FS) :
  is_dir fs ["tee_reader.txt"] = false ->
  length data <= free fs + length (content_of fs ["tee_reader.txt"]) ->
  length data < fuel ->
  exists report fs',
    teeReaderPattern md5 fuel data fs = Some (report, fs')
    /\ files fs' !! ["tee_reader.txt"] = Some data
    /\ mirrored report = data
    /\ checksum report = hash_directly md5 data
    /\ written report = wrap64 (Z.of_nat (length data)).
Proof.
  intros Hnd Hroom Hfuel.
  destruct (os_Create_ok "tee_reader.txt" fs ["tee_reader.txt"] eq_refl Hnd eq_refl)
    as (file & fs1 & Hcreate & Hpath & Hend & Hfree1 & _).
  destruct (io_Copy_stream_to_file (tee_remaining data) (tee_remaining_Read data)
              fuel data [] {| tee_r := {| unread := data |}; tee_w := md5_New |}
              file fs1 0%Z)
    as (file2 & t2 & fs2 & Hcopy & [Hunread Habs] & Hend2 & Hpath2 & _);
    [by split | done | lia | done | done |].
  unfold teeReaderPattern. rewrite Hcreate. unfold io_Copy. rewrite Hcopy.
  rewrite app_nil_r in Habs. destruct Hend2 as (_ & Hc & _).
  rewrite Hpath2, Hpath in Hc.
  eexists _, fs2. split; [reflexivity|]. cbn.
  repeat split; try done.
  unfold hash_directly, Hash_Sum. by rewrite Habs.
Qed.

Lemma teeReaderPattern_mirror_equals_primary_witness :
  exists report fs',
    teeReaderPattern (fun bs => rev bs) 4 (list_byte_of_string "tee") (Step09.server_fs [] 3)
    = Some (report, fs')
    /\ files fs' !! ["tee_reader.txt"] = Some (list_byte_of_string "tee")
    /\ mirrored report = list_byte_of_string "tee"
    /\ checksum report = hash_directly (fun bs => rev bs) (list_byte_of_string "tee")
    /\ written report = wrap64 (Z.of_nat (length (list_byte_of_string "tee"))).
Proof.
  apply (teeReaderPattern_mirror_equals_primary (fun bs => rev bs) 4
           (list_byte_of_string "tee") (Step09.server_fs [] 3)).
  - reflexivity.
  - vm_compute; lia.
  - vm_compute; lia.
Defined.

End TeeFacts.

(** ** step05: the pipe *)
Module PipeFacts.
Import GoIO Step05 CopyFacts.

Lemma pipe_inv_start (program : list pipe_op) : pipe_inv program (start program).
Proof. unfold pipe_inv, start; cbn. repeat split. Qed.

(** Every move of either goroutine keeps the invariant. *)
Lemma pipe_inv_step (program : list pipe_op) (s s' : system) :
  pipe_inv program s -> step s s' -> pipe_inv program s'.
Proof.
  intros Hinv Hstep. unfold pipe_inv in *.
  destruct Hstep as [b rest p c Hch Hdone | b rest p c Hch Hdone | err rest p c Hch
                    | ops b p received written Hch Hdone
                    | ops p received written Hdone]; cbn in *.
  - (* the producer offers a write *)
    destruct c as [received written|]; [|exact Hinv].
    rewrite Hdone in Hinv. unfold in_flight in *. rewrite Hch in Hinv. cbn in *.
    destruct Hinv as (Hw & Herr & Hbytes & Hclose). by repeat split.
  - (* a write on a closed pipe *)
    destruct c as [received written|]; [|exact Hinv].
    by rewrite Hdone in *.
  - (* the producer closes *)
    destruct c as [received written|]; [|exact Hinv].
    destruct Hinv as [Hw Hinv]. split; [exact Hw|].
    destruct (done p).
    + destruct Hinv as (_ & Hrec & [e He] & Hclose).
      rewrite He in *. by repeat split.
    + destruct Hinv as (Herr & Hbytes & Hclose).
      unfold in_flight in Hbytes. rewrite Hch in Hbytes. cbn in Hbytes.
      rewrite !app_nil_r in Hbytes. rewrite Herr.
      by repeat split.
  - (* the consumer takes bytes *)
    rewrite Hdone in Hinv. unfold in_flight in *. rewrite Hch in Hinv. cbn in Hinv.
    destruct Hinv as (Hw & Herr & Hbytes & Hclose).
    split.
    { rewrite Hw, wrap64_idem, length_app. f_equal. lia. }
    split; [exact Herr|]. split; [|exact Hclose].
    rewrite <- Hbytes, <- !app_assoc. f_equal.
    rewrite app_assoc. f_equal.
    destruct (Nat.leb_spec (length b) copy_buffer_size) as [Hle|Hgt]; cbn [default].
    + rewrite app_nil_r. by apply take_ge.
    + apply take_drop.
  - (* the consumer finds the pipe closed *)
    rewrite Hdone in Hinv.
    destruct Hinv as (Hw & _ & Hrec & [e He] & Hclose).
    split; [exact Hrec|]. split; [exact Hw|].
    exists e. split; [congruence|].
    unfold readCloseError. by rewrite He.
Qed.

Lemma pipe_inv_reachable (program : list pipe_op) (s : system) :
  rtc step (start program) s -> pipe_inv program s.
Proof.
  intros Hrun. apply rtc_ind_r with (x := start program) (P := pipe_inv program) in Hrun.
  - exact Hrun.
  - apply pipe_inv_start.
  - intros y z _ Hstep Hy. by eapply pipe_inv_step.
Qed.

(** Every move uses up some of the weight: no run goes on for ever. *)
Lemma step_weight (s s' : system) : step s s' -> weight s' < weight s.
Proof.
  intros Hstep. unfold weight.
  destruct Hstep as [b rest p c Hch Hdone | b rest p c Hch Hdone | err rest p c Hch
                    | ops b p received written Hch Hdone
                    | ops p received written Hdone]; cbn; rewrite ?Hch; cbn; try lia.
  destruct (Nat.leb_spec (length b) copy_buffer_size) as [Hle|Hgt]; [lia|].
  rewrite length_drop. unfold copy_buffer_size in *. lia.
Qed.

(** The scheduler only makes moves of the step relation. *)
Lemma schedule_step (s s' : system) : schedule s = Some s' -> step s s'.
Proof.
  destruct s as [ops p c]. unfold schedule; cbn.
  destruct c as [received written|]; [|discriminate].
  destruct (done p) eqn:Hdone.
  - intros [= <-]. by apply step_read_closed.
  - destruct (wrCh p) as [b|] eqn:Hch.
    + intros [= <-]. by apply step_read.
    + destruct ops as [|[b|err] rest]; [discriminate| |]; intros [= <-].
      * by apply step_offer.
      * by apply step_close.
Qed.

(** While the consumer is in its loop and the program has a close to come,
    some goroutine can move: there is no deadlock. *)
Lemma schedule_progress (program : list pipe_op) (s : system) received written :
  pipe_inv program s -> is_Some (close_error program) ->
  reading s = Copying received written ->
  is_Some (schedule s).
Proof.
  intros Hinv Hclose Hread. unfold pipe_inv in Hinv. unfold schedule.
  rewrite Hread in *.
  destruct (done (shared s)); [by eexists|].
  destruct (wrCh (shared s)); [by eexists|].
  destruct Hinv as (_ & _ & _ & Hpending).
  destruct (pending s) as [|[b|err] rest]; [|by eexists..].
  cbn in Hpending. rewrite <- Hpending in Hclose. by destruct Hclose.
Qed.

Lemma run_steps (fuel : nat) : forall s, rtc step s (run fuel s).
Proof.
  induction fuel as [|fuel IH]; intros s; cbn; [reflexivity|].
  destruct (schedule s) as [s'|] eqn:Hs; [|reflexivity].
  eapply rtc_l; [by apply schedule_step | apply IH].
Qed.

(** With fuel for its weight, the scheduled run ends with the consumer
    returned. *)
Lemma run_returns (program : list pipe_op) (fuel : nat) :
  forall s, pipe_inv program s -> is_Some (close_error program) ->
    weight s <= fuel ->
    exists received written err, reading (run fuel s) = Returned received written err.
Proof.
  induction fuel as [|fuel IH]; intros s Hinv Hclose Hfuel.
  - destruct (reading s) as [received written|received written err] eqn:Hread.
    + unfold weight in Hfuel. rewrite Hread in Hfuel. lia.
    + cbn. rewrite Hread. by eexists _, _, _.
  - destruct (reading s) as [received written|received written err] eqn:Hread.
    + destruct (schedule_progress program s received written Hinv Hclose Hread)
        as [s' Hs].
      cbn. rewrite Hs.
      apply schedule_step in Hs as Hstep.
      apply IH; [by eapply pipe_inv_step | done |].
      apply step_weight in Hstep. lia.
    + cbn. unfold schedule. rewrite Hread. by eexists _, _, _.
Qed.

Lemma copy_result_EOF : copy_result EOF = None.
Proof. reflexivity. Qed.

Lemma copy_result_fault (e : error) : e <> EOF -> copy_result e = Some e.
Proof. intros He. unfold copy_result. by rewrite bool_decide_eq_false_2. Qed.

(** C8. Let the producer's program close the pipe, first with [e] ([EOF]
    for a plain close, a fault for a close with an error). Then however the
    two goroutines interleave, when the consumer's copy returns it has
    received exactly the bytes written before that close, and it returns nil
    for [EOF] and the fault [e] otherwise, never nil for a fault; and the
    copy does return. *)
Theorem pipe_consumer_sees_writes_then_close (program : list pipe_op) (e : error) :
  close_error program = Some e ->
  (forall s received written err,
     rtc step (start program) s -> reading s = Returned received written err ->
     received = bytes_written program
     /\ written = wrap64 (Z.of_nat (length (bytes_written program)))
     /\ err = copy_result e)
  /\ (exists written,
        reading (run (weight (start program)) (start program))
        = Returned (bytes_written program) written (copy_result e))
  /\ (e = EOF -> copy_result e = None)
  /\ (e <> EOF -> copy_result e = Some e).
Proof.
  intros Hclose.
  assert (Hsafe : forall s received written err,
            rtc step (start program) s -> reading s = Returned received written err ->
            received = bytes_written program
            /\ written = wrap64 (Z.of_nat (length (bytes_written program)))
            /\ err = copy_result e).
  { intros s received written err Hrun Hread.
    apply pipe_inv_reachable in Hrun. unfold pipe_inv in Hrun. rewrite Hread in Hrun.
    destruct Hrun as (Hrec & Hw & e' & He' & Herr).
    rewrite Hclose in He'. injection He' as <-. subst received. by repeat split. }
  split; [exact Hsafe|]. split; [|split].
  - destruct (run_returns program (weight (start program)) (start program))
      as (received & written & err & Hret);
      [apply pipe_inv_start | by rewrite Hclose | lia |].
    destruct (Hsafe _ _ _ _ (run_steps _ _) Hret) as (-> & _ & ->).
    by exists written.
  - intros ->. apply copy_result_EOF.
  - apply copy_result_fault.
Qed.

Lemma pipe_consumer_sees_writes_then_close_witness :
  (forall s received written err,
     rtc step (start faulting_program) s -> reading s = Returned received written err ->
     received = bytes_written faulting_program
     /\ written = wrap64 (Z.of_nat (length (bytes_written faulting_program)))
     /\ err = copy_result (ErrOther "disk"))
  /\ (exists written,
        reading (run (weight (start faulting_program)) (start faulting_program))
        = Returned (bytes_written faulting_program) written (copy_result (ErrOther "disk")))
  /\ (ErrOther "disk" = EOF -> copy_result (ErrOther "disk") = None)
  /\ (ErrOther "disk" <> EOF -> copy_result (ErrOther "disk") = Some (ErrOther "disk")).
Proof.
  exact (pipe_consumer_sees_writes_then_close faulting_program (ErrOther "disk") eq_refl).
Defined.

(** The scheduled run of that program: three bytes, then the fault. *)
Example run_faulting_program :
  reading (run 20 (start faulting_program))
  = Returned (list_byte_of_string "abc") 3 (Some (ErrOther "disk")).
Proof. vm_compute. reflexivity. Qed.

(** [io.Copy] into the write end only adds writes to the program. *)
Lemma io_Copy_PipeWriter {W R : Type} `{!Reader W R} (fuel : nat) :
  forall (written : Z) (pw : PipeWriter) (r : R) (w : W) res pw' r' w',
    io_Copy_from fuel written pw r w = Some (res, pw', r', w') ->
    exists chunks, ops pw' = ops pw ++ map PWrite chunks.
Proof.
  induction fuel as [|fuel IH]; intros written pw r w res pw' r' w' Hcopy; [discriminate|].
  cbn [io_Copy_from] in Hcopy.
  destruct (Read r copy_buffer_size w) as [[[data er] r1] w1].
  destruct (0 <? length data)%nat.
  - unfold Write, PipeWriter_Write in Hcopy.
    rewrite Nat.ltb_irrefl, Nat.eqb_refl in Hcopy.
    destruct er as [[]|];
      try (injection Hcopy as <- <- <- <-; exists [data]; reflexivity).
    apply IH in Hcopy as [chunks Hops]. exists (data :: chunks).
    rewrite Hops. cbn. by rewrite <- app_assoc.
  - destruct er as [[]|];
      try (injection Hcopy as <- <- <- <-; exists []; cbn; by rewrite app_nil_r).
    by apply IH in Hcopy.
Qed.

Lemma bytes_written_writes (chunks : list (list byte)) (err : option error)
    (rest : list pipe_op) :
  bytes_written (map PWrite chunks ++ PClose err :: rest) = concat chunks
  /\ close_error (map PWrite chunks ++ PClose err :: rest) = Some (default EOF err).
Proof.
  induction chunks as [|c chunks [IHb IHc]]; cbn; [done|].
  by rewrite IHb, IHc.
Qed.

(** The goroutine of [ioPipePattern] always closes its end: its program is
    a run of writes, then the close with the error if there was one, then
    the deferred plain close. *)
Lemma producer_closes {W R : Type} `{!Reader W R} (fuel : nat) (opened : error + R)
    (w : W) (program : list pipe_op) :
  producer fuel opened w = Some program ->
  exists chunks first_close,
    bytes_written program = concat chunks
    /\ close_error program = Some (default EOF first_close).
Proof.
  unfold producer. destruct opened as [err|file].
  - intros [= <-]. by exists [], (Some err).
  - unfold io_Copy.
    destruct (io_Copy_from _ _ _ _ _) as [[[[[n err] pw] r'] w']|] eqn:Hcopy; [|discriminate].
    apply io_Copy_PipeWriter in Hcopy as [chunks Hops]. cbn in Hops.
    destruct err as [e|]; intros [= <-]; rewrite Hops.
    + exists chunks, (Some e). apply bytes_written_writes.
    + exists chunks, None. apply bytes_written_writes.
Qed.

End PipeFacts.

(** ** step08: the safe copy *)
Module Step08Facts.
Import GoIO GoOS Step08 CopyFacts.

(** Reads and writes through file handles leave the directories alone and
    keep the handles' paths. *)
Lemma File_Write_frame (f : File) (p : list byte) (fs : FS) :
  let '(_, f', fs') := Write f p fs in
  dirs fs' = dirs fs /\ fpath f' = fpath f.
Proof. unfold Write, File_Write. by destruct (is_directory f). Qed.

Lemma File_Read_frame (f : File) (n : nat) (fs : FS) :
  (Read f n fs).2 = fs.
Proof.
  unfold Read, File_Read. destruct (n =? 0)%nat; [done|].
  destruct (is_directory f); [done|]. by destruct (take n _).
Qed.

Lemma io_Copy_files_frame (fuel : nat) :
  forall (written : Z) (dst src : File) (fs : FS) res dst' src' fs',
    io_Copy_from fuel written dst src fs = Some (res, dst', src', fs') ->
    dirs fs' = dirs fs /\ fpath dst' = fpath dst.
Proof.
  induction fuel as [|fuel IH]; intros written dst src fs res dst' src' fs' Hcopy;
    [discriminate|].
  cbn [io_Copy_from] in Hcopy.
  pose proof (File_Read_frame src copy_buffer_size fs) as Hread.
  destruct (Read src copy_buffer_size fs) as [[[data er] src1] fs1]. cbn in Hread. subst fs1.
  destruct (0 <? length data)%nat.
  - pose proof (File_Write_frame dst data fs) as Hwrite.
    destruct (Write dst data fs) as [[[nw ew] dst1] fs1]. destruct Hwrite as [Hd Hp].
    destruct (length data <? nw)%nat.
    + injection Hcopy as <- <- <- <-. by split.
    + destruct ew as [e|]; [injection Hcopy as <- <- <- <-; by split|].
      destruct (length data =? nw)%nat; [|injection Hcopy as <- <- <- <-; by split].
      destruct er as [[]|]; try (injection Hcopy as <- <- <- <-; by split).
      apply IH in Hcopy as [Hd2 Hp2]. split; congruence.
  - destruct er as [[]|]; try (injection Hcopy as <- <- <- <-; by split).
    by apply IH in Hcopy.
Qed.

(** Removing a path leaves no file there. *)
Lemma os_Remove_gone (name : string) (fs : FS) (p : list string) :
  resolve fs name = Some p -> files (os_Remove name fs) !! p = None.
Proof. intros Hres. unfold os_Remove. rewrite Hres. cbn. apply lookup_delete_eq. Qed.

Lemma resolve_dirs (fs fs' : FS) (name : string) :
  dirs fs' = dirs fs -> resolve fs' name = resolve fs name.
Proof.
  intros Hdirs. unfold resolve. destruct (String.eqb name ""); [done|].
  generalize (@nil string). induction (split_path name) as [|s rest IH]; intros cur; [done|].
  cbn. destruct (_ || _); [apply IH|].
  destruct (String.eqb s ".."); [apply IH|].
  destruct rest; [done|].
  replace (is_dir fs' (cur ++ [s])) with (is_dir fs (cur ++ [s]))
    by (unfold is_dir; by rewrite Hdirs).
  destruct (is_dir fs (cur ++ [s])); [apply IH | done].
Qed.

(** [safeCopyFile] rolls back: when it fails after having created the
    destination, by a fault of the copy or of the sync, no file is left at
    the destination; when it succeeds, the destination was synced. *)
Lemma safeCopyFile_rollback_and_sync (fuel : nat) (src dst : string) (fs fs' : FS)
    (sourceFile destFile : File) (fs1 : FS) (result : option wrapped) :
  os_Open src fs = inr sourceFile ->
  os_Create dst fs = inr (destFile, fs1) ->
  safeCopyFile fuel src dst fs = Some (result, fs') ->
  match result with
  | Some _ => files fs' !! fpath destFile = None
  | None => fpath destFile ∈ synced fs'
  end.
Proof.
  intros Hopen Hcreate. unfold safeCopyFile. rewrite Hopen, Hcreate.
  assert (Hres : resolve fs dst = Some (fpath destFile) /\ dirs fs1 = dirs fs).
  { unfold os_Create in Hcreate. destruct (resolve fs dst) as [p|]; [|discriminate].
    destruct (is_dir fs p); [discriminate|].
    destruct (negb _); [discriminate|]. by injection Hcreate as <- <-. }
  destruct Hres as [Hres Hdirs1]. unfold io_Copy.
  destruct (io_Copy_from _ _ _ _ _) as [[[[[n err] d2] s2] fs2]|] eqn:Hcopy; [|discriminate].
  apply io_Copy_files_frame in Hcopy as [Hdirs2 Hpath2].
  destruct err as [e|].
  - intros [= <- <-]. apply os_Remove_gone.
    rewrite <- Hres. apply resolve_dirs. congruence.
  - unfold File_Sync. destruct (sync_fault fs2).
    + intros [= <- <-]. apply os_Remove_gone.
      rewrite <- Hres. apply resolve_dirs. congruence.
    + intros [= <- <-]. cbn. rewrite Hpath2.
      apply elem_of_union_r. by apply elem_of_singleton.
Qed.

End Step08Facts.

(** ** Copying out of a file, and what a copy leaves alone *)
Module FileSourceFacts.
Import GoIO GoOS CopyFacts Step08Facts.

(** Reading a regular file: the next bytes from the offset, [EOF] at the
    end, and the handle moved on by what was read. *)
Lemma File_Read_regular (f : File) (n : nat) (fs : FS) (c : list byte) :
  is_directory f = false -> files fs !! fpath f = Some c -> 0 < n ->
  exists f',
    Read f n fs
    = ((take n (drop (offset f) c),
        match drop (offset f) c with [] => Some EOF | _ => None end), f', fs)
    /\ fpath f' = fpath f /\ is_directory f' = false
    /\ offset f' = offset f + length (take n (drop (offset f) c)).
Proof.
  intros Hdir Hc Hn. unfold Read, File_Read.
  replace (n =? 0)%nat with false by (symmetry; apply Nat.eqb_neq; lia).
  rewrite Hdir. unfold content_of. rewrite Hc. cbn [default from_option]. unfold id.
  destruct (drop (offset f) c) as [|b rest] eqn:Hrest.
  - rewrite take_nil. exists f. cbn [length]. repeat split; [done | lia].
  - destruct n as [|n]; [lia|]. cbn [take]. by eexists.
Qed.

(** [os.Open] on a regular file gives a handle at its start. *)
Lemma os_Open_regular (name : string) (fs : FS) (f : File) :
  os_Open name fs = inr f -> is_directory f = false ->
  resolve fs name = Some (fpath f) /\ offset f = 0
  /\ exists c, files fs !! fpath f = Some c.
Proof.
  unfold os_Open. destruct (resolve fs name) as [p|]; [|discriminate].
  destruct (is_dir fs p).
  - intros [= <-]. discriminate.
  - destruct (files fs !! p) as [c|] eqn:Hc; [|discriminate].
    intros [= <-] _. cbn. eauto.
Qed.

Section FileToSink.

Context {S : Type} `{!Writer FS S}.

(** A sink that takes every write whole and leaves the file system alone;
    [acc] is what it has taken so far. *)
Variable acc : S -> list byte.

Hypothesis accepts : forall s p fs,
  exists s', Write s p fs = ((length p, None), s', fs) /\ acc s' = acc s ++ p.

(** [io.Copy] from a regular file into such a sink passes on the file's
    bytes from the offset to the end, reports their number and no error, and
    leaves the file system as it was. *)
Lemma io_Copy_file_to_sink (fuel : nat) :
  forall (f : File) (dst : S) (fs : FS) (written : Z) (c : list byte),
    is_directory f = false -> files fs !! fpath f = Some c ->
    length (drop (offset f) c) < fuel -> wrap64 written = written ->
    exists dst' f',
      io_Copy_from fuel written dst f fs
      = Some ((wrap64 (written + Z.of_nat (length (drop (offset f) c))), None),
              dst', f', fs)
      /\ acc dst' = acc dst ++ drop (offset f) c.
Proof.
  induction fuel as [|fuel IH]; intros f dst fs written c Hdir Hc Hfuel Hw; [lia|].
  assert (Hbuf : 0 < copy_buffer_size) by (unfold copy_buffer_size; lia).
  destruct (File_Read_regular f copy_buffer_size fs c Hdir Hc Hbuf)
    as (f1 & Hread & Hpath1 & Hdir1 & Hoff1).
  cbn [io_Copy_from]. rewrite Hread.
  destruct (drop (offset f) c) as [|b rest] eqn:Hrest.
  - rewrite take_nil. cbn [length Nat.ltb Nat.leb].
    exists dst, f1. by rewrite Z.add_0_r, Hw, app_nil_r.
  - set (data := take copy_buffer_size (b :: rest)) in *.
    assert (Hlen : 0 < length data <= length (b :: rest)).
    { unfold data. rewrite length_take. cbn [length]. lia. }
    assert (Hdata : data ++ drop copy_buffer_size (b :: rest) = b :: rest)
      by apply take_drop.
    assert (Hnext : drop (offset f1) c = drop copy_buffer_size (b :: rest)).
    { rewrite Hoff1, <- drop_drop, Hrest.
      unfold data. rewrite length_take.
      destruct (Nat.le_gt_cases copy_buffer_size (length (b :: rest))) as [Hle|Hgt].
      - by rewrite Nat.min_l.
      - rewrite Nat.min_r by lia. by rewrite !drop_ge by lia. }
    assert (Hsplit : length (b :: rest)
                     = length data + length (drop copy_buffer_size (b :: rest))).
    { rewrite <- length_app. by rewrite Hdata. }
    replace (0 <? length data)%nat with true by (symmetry; apply Nat.ltb_lt; lia).
    destruct (accepts dst data fs) as (dst1 & Hwrite & Hacc1).
    rewrite Hwrite.
    replace (length data <? length data)%nat with false
      by (symmetry; apply Nat.ltb_ge; lia).
    rewrite Nat.eqb_refl.
    rewrite <- Hpath1 in Hc.
    destruct (IH f1 dst1 fs (wrap64 (written + Z.of_nat (length data))) c Hdir1 Hc)
      as (dst2 & f2 & Hcopy & Hacc2); [rewrite Hnext; lia | apply wrap64_wrap64 |].
    exists dst2, f2. rewrite Hcopy, Hnext, wrap64_idem.
    split.
    + by rewrite Hsplit, Nat2Z.inj_add, Z.add_assoc.
    + by rewrite Hacc2, Hacc1, Hnext, <- app_assoc, Hdata.
Qed.

End FileToSink.

Section IntoFile.

Context {R : Type} `{!Reader FS R}.

(** A reader that does not write to the file system. *)
Hypothesis reader_reads_only : forall (r : R) n fs, (Read r n fs).2 = fs.

(** Whatever its end, a copy into a file changes no directory and no file
    other than the destination. *)
Lemma io_Copy_into_file_frame (fuel : nat) :
  forall (written : Z) (dst : File) (src : R) (fs : FS) res dst' src' fs',
    io_Copy_from fuel written dst src fs = Some (res, dst', src', fs') ->
    dirs fs' = dirs fs /\ fpath dst' = fpath dst
    /\ (forall q, q <> fpath dst -> files fs' !! q = files fs !! q).
Proof.
  induction fuel as [|fuel IH]; intros written dst src fs res dst' src' fs' Hcopy;
    [discriminate|].
  cbn [io_Copy_from] in Hcopy.
  pose proof (reader_reads_only src copy_buffer_size fs) as Hread.
  destruct (Read src copy_buffer_size fs) as [[[data er] src1] fs1]. cbn in Hread. subst fs1.
  assert (Hwrite : forall p,
            let '(_, d1, fs1) := Write dst p fs in
            dirs fs1 = dirs fs /\ fpath d1 = fpath dst
            /\ (forall q, q <> fpath dst -> files fs1 !! q = files fs !! q)).
  { intros p. unfold Write, File_Write. destruct (is_directory dst); [done|].
    cbn. repeat split. intros q Hq. by rewrite lookup_insert_ne. }
  destruct (0 <? length data)%nat.
  - specialize (Hwrite data).
    destruct (Write dst data fs) as [[[nw ew] dst1] fs1]. destruct Hwrite as (Hd & Hp & Hf).
    destruct (length data <? nw)%nat.
    + by injection Hcopy as <- <- <- <-.
    + destruct ew as [e|]; [by injection Hcopy as <- <- <- <-|].
      destruct (length data =? nw)%nat; [|by injection Hcopy as <- <- <- <-].
      destruct er as [[]|]; try (by injection Hcopy as <- <- <- <-).
      apply IH in Hcopy as (Hd2 & Hp2 & Hf2).
      split; [congruence|]. split; [congruence|].
      intros q Hq. rewrite Hf2 by congruence. by apply Hf.
  - destruct er as [[]|]; try (by injection Hcopy as <- <- <- <-).
    by apply IH in Hcopy.
Qed.

End IntoFile.

(** A read of a file looks at the content under the handle's path only. *)
Lemma File_Read_agree (f : File) (n : nat) (fs fs' : FS) :
  is_directory f = true \/ files fs' !! fpath f = files fs !! fpath f ->
  (Read f n fs').1 = (Read f n fs).1
  /\ fpath (Read f n fs).1.2 = fpath f
  /\ is_directory (Read f n fs).1.2 = is_directory f.
Proof.
  intros Hsame. unfold Read, File_Read.
  destruct (n =? 0)%nat; [done|].
  destruct (is_directory f) eqn:Hdir; [done|].
  destruct Hsame as [|Hsame]; [done|].
  unfold content_of. rewrite Hsame.
  by destruct (take n (drop (offset f) (default [] (files fs !! fpath f)))).
Qed.

Section PureSink.

Context {S : Type} `{!Writer FS S}.

(** A sink whose writes neither look at the file system nor change it. *)
Hypothesis sink_pure : forall (s : S) p fs fs', Write s p fs' = ((Write s p fs).1, fs').

(** A copy out of a file into such a sink gives the same result and leaves
    the same sink on two file systems that agree on that file. *)
Lemma io_Copy_from_file_agree (fuel : nat) :
  forall (written : Z) (dst : S) (f : File) (fs fs' : FS),
    is_directory f = true \/ files fs' !! fpath f = files fs !! fpath f ->
    match io_Copy_from fuel written dst f fs, io_Copy_from fuel written dst f fs' with
    | Some (res, d1, _, _), Some (res', d2, _, _) => res = res' /\ d1 = d2
    | None, None => True
    | _, _ => False
    end.
Proof.
  induction fuel as [|fuel IH]; intros written dst f fs fs' Hsame; [done|].
  cbn [io_Copy_from].
  destruct (File_Read_agree f copy_buffer_size fs fs' Hsame) as (Hread & Hpath & Hdir).
  pose proof (File_Read_frame f copy_buffer_size fs) as Hfs.
  pose proof (File_Read_frame f copy_buffer_size fs') as Hfs'.
  destruct (Read f copy_buffer_size fs) as [[[data er] f1] fs1].
  destruct (Read f copy_buffer_size fs') as [[[data' er'] f1'] fs1'].
  cbn in Hread, Hpath, Hdir, Hfs, Hfs'. injection Hread as -> -> ->. subst fs1 fs1'.
  assert (Hsame1 : is_directory f1 = true \/ files fs' !! fpath f1 = files fs !! fpath f1).
  { rewrite Hpath, Hdir. exact Hsame. }
  destruct (0 <? length data)%nat.
  - pose proof (sink_pure dst data fs fs) as Hw. rewrite (sink_pure dst data fs fs').
    destruct (Write dst data fs) as [[[nw ew] d1] w2]. cbn [fst] in *.
    injection Hw as ->.
    destruct (length data <? nw)%nat; [done|].
    destruct ew; [done|]. destruct (length data =? nw)%nat; [|done].
    destruct er as [[]|]; try done. by apply IH.
  - destruct er as [[]|]; try done. by apply IH.
Qed.

End PureSink.

(** A copy out of a file into the response leaves the file system alone. *)
Lemma io_Copy_to_response_reads_only (fuel : nat) :
  forall (written : Z) (w : Step09.ResponseWriter) (f : File) (fs : FS) res w' f' fs',
    io_Copy_from fuel written w f fs = Some (res, w', f', fs') -> fs' = fs.
Proof.
  induction fuel as [|fuel IH]; intros written w f fs res w' f' fs' Hcopy; [discriminate|].
  cbn [io_Copy_from] in Hcopy.
  pose proof (File_Read_frame f copy_buffer_size fs) as Hread.
  destruct (Read f copy_buffer_size fs) as [[[data er] f1] fs1]. cbn in Hread. subst fs1.
  destruct (0 <? length data)%nat.
  - unfold Write, Step09.ResponseWriter_Write in Hcopy.
    rewrite Nat.ltb_irrefl, Nat.eqb_refl in Hcopy.
    destruct er as [[]|]; try (by injection Hcopy as <- <- <- <-).
    by apply IH in Hcopy.
  - destruct er as [[]|]; try (by injection Hcopy as <- <- <- <-).
    by apply IH in Hcopy.
Qed.

End FileSourceFacts.

(** ** step09: more on the handlers *)
Module HandlerFacts.
Import GoIO GoOS Step09 CopyFacts UploadFacts DownloadFacts Step08Facts FileSourceFacts.

Lemma upto_slash_no_slash (cs : list ascii) : no_slash (upto_slash cs).
Proof.
  induction cs as [|c cs IH]; cbn; [constructor|].
  destruct (is_slash c) eqn:Hc; [constructor|]. by constructor.
Qed.

(** [filepath.Base] returns ["/"] or a non-empty name without a slash. *)
Lemma Base_no_slash (path : string) :
  Base path = "/"
  \/ exists cs, cs <> [] /\ no_slash cs /\ Base path = string_of_list_ascii cs.
Proof.
  unfold Base. destruct (list_ascii_of_string path) as [|c cs] eqn:Hpath.
  - right. exists ["."%char]. repeat split; [done|]. by repeat constructor.
  - destruct (rev (upto_slash (drop_slashes (rev (c :: cs))))) as [|e elt] eqn:Helt;
      [by left|].
    right. exists (e :: elt). repeat split; [done|].
    rewrite <- Helt. apply Forall_rev, upto_slash_no_slash.
Qed.

Lemma split_aux_no_slash (cs cur : list ascii) :
  no_slash cs -> split_aux cs cur = [string_of_list_ascii (rev cur ++ cs)].
Proof.
  intros Hcs. revert cur. induction Hcs as [|c cs Hc _ IH]; intros cur; cbn.
  - by rewrite app_nil_r.
  - rewrite Hc, IH. cbn. by rewrite <- app_assoc.
Qed.

Lemma list_ascii_of_append (s1 s2 : string) :
  list_ascii_of_string (s1 +:+ s2) = list_ascii_of_string s1 ++ list_ascii_of_string s2.
Proof. induction s1 as [|c s1 IH]; [done|]. cbn -[String.append]. simpl. by f_equal. Qed.

(** Where the path the download handlers open can lead: to the file of that
    base name directly in [uploads], or to a directory. *)
Lemma resolve_uploads_Base (fs : FS) (filename : string) (p : list string) :
  resolve fs ("./uploads/" +:+ Base filename) = Some p ->
  p = ["uploads"; Base filename] \/ is_dir fs p = true.
Proof.
  unfold resolve, split_path. rewrite list_ascii_of_append.
  replace (String.eqb ("./uploads/" +:+ Base filename) "") with false by reflexivity.
  destruct (Base_no_slash filename) as [->|(cs & Hne & Hcs & ->)].
  - simpl. destruct (is_dir fs ["uploads"]) eqn:Hd; [|discriminate].
    intros [= <-]. by right.
  - rewrite list_ascii_of_string_of_list_ascii.
    simpl. rewrite split_aux_no_slash by exact Hcs. simpl.
    set (b := string_of_list_ascii cs).
    destruct (is_dir fs ["uploads"]) eqn:Hd; [|discriminate].
    destruct (String.eqb b "" || String.eqb b "."); [intros [= <-]; by right|].
    destruct (String.eqb b ".."); [intros [= <-]; by right|].
    intros [= <-]. by left.
Qed.

(** A regular file opened under the base name of any string lies directly
    in [uploads]. *)
Lemma os_Open_in_uploads (filename : string) (fs : FS) (file : File) :
  os_Open ("./uploads/" +:+ Base filename) fs = inr file ->
  is_directory file = false ->
  fpath file = ["uploads"; Base filename] /\ under_uploads (fpath file) = true.
Proof.
  intros Hopen Hreg.
  destruct (os_Open_regular _ _ _ Hopen Hreg) as (Hres & _ & _).
  unfold os_Open in Hopen. rewrite Hres in Hopen.
  destruct (resolve_uploads_Base fs filename (fpath file) Hres) as [Hp|Hd].
  - by rewrite Hp.
  - rewrite Hd in Hopen. injection Hopen as Hfile. rewrite <- Hfile in Hreg.
    discriminate Hreg.
Qed.



(** Writing the body does not change the status the client sees. *)
Lemma io_Copy_keeps_statusCode {R : Type} `{!Reader FS R} (fuel : nat) :
  forall (written : Z) (w : ResponseWriter) (r : R) (fs : FS) res w' r' fs',
    io_Copy_from fuel written w r fs = Some (res, w', r', fs') ->
    statusCode w' = statusCode w.
Proof.
  induction fuel as [|fuel IH]; intros written w r fs res w' r' fs' Hcopy; [discriminate|].
  cbn [io_Copy_from] in Hcopy.
  destruct (Read r copy_buffer_size fs) as [[[data er] r1] fs1].
  destruct (0 <? length data)%nat.
  - unfold Write, ResponseWriter_Write in Hcopy.
    rewrite Nat.ltb_irrefl, Nat.eqb_refl in Hcopy.
    assert (Hst : forall st : option Z, default StatusOK (Some (default StatusOK st))
                                        = default StatusOK st) by (by intros []).
    destruct er as [[]|];
      try (injection Hcopy as <- <- <- <-; unfold statusCode; cbn; apply Hst).
    apply IH in Hcopy. rewrite Hcopy. unfold statusCode; cbn. apply Hst.
  - destruct er as [[]|]; try (injection Hcopy as <- <- <- <-; reflexivity).
    by apply IH in Hcopy.
Qed.

Lemma ResponseWriter_accepts (w : ResponseWriter) (p : list byte) (fs : FS) :
  exists w', Write w p fs = ((length p, None), w', fs) /\ body w' = body w ++ p.
Proof. by eexists. Qed.

(** A download of a stored file: the answer is 200, its body is the content
    of the file of that base name in [uploads], byte for byte, and
    [Content-Length] is the number of those bytes; the file system is as
    before. *)
Theorem downloadHandler_serves_stored_file (fuel : nat) (r : Request)
    (w : ResponseWriter) (fs : FS) (file : File) :
  Query_Get r "file" <> "" ->
  os_Open ("./uploads/" +:+ Base (Query_Get r "file")) fs = inr file ->
  is_directory file = false ->
  status w = None ->
  length (content_of fs ["uploads"; Base (Query_Get r "file")]) < fuel ->
  exists w' log,
    downloadHandler fuel r w fs = Some (w', fs, log)
    /\ statusCode w' = StatusOK
    /\ body w' = body w ++ content_of fs ["uploads"; Base (Query_Get r "file")]
    /\ Header w' !! "Content-Length"
       = Some (pretty (Z.of_nat
                 (length (content_of fs ["uploads"; Base (Query_Get r "file")]))))
    /\ Header w' !! "Content-Type" = Some "application/octet-stream".
Proof.
  intros Hname Hopen Hreg Hw Hfuel.
  destruct (os_Open_in_uploads _ _ _ Hopen Hreg) as [Hpath _].
  destruct (os_Open_regular _ _ _ Hopen Hreg) as (_ & Hoff & c & Hc).
  assert (Hcontent : content_of fs ["uploads"; Base (Query_Get r "file")] = c).
  { unfold content_of. by rewrite <- Hpath, Hc. }
  rewrite Hcontent in *.
  unfold downloadHandler.
  destruct (String.eqb_spec (Query_Get r "file") "") as [|_]; [done|].
  rewrite Hopen. unfold io_Copy.
  set (w3 := Header_Set "Content-Length" _ _).
  destruct (io_Copy_file_to_sink body ResponseWriter_accepts fuel file w3 fs 0%Z c
              Hreg Hc) as (w4 & f4 & Hcopy & Hbody); [by rewrite Hoff | done |].
  rewrite Hoff in Hcopy, Hbody. cbn [drop] in Hcopy, Hbody.
  rewrite Hcopy. eexists _, _. split; [reflexivity|].
  pose proof (io_Copy_keeps_statusCode _ _ _ _ _ _ _ _ _ Hcopy) as Hstatus.
  pose proof (io_Copy_keeps_Header _ _ _ _ _ _ _ _ _ Hcopy) as Hheader.
  split; [rewrite Hstatus; unfold statusCode, w3; cbn; by rewrite Hw|].
  split; [exact Hbody|].
  rewrite Hheader. unfold w3, Header_Set, File_Size; cbn. rewrite Hreg.
  unfold content_of. rewrite Hc. cbn.
  split; [apply lookup_insert_eq|].
  rewrite lookup_insert_ne by done. apply lookup_insert_eq.
Qed.

Lemma downloadHandler_serves_stored_file_witness :
  exists w' log,
    downloadHandler 4 (download_request "../x.txt") fresh
      (server_fs [("x.txt", list_byte_of_string "old")] 0)
    = Some (w', server_fs [("x.txt", list_byte_of_string "old")] 0, log)
    /\ statusCode w' = StatusOK
    /\ body w' = body fresh
                 ++ content_of (server_fs [("x.txt", list_byte_of_string "old")] 0)
                      ["uploads"; Base (Query_Get (download_request "../x.txt") "file")]
    /\ Header w' !! "Content-Length"
       = Some (pretty (Z.of_nat
                 (length (content_of (server_fs [("x.txt", list_byte_of_string "old")] 0)
                            ["uploads"; Base (Query_Get (download_request "../x.txt") "file")]))))
    /\ Header w' !! "Content-Type" = Some "application/octet-stream".
Proof.
  apply (downloadHandler_serves_stored_file 4 (download_request "../x.txt") fresh
           (server_fs [("x.txt", list_byte_of_string "old")] 0)
           {| fpath := ["uploads"; "x.txt"]; offset := 0; is_directory := false |}).
  - discriminate.
  - reflexivity.
  - reflexivity.
  - reflexivity.
  - vm_compute; lia.
Defined.

(** [downloadHandler] without a [file] parameter answers 400, and for a
    name it cannot open 404, for every fuel and with the file system and the
    log untouched; and whatever the request and however the transfer ends,
    it never changes the file system. *)
Theorem downloadHandler_reads_only (fuel : nat) (r : Request) (w : ResponseWriter)
    (fs : FS) :
  (Query_Get r "file" = "" ->
   downloadHandler fuel r w fs
   = Some (http_Error "파일명이 필요합니다" StatusBadRequest w, fs, []))
  /\ (forall e, Query_Get r "file" <> "" ->
      os_Open ("./uploads/" +:+ Base (Query_Get r "file")) fs = inl e ->
      downloadHandler fuel r w fs
      = Some (http_Error "파일을 찾을 수 없습니다" StatusNotFound w, fs, []))
  /\ match downloadHandler fuel r w fs with
     | Some (_, fs', _) => fs' = fs
     | None => True
     end.
Proof.
  unfold downloadHandler.
  destruct (String.eqb_spec (Query_Get r "file") "") as [Hempty|Hname].
  { split; [done|]. split; [by intros e Hne|done]. }
  split; [done|].
  destruct (os_Open _ fs) as [e|file] eqn:Hopen.
  { split; [by intros e' _ _|done]. }
  split; [by intros e' _ [=]|].
  unfold io_Copy.
  destruct (io_Copy_from _ _ _ _ _) as [[[[[written err] w4] f4] fs1]|] eqn:Hcopy; [|done].
  apply io_Copy_to_response_reads_only in Hcopy as ->.
  by destruct err.
Qed.

Lemma BytesReader_reads_only (r : BytesReader) (n : nat) (fs : FS) : (Read r n fs).2 = fs.
Proof. unfold Read, BytesReader_Read. by destruct (unread r). Qed.

(** The frame of an upload, whatever its end. *)
Lemma uploadHandler_frame (fuel : nat) (name : string)
    (content : list byte) (w : ResponseWriter) (fs : FS) (q : list string) :
  resolve fs ("uploads/" +:+ name) <> Some q ->
  match uploadHandler fuel (upload_request name content) w fs with
  | Some (_, fs', _) => files fs' !! q = files fs !! q /\ dirs fs' = dirs fs
  | None => True
  end.
Proof.
  intros Hq. unfold uploadHandler.
  destruct (FormFile_upload_request name content) as [-> ->].
  cbn [Method upload_request String.eqb Ascii.eqb Bool.eqb negb Filename].
  destruct (os_Create _ fs) as [e|[dst fs1]] eqn:Hcreate; [done|].
  assert (Hfs1 : fpath dst <> q /\ files fs1 !! q = files fs !! q /\ dirs fs1 = dirs fs).
  { unfold os_Create in Hcreate.
    destruct (resolve fs _) as [p|]; [|discriminate].
    destruct (is_dir fs p); [discriminate|].
    destruct (negb _); [discriminate|]. injection Hcreate as <- <-. cbn.
    assert (p <> q) by congruence. by rewrite lookup_insert_ne. }
  destruct Hfs1 as (Hne & Hfiles1 & Hdirs1). unfold io_Copy.
  destruct (io_Copy_from _ _ _ _ _) as [[[[[written err] d2] r2] fs2]|] eqn:Hcopy; [|done].
  apply (io_Copy_into_file_frame BytesReader_reads_only) in Hcopy as (Hdirs2 & _ & Hframe2).
  destruct err; (split; [rewrite Hframe2 by done; exact Hfiles1 | congruence]).
Qed.

(** An upload changes at most the one file its name resolves to, and no
    directory, however it ends. *)
Theorem uploadHandler_touches_one_path (fuel : nat) (name : string)
    (content : list byte) (w : ResponseWriter) (fs : FS) (q : list string) :
  resolve fs ("uploads/" +:+ name) <> Some q ->
  match uploadHandler fuel (upload_request name content) w fs with
  | Some (_, fs', _) => files fs' !! q = files fs !! q /\ dirs fs' = dirs fs
  | None => True
  end.
Proof. exact (uploadHandler_frame fuel name content w fs q). Qed.

Lemma uploadHandler_touches_one_path_witness :
  match uploadHandler 3 (upload_request "new.txt" (list_byte_of_string "abcdefgh")) fresh
          (server_fs [("x.txt", list_byte_of_string "old")] 5) with
  | Some (_, fs', _) =>
      files fs' !! ["uploads"; "x.txt"]
      = files (server_fs [("x.txt", list_byte_of_string "old")] 5) !! ["uploads"; "x.txt"]
      /\ dirs fs' = dirs (server_fs [("x.txt", list_byte_of_string "old")] 5)
  | None => True
  end.
Proof.
  apply (uploadHandler_touches_one_path 3 "new.txt" (list_byte_of_string "abcdefgh") fresh
           (server_fs [("x.txt", list_byte_of_string "old")] 5) ["uploads"; "x.txt"]).
  discriminate.
Defined.

(** The file name the parser hands over is a single slash or has none. *)
Lemma Part_FileName_no_slash (raw : string) :
  Part_FileName raw = "/"
  \/ exists cs, no_slash cs /\ Part_FileName raw = string_of_list_ascii cs.
Proof.
  unfold Part_FileName. destruct (String.eqb raw "").
  - right. exists []. split; [constructor | done].
  - destruct (Base_no_slash raw) as [->|(cs & _ & Hcs & ->)]; [by left|].
    right. by exists cs.
Qed.

(** Where the path [uploadHandler] creates can lead: to the file of that
    name directly in [uploads], or to a directory. *)
Lemma resolve_upload_Part_FileName (fs : FS) (raw : string) (p : list string) :
  resolve fs ("uploads/" +:+ Part_FileName raw) = Some p ->
  p = ["uploads"; Part_FileName raw] \/ is_dir fs p = true.
Proof.
  unfold resolve, split_path. rewrite list_ascii_of_append.
  replace (String.eqb ("uploads/" +:+ Part_FileName raw) "") with false by reflexivity.
  destruct (Part_FileName_no_slash raw) as [->|(cs & Hcs & ->)].
  - simpl. destruct (is_dir fs ["uploads"]) eqn:Hd; [|discriminate].
    intros [= <-]. by right.
  - rewrite list_ascii_of_string_of_list_ascii.
    simpl. rewrite split_aux_no_slash by exact Hcs. simpl.
    set (b := string_of_list_ascii cs).
    destruct (is_dir fs ["uploads"]) eqn:Hd; [|discriminate].
    destruct (String.eqb b "" || String.eqb b "."); [intros [= <-]; by right|].
    destruct (String.eqb b ".."); [intros [= <-]; by right|].
    intros [= <-]. by left.
Qed.

(** C1. Every upload lands directly in [uploads] or is refused before a file is
    created. For the request the server hands over for a part sent under
    any file name [raw] ([../evil.txt], an absolute path, [..]): the path
    the handler creates is [uploads/] and the last element of [raw]; it
    leads to the file of that name directly in [uploads] or to a directory;
    when it does not lead to that file the handler answers 400 or 500 for
    every fuel, with the file system unchanged and nothing logged; and
    however the upload ends, no directory and no file other than that one
    has changed. *)
Theorem uploadHandler_stays_in_upload_root (fuel : nat) (raw : string)
    (content : list byte) (w : ResponseWriter) (fs : FS) :
  let name := Part_FileName raw in
  under_uploads ["uploads"; name] = true
  /\ (forall p, resolve fs ("uploads/" +:+ name) = Some p ->
            p = ["uploads"; name] \/ is_dir fs p = true)
  /\ (raw = "" \/ resolve fs ("uploads/" +:+ name) <> Some ["uploads"; name] ->
      exists msg code,
        uploadHandler fuel (received_upload raw content) w fs
        = Some (http_Error msg code w, fs, [])
        /\ (code = StatusBadRequest \/ code = StatusInternalServerError))
  /\ match uploadHandler fuel (received_upload raw content) w fs with
     | Some (_, fs', _) =>
         dirs fs' = dirs fs
         /\ forall q, q <> ["uploads"; name] -> files fs' !! q = files fs !! q
     | None => True
     end.
Proof.
  intros name.
  assert (Hlead : forall p, resolve fs ("uploads/" +:+ name) = Some p ->
                            p = ["uploads"; name] \/ is_dir fs p = true)
    by apply resolve_upload_Part_FileName.
  assert (Hrefuse : raw = "" \/ resolve fs ("uploads/" +:+ name) <> Some ["uploads"; name] ->
            exists msg code,
              uploadHandler fuel (received_upload raw content) w fs
              = Some (http_Error msg code w, fs, [])
              /\ (code = StatusBadRequest \/ code = StatusInternalServerError)).
  { intros Hbad. unfold received_upload. fold name.
    destruct (String.eqb_spec raw "") as [Hraw|Hraw].
    { eexists _, _. split; [reflexivity | by left]. }
    destruct Hbad as [|Hbad]; [done|].
    unfold uploadHandler.
    destruct (FormFile_upload_request name content) as [-> ->].
    cbn [Method upload_request String.eqb Ascii.eqb Bool.eqb negb Filename].
    unfold os_Create.
    destruct (resolve fs ("uploads/" +:+ name)) as [p|] eqn:Hres.
    - destruct (Hlead p eq_refl) as [->|Hd]; [done|]. rewrite Hd.
      eexists _, _. split; [reflexivity | by right].
    - eexists _, _. split; [reflexivity | by right]. }
  split; [done|]. split; [exact Hlead|]. split; [exact Hrefuse|].
  destruct (String.eqb_spec raw "") as [Hraw|Hraw].
  { destruct (Hrefuse (or_introl Hraw)) as (msg & code & -> & _). by split. }
  destruct (decide (resolve fs ("uploads/" +:+ name) = Some ["uploads"; name])) as [Hres|Hres].
  - assert (Hreq : received_upload raw content = upload_request name content).
    { unfold received_upload. by destruct (String.eqb_spec raw ""). }
    rewrite Hreq.
    assert (Hframe : forall q, q <> ["uploads"; name] ->
              match uploadHandler fuel (upload_request name content) w fs with
              | Some (_, fs', _) => files fs' !! q = files fs !! q /\ dirs fs' = dirs fs
              | None => True
              end).
    { intros q Hq. apply uploadHandler_frame. rewrite Hres. congruence. }
    pose proof (Hframe [] ltac:(done)) as Hdirs.
    destruct (uploadHandler fuel (upload_request name content) w fs)
      as [[[w' fs'] log]|]; [|done].
    split; [apply Hdirs|]. intros q Hq. by apply Hframe.
  - destruct (Hrefuse (or_intror Hres)) as (msg & code & -> & _). by split.
Qed.

Lemma uploadHandler_stays_in_upload_root_witness :
  exists msg code,
    uploadHandler 2 (received_upload ".." (list_byte_of_string "abc")) fresh
      (server_fs [] 100)
    = Some (http_Error msg code fresh, server_fs [] 100, [])
    /\ (code = StatusBadRequest \/ code = StatusInternalServerError).
Proof.
  apply (proj1 (proj2 (proj2 (uploadHandler_stays_in_upload_root 2 ".."
                                (list_byte_of_string "abc") fresh (server_fs [] 100))))).
  right. vm_compute. discriminate.
Defined.

(** The part sent as [../evil.txt] is stored as [uploads/evil.txt], and
    nothing appears outside [uploads]; the part sent as [..] is refused. *)
Example uploadHandler_keeps_inside :
  let fs := server_fs [] 100 in
  match uploadHandler 2 (received_upload "../evil.txt" (list_byte_of_string "abc"))
          fresh fs with
  | Some (w', fs', _) =>
      statusCode w' = StatusOK
      /\ files fs' !! ["uploads"; "evil.txt"] = Some (list_byte_of_string "abc")
      /\ files fs' !! ["evil.txt"] = None
  | None => False
  end
  /\ uploadHandler 2 (received_upload ".." (list_byte_of_string "abc")) fresh fs
     = Some (http_Error "파일 생성 실패" StatusInternalServerError fresh, fs, []).
Proof. vm_compute. repeat split. Qed.

(** Which answers of [uploadHandler] are refusals: 405 only for a method
    other than [POST], 400 only for a [POST] whose form cannot be parsed or
    has no [file] part; a refusal leaves the disk and the log alone. *)
Lemma uploadHandler_status_exact (fuel : nat) (r : Request)
    (w : ResponseWriter) (fs : FS) :
  status w = None ->
  match uploadHandler fuel r w fs with
  | Some (w', fs', log) =>
      (statusCode w' = StatusMethodNotAllowed <-> String.eqb (Method r) "POST" = false)
      /\ (statusCode w' = StatusBadRequest <->
          String.eqb (Method r) "POST" = true
          /\ (MultipartForm r = None
              \/ exists form, MultipartForm r = Some form /\ form !! "file" = None))
      /\ (statusCode w' = StatusMethodNotAllowed \/ statusCode w' = StatusBadRequest ->
          fs' = fs /\ log = [])
  | None => True
  end.
Proof.
  intros Hw. unfold uploadHandler, ParseMultipartForm, FormFile.
  destruct (String.eqb (Method r) "POST") eqn:Hm; cbn [negb].
  { destruct (MultipartForm r) as [form|] eqn:Hform.
    - destruct (form !! "file") as [[header content]|] eqn:Hfile.
      + destruct (os_Create _ fs) as [e|[dst fs1]].
        * rewrite statusCode_http_Error by done.
          split; [done|]. split; [|by intros [|]].
          split; [done|]. intros [_ [|(form' & [= <-] & Hnone)]]; congruence.
        * unfold io_Copy.
          destruct (io_Copy_from _ _ _ _ _) as [[[[[written err] d2] r2] fs2]|]; [|done].
          destruct err.
          -- rewrite statusCode_http_Error by done.
             split; [done|]. split; [|by intros [|]].
             split; [done|]. intros [_ [|(form' & [= <-] & Hnone)]]; congruence.
          -- assert (Hok : statusCode
                      (write_string
                         ("파일 업로드 성공: " +:+
                          (Filename header +:+ " (" +:+ pretty written +:+ " 바이트)") +:+
                          String "010"%char "") w) = StatusOK).
             { unfold statusCode, write_string; cbn. by rewrite Hw. }
             rewrite Hok.
             split; [done|]. split; [|by intros [|]].
             split; [done|]. intros [_ [|(form' & [= <-] & Hnone)]]; congruence.
      + rewrite statusCode_http_Error by done.
        split; [done|]. split; [|done].
        split; [|done]. intros _. split; [done|]. right. by exists form.
    - rewrite statusCode_http_Error by done.
      split; [done|]. split; [|done].
      split; [|done]. intros _. split; [done|]. by left. }
  rewrite statusCode_http_Error by done.
  split; [done|]. split; [|done]. split; [done|]. by intros [? _].
Qed.

(** What [uploadHandler] refuses, it refuses before it touches the disk, for
    every fuel: a method other than [POST] is answered 405, a [POST] whose
    form cannot be parsed or has no [file] part 400, with the file system
    unchanged and nothing logged; and on a response without a status yet,
    405 and 400 are answered in these cases only. *)
Theorem uploadHandler_refuses_before_creating (fuel : nat) (r : Request)
    (w : ResponseWriter) (fs : FS) :
  (String.eqb (Method r) "POST" = false ->
   uploadHandler fuel r w fs
   = Some (http_Error "POST 메서드만 허용됩니다" StatusMethodNotAllowed w, fs, []))
  /\ (String.eqb (Method r) "POST" = true -> MultipartForm r = None ->
      uploadHandler fuel r w fs
      = Some (http_Error "폼 파싱 실패" StatusBadRequest w, fs, []))
  /\ (forall form, String.eqb (Method r) "POST" = true ->
      MultipartForm r = Some form -> form !! "file" = None ->
      uploadHandler fuel r w fs
      = Some (http_Error "파일을 가져올 수 없습니다" StatusBadRequest w, fs, []))
  /\ (status w = None ->
      match uploadHandler fuel r w fs with
      | Some (w', _, _) =>
          (statusCode w' = StatusMethodNotAllowed -> String.eqb (Method r) "POST" = false)
          /\ (statusCode w' = StatusBadRequest ->
              String.eqb (Method r) "POST" = true
              /\ (MultipartForm r = None
                  \/ exists form, MultipartForm r = Some form /\ form !! "file" = None))
      | None => True
      end).
Proof.
  split; [|split; [|split]].
  - intros Hm. unfold uploadHandler. by rewrite Hm.
  - intros Hm Hform. unfold uploadHandler, ParseMultipartForm. by rewrite Hm, Hform.
  - intros form Hm Hform Hfile. unfold uploadHandler, ParseMultipartForm, FormFile.
    by rewrite Hm, Hform, Hfile.
  - intros Hw. pose proof (uploadHandler_status_exact fuel r w fs Hw) as H.
    destruct (uploadHandler fuel r w fs) as [[[w' fs'] log]|]; [|done].
    destruct H as (H405 & H400 & _). split; [apply H405 | apply H400].
Qed.

Lemma uploadHandler_refuses_before_creating_witness :
  uploadHandler 0 (download_request "x.txt") fresh (server_fs [] 5)
  = Some (http_Error "POST 메서드만 허용됩니다" StatusMethodNotAllowed fresh,
          server_fs [] 5, []).
Proof.
  exact (proj1 (uploadHandler_refuses_before_creating 0 (download_request "x.txt") fresh
                  (server_fs [] 5)) eq_refl).
Defined.

(** A [ServeContent] that copies nothing, to instantiate the handler. *)
Lemma rangeDownloadHandler_disposition_witness :
  Header (rangeDownloadHandler (fun w _ _ _ fs => (w, fs))
            (download_request "../../etc/passwd") fresh
            (server_fs [("passwd", list_byte_of_string "x")] 0)).1.1
    !! "Content-Disposition"
  = Some ("attachment; filename=" +:+
          Base (Query_Get (download_request "../../etc/passwd") "file")).
Proof.
  apply (rangeDownloadHandler_disposition (fun w _ _ _ fs => (w, fs))
           (fun w r name file fs => eq_refl)
           (download_request "../../etc/passwd") fresh
           (server_fs [("passwd", list_byte_of_string "x")] 0)
           {| fpath := ["uploads"; "passwd"]; offset := 0; is_directory := false |}).
  - discriminate.
  - reflexivity.
Defined.

End HandlerFacts.

(** ** step08: more on the safe copy and on [processFile] *)
Module Step08MoreFacts.
Import GoIO GoOS Step08 CopyFacts Step08Facts FileSourceFacts.

Lemma File_Write_sync_fault (f : File) (p : list byte) (fs : FS) :
  sync_fault (Write f p fs).2 = sync_fault fs.
Proof. unfold Write, File_Write. by destruct (is_directory f). Qed.

(** [io.Copy] from one regular file into another, with room on the device:
    the destination receives the source's bytes from the offset on, the
    source keeps its content. *)
Lemma io_Copy_file_to_file (fuel : nat) :
  forall (src dst : File) (fs : FS) (written : Z) (c d : list byte),
    is_directory src = false -> files fs !! fpath src = Some c ->
    fpath src <> fpath dst -> at_end dst fs d ->
    length (drop (offset src) c) <= free fs ->
    length (drop (offset src) c) < fuel -> wrap64 written = written ->
    exists dst' src' fs',
      io_Copy_from fuel written dst src fs
      = Some ((wrap64 (written + Z.of_nat (length (drop (offset src) c))), None),
              dst', src', fs')
      /\ at_end dst' fs' (d ++ drop (offset src) c)
      /\ fpath dst' = fpath dst
      /\ files fs' !! fpath src = Some c
      /\ sync_fault fs' = sync_fault fs.
Proof.
  induction fuel as [|fuel IH];
    intros src dst fs written c d Hdir Hc Hne Hend Hroom Hfuel Hw; [lia|].
  assert (Hbuf : 0 < copy_buffer_size) by (unfold copy_buffer_size; lia).
  destruct (File_Read_regular src copy_buffer_size fs c Hdir Hc Hbuf)
    as (src1 & Hread & Hpath1 & Hdir1 & Hoff1).
  cbn [io_Copy_from]. rewrite Hread.
  destruct (drop (offset src) c) as [|b rest] eqn:Hrest.
  - rewrite take_nil. cbn [length Nat.ltb Nat.leb].
    exists dst, src1, fs. rewrite Z.add_0_r, Hw, app_nil_r.
    split; [done|]. split; [exact Hend|]. by repeat split.
  - set (data := take copy_buffer_size (b :: rest)) in *.
    assert (Hlen : 0 < length data <= length (b :: rest)).
    { unfold data. rewrite length_take. cbn [length]. lia. }
    assert (Hdata : data ++ drop copy_buffer_size (b :: rest) = b :: rest)
      by apply take_drop.
    assert (Hnext : drop (offset src1) c = drop copy_buffer_size (b :: rest)).
    { rewrite Hoff1, <- drop_drop, Hrest.
      unfold data. rewrite length_take.
      destruct (Nat.le_gt_cases copy_buffer_size (length (b :: rest))) as [Hle|Hgt].
      - by rewrite Nat.min_l.
      - rewrite Nat.min_r by lia. by rewrite !drop_ge by lia. }
    assert (Hsplit : length (b :: rest)
                     = length data + length (drop copy_buffer_size (b :: rest))).
    { rewrite <- length_app. by rewrite Hdata. }
    replace (0 <? length data)%nat with true by (symmetry; apply Nat.ltb_lt; lia).
    pose proof (File_Write_sync_fault dst data fs) as Hsf.
    destruct (File_Write_at_end dst fs d data Hend) as
      (dst1 & fs1 & Hwrite & Hend1 & Hdpath1 & Hfree1 & _ & _ & Hframe1); [lia|].
    rewrite Hwrite in Hsf |- *. cbn in Hsf.
    replace (length data <? length data)%nat with false
      by (symmetry; apply Nat.ltb_ge; lia).
    rewrite Nat.eqb_refl.
    assert (Hc1 : files fs1 !! fpath src1 = Some c).
    { rewrite Hpath1, Hframe1 by done. exact Hc. }
    destruct (IH src1 dst1 fs1 (wrap64 (written + Z.of_nat (length data))) c (d ++ data)
                Hdir1 Hc1)
      as (dst2 & src2 & fs2 & Hcopy & Hend2 & Hdpath2 & Hc2 & Hsf2);
      [congruence | done | rewrite Hnext; lia | rewrite Hnext; lia
       | apply wrap64_wrap64 |].
    exists dst2, src2, fs2. rewrite Hcopy, Hnext, wrap64_idem.
    split; [by rewrite Hsplit, Nat2Z.inj_add, Z.add_assoc|].
    rewrite Hnext, <- app_assoc, Hdata in Hend2. rewrite Hpath1 in Hc2.
    repeat split; [apply Hend2.. | congruence | done | congruence].
Qed.

(** [safeCopyFile] between two different files, with room on the device and
    a working [Sync]: it returns nil, the destination holds the source's
    content and is synced, the source is unchanged. *)
Theorem safeCopyFile_copies (fuel : nat) (src dst : string) (fs : FS)
    (sourceFile : File) (pdst : list string) (c : list byte) :
  os_Open src fs = inr sourceFile -> is_directory sourceFile = false ->
  files fs !! fpath sourceFile = Some c ->
  resolve fs dst = Some pdst -> pdst <> fpath sourceFile ->
  is_dir fs pdst = false -> is_dir fs (removelast pdst) = true ->
  length c <= free fs + length (content_of fs pdst) ->
  sync_fault fs = false ->
  length c < fuel ->
  exists fs',
    safeCopyFile fuel src dst fs = Some (None, fs')
    /\ files fs' !! pdst = Some c
    /\ files fs' !! fpath sourceFile = Some c
    /\ pdst ∈ synced fs'.
Proof.
  intros Hopen Hreg Hc Hres Hne Hnd Hpd Hroom Hsync Hfuel.
  destruct (os_Open_regular _ _ _ Hopen Hreg) as (_ & Hoff & _).
  destruct (UploadFacts.os_Create_ok dst fs pdst Hres Hnd Hpd)
    as (destFile & fs1 & Hcreate & Hpath & Hend & Hfree1 & _ & _ & Hframe1).
  assert (Hc1 : files fs1 !! fpath sourceFile = Some c).
  { rewrite Hframe1 by done. exact Hc. }
  assert (Hsf1 : sync_fault fs1 = false).
  { unfold os_Create in Hcreate. rewrite Hres, Hnd, Hpd in Hcreate.
    by injection Hcreate as <- <-. }
  destruct (io_Copy_file_to_file fuel sourceFile destFile fs1 0%Z c [] Hreg Hc1)
    as (d2 & s2 & fs2 & Hcopy & Hend2 & Hdpath2 & Hc2 & Hsf2);
    [congruence | done | rewrite Hoff, drop_0; lia | rewrite Hoff, drop_0; lia
     | done |].
  rewrite Hoff, drop_0 in Hcopy, Hend2. cbn [app] in Hend2.
  unfold safeCopyFile. rewrite Hopen, Hcreate. unfold io_Copy. rewrite Hcopy.
  unfold File_Sync. rewrite Hsf2, Hsf1.
  eexists. split; [reflexivity|]. cbn.
  destruct Hend2 as (_ & Hd & _). rewrite Hdpath2, Hpath in *.
  repeat split; [done..|].
  apply elem_of_union_r. by apply elem_of_singleton.
Qed.

Lemma safeCopyFile_copies_witness :
  exists fs',
    safeCopyFile 6 "uploads/a.txt" "uploads/b.txt"
      (Step09.server_fs [("a.txt", list_byte_of_string "hello")] 5)
    = Some (None, fs')
    /\ files fs' !! ["uploads"; "b.txt"] = Some (list_byte_of_string "hello")
    /\ files fs' !! fpath {| fpath := ["uploads"; "a.txt"]; offset := 0;
                             is_directory := false |}
       = Some (list_byte_of_string "hello")
    /\ ["uploads"; "b.txt"] ∈ synced fs'.
Proof.
  apply (safeCopyFile_copies 6 "uploads/a.txt" "uploads/b.txt"
           (Step09.server_fs [("a.txt", list_byte_of_string "hello")] 5)
           {| fpath := ["uploads"; "a.txt"]; offset := 0; is_directory := false |}
           ["uploads"; "b.txt"] (list_byte_of_string "hello")).
  - reflexivity.
  - reflexivity.
  - reflexivity.
  - reflexivity.
  - discriminate.
  - reflexivity.
  - reflexivity.
  - vm_compute; lia.
  - reflexivity.
  - vm_compute; lia.
Defined.

(** Copying a file onto itself: [os.Create] truncates the file the source
    handle reads from, nothing is copied, and [safeCopyFile] returns nil
    with the file left empty. *)
Theorem safeCopyFile_onto_itself_empties (fuel : nat) (name : string) (fs : FS)
    (sourceFile : File) :
  os_Open name fs = inr sourceFile -> is_directory sourceFile = false ->
  is_dir fs (removelast (fpath sourceFile)) = true ->
  sync_fault fs = false ->
  exists fs',
    safeCopyFile (S fuel) name name fs = Some (None, fs')
    /\ files fs' !! fpath sourceFile = Some []
    /\ fpath sourceFile ∈ synced fs'.
Proof.
  intros Hopen Hreg Hpd Hsync.
  destruct (os_Open_regular _ _ _ Hopen Hreg) as (Hres & Hoff & c & Hc).
  assert (Hnd : is_dir fs (fpath sourceFile) = false).
  { unfold os_Open in Hopen. rewrite Hres in Hopen.
    destruct (is_dir fs (fpath sourceFile)); [|done].
    injection Hopen as Hf. rewrite <- Hf in Hreg. discriminate Hreg. }
  unfold safeCopyFile. rewrite Hopen. unfold os_Create. rewrite Hres, Hnd, Hpd.
  cbn [negb]. unfold io_Copy. cbn [io_Copy_from].
  unfold Read at 1, File_Read.
  replace (copy_buffer_size =? 0)%nat with false by reflexivity.
  rewrite Hreg, Hoff. unfold content_of at 1. cbn [files fpath].
  rewrite lookup_insert_eq. cbn [default from_option]. unfold id.
  rewrite drop_0, take_nil.
  cbn [length Nat.ltb Nat.leb]. unfold File_Sync. cbn [sync_fault]. rewrite Hsync.
  eexists. split; [reflexivity|]. cbn.
  split; [apply lookup_insert_eq|].
  apply elem_of_union_r. by apply elem_of_singleton.
Qed.

Lemma safeCopyFile_onto_itself_empties_witness :
  exists fs',
    safeCopyFile 1 "uploads/a.txt" "uploads/a.txt"
      (Step09.server_fs [("a.txt", list_byte_of_string "hello")] 5)
    = Some (None, fs')
    /\ files fs' !! fpath {| fpath := ["uploads"; "a.txt"]; offset := 0;
                             is_directory := false |} = Some []
    /\ fpath {| fpath := ["uploads"; "a.txt"]; offset := 0; is_directory := false |}
       ∈ synced fs'.
Proof.
  exact (safeCopyFile_onto_itself_empties 0 "uploads/a.txt"
           (Step09.server_fs [("a.txt", list_byte_of_string "hello")] 5)
           {| fpath := ["uploads"; "a.txt"]; offset := 0; is_directory := false |}
           eq_refl eq_refl eq_refl eq_refl).
Defined.

(** [safeCopyFile] never leaves a failed copy behind: whenever it returns an
    error after having created the destination, no file is left at the
    destination; whenever it returns nil, the destination was synced. *)
Theorem safeCopyFile_rolls_back (fuel : nat) (src dst : string) (fs : FS) :
  match os_Open src fs, os_Create dst fs, safeCopyFile fuel src dst fs with
  | inr _, inr (destFile, _), Some (Some _, fs') => files fs' !! fpath destFile = None
  | inr _, inr (destFile, _), Some (None, fs') => fpath destFile ∈ synced fs'
  | _, _, _ => True
  end.
Proof.
  destruct (os_Open src fs) as [e|sourceFile] eqn:Hopen; [done|].
  destruct (os_Create dst fs) as [e|[destFile fs1]] eqn:Hcreate; [done|].
  destruct (safeCopyFile fuel src dst fs) as [[result fs']|] eqn:Hsafe; [|done].
  pose proof (safeCopyFile_rollback_and_sync fuel src dst fs fs' sourceFile destFile fs1
                result Hopen Hcreate Hsafe) as H.
  by destruct result.
Qed.

(** The device fills up during the copy: the error is returned and the
    destination is gone. *)
Example safeCopyFile_disk_full :
  match safeCopyFile 6 "uploads/a.txt" "uploads/b.txt"
          (Step09.server_fs [("a.txt", list_byte_of_string "hello")] 2) with
  | Some (result, fs') =>
      result = Some (Errorf "복사 실패" ErrNoSpace)
      /\ files fs' !! ["uploads"; "b.txt"] = None
  | None => False
  end.
Proof. vm_compute. by split. Qed.

(** [processFile] according to what [os.Open] and the one [Read] give. *)
Lemma processFile_by_cases (filename : string) (fs : FS) :
  match os_Open filename fs with
  | inl e =>
      processFile filename fs
      = (Some {| Filename := filename; Op := "open"; Err := e |}, [])
  | inr file =>
      if is_directory file
      then processFile filename fs
           = (Some {| Filename := filename; Op := "read"; Err := ErrIsDir |}, [])
      else exists c,
             files fs !! fpath file = Some c
             /\ processFile filename fs
                = (None, [take 1024 c ++ repeat x00 (1024 - length c)])
             /\ length (take 1024 c ++ repeat x00 (1024 - length c)) = 1024
  end.
Proof.
  unfold processFile.
  destruct (os_Open filename fs) as [e|file] eqn:Hopen; [done|].
  destruct (is_directory file) eqn:Hdir.
  - unfold Read, File_Read. cbn [Nat.eqb]. by rewrite Hdir.
  - destruct (os_Open_regular _ _ _ Hopen Hdir) as (_ & Hoff & c & Hc).
    exists c. split; [exact Hc|].
    destruct (File_Read_regular file 1024 fs c Hdir Hc) as (f' & Hread & _); [lia|].
    rewrite Hoff, drop_0 in Hread. rewrite Hread.
    assert (Hlen : 1024 - length (take 1024 c) = 1024 - length c).
    { rewrite length_take. lia. }
    rewrite Hlen.
    split.
    + by destruct c.
    + rewrite length_app, length_take, repeat_length. lia.
Qed.

(** What [processFile] does with a name: an [open] error when the name
    cannot be opened, a [read] error when it is a directory, and for a
    regular file no error, empty or not, with one line printed that is
    always 1024 bytes long: the first bytes of the file, then zero bytes. *)
Theorem processFile_outcomes (filename : string) (fs : FS) :
  match os_Open filename fs with
  | inl e =>
      processFile filename fs
      = (Some {| Filename := filename; Op := "open"; Err := e |}, [])
  | inr file =>
      if is_directory file
      then processFile filename fs
           = (Some {| Filename := filename; Op := "read"; Err := ErrIsDir |}, [])
      else exists c,
             files fs !! fpath file = Some c
             /\ processFile filename fs
                = (None, [take 1024 c ++ repeat x00 (1024 - length c)])
             /\ length (take 1024 c ++ repeat x00 (1024 - length c)) = 1024
  end.
Proof. exact (processFile_by_cases filename fs). Qed.

Lemma NotExistLine_no_DataLine (out : list (list byte)) :
  NotExistLine ∉ map DataLine out.
Proof.
  induction out as [|d out IH]; cbn; intros Hin.
  - by apply elem_of_nil in Hin.
  - apply elem_of_cons in Hin as [|Hin]; [done | by apply IH].
Qed.

(** [errors.Is(err, os.ErrNotExist)] on what [processFile] returns, for any
    name, holds exactly when [os.Open] failed with [os.ErrNotExist]: not
    when it failed otherwise (a file on the way of the path), and not for
    the error of the read. So [errorWrappingPattern] prints the line saying
    that the file does not exist exactly when opening [nonexistent.txt]
    fails with [os.ErrNotExist]. *)
Theorem errorWrappingPattern_not_exist (fs : FS) :
  (NotExistLine ∈ errorWrappingPattern fs
   <-> os_Open "nonexistent.txt" fs = inl ErrNotExist)
  /\ forall filename : string,
       match (processFile filename fs).1 with
       | Some fileErr =>
           errors_Is fileErr ErrNotExist = true
           <-> os_Open filename fs = inl ErrNotExist
       | None => exists file, os_Open filename fs = inr file
       end.
Proof.
  assert (Hany : forall filename : string,
            match (processFile filename fs).1 with
            | Some fileErr =>
                errors_Is fileErr ErrNotExist = true
                <-> os_Open filename fs = inl ErrNotExist
            | None => exists file, os_Open filename fs = inr file
            end).
  { intros filename. pose proof (processFile_by_cases filename fs) as Hout.
    destruct (os_Open filename fs) as [e|file] eqn:Hopen.
    - rewrite Hout. cbn [fst]. unfold errors_Is, Unwrap. cbn [Err].
      rewrite bool_decide_eq_true. split; [by intros -> | by intros [= ->]].
    - destruct (is_directory file).
      + rewrite Hout. cbn [fst]. unfold errors_Is, Unwrap. cbn [Err].
        rewrite bool_decide_eq_true. split; discriminate.
      + destruct Hout as (c & _ & -> & _). cbn [fst]. by exists file. }
  split; [|exact Hany].
  specialize (Hany "nonexistent.txt"). unfold errorWrappingPattern.
  destruct (processFile "nonexistent.txt" fs) as [[fileErr|] out] eqn:Hp; cbn [fst] in Hany.
  - rewrite <- Hany. rewrite !elem_of_app.
    destruct (errors_Is fileErr ErrNotExist).
    + split; [done|]. intros _. right. right. apply elem_of_cons. by left.
    + split; [|done]. intros [Hin|[Hin|Hin]].
      * by apply NotExistLine_no_DataLine in Hin.
      * apply elem_of_cons in Hin as [|Hin]; [done|]. by apply elem_of_nil in Hin.
      * by apply elem_of_nil in Hin.
  - destruct Hany as [file Hopen]. rewrite Hopen. split; [|discriminate].
    intros Hin. by apply NotExistLine_no_DataLine in Hin.
Qed.

End Step08MoreFacts.

(** ** step05: the custom reader and writer, the limit, the pipe on a file *)
Module Step05MoreFacts.
Import GoIO GoOS Step05 CopyFacts FileSourceFacts PipeFacts.

Section StreamToSink.

Context {W R S O : Type} `{!Reader W R, !Writer W S}.

(** A finite stream, as in [CopyFacts], in any world. *)
Variable remaining : R -> list byte -> Prop.

Hypothesis remaining_Read : forall r rest n w,
  remaining r rest -> 0 < n ->
  exists r',
    Read r n w = ((take n rest, match rest with [] => Some EOF | _ => None end), r', w)
    /\ remaining r' (drop n rest).

(** A sink that takes every write whole; what can be observed of it changes
    by [f], which treats two writes as one write of both. *)
Variable obs : S -> O.
Variable f : list byte -> O -> O.

Hypothesis accepts : forall s p w,
  exists s', Write s p w = ((length p, None), s', w) /\ obs s' = f p (obs s).
Hypothesis f_nil : forall x, f [] x = x.
Hypothesis f_app : forall a b x, f (a ++ b) x = f b (f a x).

Lemma io_Copy_stream_to_sink (fuel : nat) :
  forall (rest : list byte) (r : R) (dst : S) (w : W) (written : Z),
    remaining r rest -> length rest < fuel -> wrap64 written = written ->
    exists dst' r',
      io_Copy_from fuel written dst r w
      = Some ((wrap64 (written + Z.of_nat (length rest)), None), dst', r', w)
      /\ obs dst' = f rest (obs dst) /\ remaining r' [].
Proof.
  induction fuel as [|fuel IH]; intros rest r dst w written Hrem Hfuel Hw; [lia|].
  assert (Hbuf : 0 < copy_buffer_size) by (unfold copy_buffer_size; lia).
  destruct (remaining_Read r rest copy_buffer_size w Hrem Hbuf) as (r1 & Hread & Hrem1).
  cbn [io_Copy_from]. rewrite Hread.
  destruct rest as [|b rest].
  - rewrite take_nil. cbn [length Nat.ltb Nat.leb].
    exists dst, r1. rewrite Z.add_0_r, Hw, f_nil. by rewrite drop_nil in Hrem1.
  - set (data := take copy_buffer_size (b :: rest)) in *.
    assert (Hlen : 0 < length data <= length (b :: rest)).
    { unfold data. rewrite length_take. cbn [length]. lia. }
    assert (Hdata : data ++ drop copy_buffer_size (b :: rest) = b :: rest)
      by apply take_drop.
    assert (Hsplit : length (b :: rest)
                     = length data + length (drop copy_buffer_size (b :: rest))).
    { rewrite <- length_app. by rewrite Hdata. }
    replace (0 <? length data)%nat with true by (symmetry; apply Nat.ltb_lt; lia).
    destruct (accepts dst data w) as (dst1 & Hwrite & Hobs1).
    rewrite Hwrite.
    replace (length data <? length data)%nat with false
      by (symmetry; apply Nat.ltb_ge; lia).
    rewrite Nat.eqb_refl.
    destruct (IH (drop copy_buffer_size (b :: rest)) r1 dst1 w
                (wrap64 (written + Z.of_nat (length data))) Hrem1)
      as (dst2 & r2 & Hcopy & Hobs2 & Hrem2); [lia | apply wrap64_wrap64 |].
    exists dst2, r2. rewrite Hcopy, wrap64_idem.
    split; [by rewrite Hsplit, Nat2Z.inj_add, Z.add_assoc|].
    split; [|exact Hrem2].
    by rewrite Hobs2, Hobs1, <- f_app, Hdata.
Qed.

End StreamToSink.

Import LineNumberWriter.

Lemma numbered_app (a b : list byte) :
  forall number fresh,
    numbered number fresh (a ++ b)
    = numbered number fresh a
      ++ numbered (state_after number fresh a).1 (state_after number fresh a).2 b
    /\ state_after number fresh (a ++ b)
       = state_after (state_after number fresh a).1 (state_after number fresh a).2 b.
Proof.
  induction a as [|x a IH]; intros number fresh; cbn; [done|].
  destruct (IH (if fresh then wrap64 (number + 1) else number) (is_newline x)) as [-> ->].
  split; [|done]. by rewrite <- !app_assoc.
Qed.

(** The loop over a buffer as destination, from any point of the slice:
    what is in the buffer and what is still unflushed afterwards are the
    numbered text of the bytes visited, after what was there before. *)
Lemma loop_numbers {W : Type} (rest : list byte) :
  forall (pre : list byte) (written : nat) (l : t Buffer) (w : W),
    written <= length pre ->
    (newLine l = true -> written = length pre) ->
    exists written' l',
      loop (pre ++ rest) rest (length pre) written l w = (written', l', w)
      /\ written' <= length (pre ++ rest)
      /\ contents (dest l') ++ drop written' (pre ++ rest)
         = contents (dest l) ++ drop written pre
           ++ numbered (lineNumber l) (newLine l) rest
      /\ (lineNumber l', newLine l') = state_after (lineNumber l) (newLine l) rest.
Proof.
  induction rest as [|b rest IH]; intros pre written l w Hwritten Hfresh.
  - exists written, l. cbn [loop numbered state_after]. rewrite !app_nil_r.
    repeat split; done.
  - cbn [loop numbered state_after].
    replace (pre ++ b :: rest) with ((pre ++ [b]) ++ rest) by (by rewrite <- app_assoc).
    assert (Hlen : length (pre ++ [b]) = Datatypes.S (length pre))
      by (rewrite length_app; cbn; lia).
    assert (Hseg : take (length pre + 1 - written) (drop written ((pre ++ [b]) ++ rest))
                   = drop written (pre ++ [b])).
    { rewrite drop_app_le by lia. rewrite take_app_le by (rewrite length_drop; lia).
      apply take_ge. rewrite length_drop. lia. }
    assert (Hdrop : drop written (pre ++ [b]) = drop written pre ++ [b])
      by (apply drop_app_le; lia).
    destruct (newLine l) eqn:Hnl; destruct (is_newline b) eqn:Hb;
      cbn [Write Buffer_Write dest lineNumber newLine contents].
    + (* a line starts, and ends with this byte *)
      rewrite Hseg. specialize (Hfresh eq_refl). subst written.
      rewrite <- Hlen, Nat.add_1_r, <- Hlen.
      destruct (IH (pre ++ [b]) (length (pre ++ [b]))
                  {| dest := {| contents := (contents (dest l) ++ prefix (lineNumber l))
                                            ++ drop (length pre) (pre ++ [b]) |};
                     lineNumber := wrap64 (lineNumber l + 1); newLine := true |} w)
        as (written' & l' & Hloop & Hle & Hout & Hstate); [lia | done |].
      exists written', l'. rewrite Hloop. repeat split; [done.. | | done].
      rewrite Hout. cbn [dest contents lineNumber newLine].
      rewrite drop_app_length, !drop_all. cbn. by rewrite <- !app_assoc.
    + (* a line starts *)
      specialize (Hfresh eq_refl). subst written. rewrite <- Hlen.
      destruct (IH (pre ++ [b]) (length pre)
                  {| dest := {| contents := contents (dest l) ++ prefix (lineNumber l) |};
                     lineNumber := wrap64 (lineNumber l + 1); newLine := false |} w)
        as (written' & l' & Hloop & Hle & Hout & Hstate); [lia | done |].
      exists written', l'. rewrite Hloop. repeat split; [done.. | | done].
      rewrite Hout. cbn [dest contents lineNumber newLine].
      rewrite drop_app_length, drop_all. cbn. by rewrite <- !app_assoc.
    + (* inside a line that ends with this byte *)
      rewrite Hseg, Nat.add_1_r, <- Hlen.
      destruct (IH (pre ++ [b]) (length (pre ++ [b]))
                  {| dest := {| contents := contents (dest l) ++ drop written (pre ++ [b]) |};
                     lineNumber := lineNumber l; newLine := true |} w)
        as (written' & l' & Hloop & Hle & Hout & Hstate); [lia | done |].
      exists written', l'. rewrite Hloop. repeat split; [done.. | | done].
      rewrite Hout. cbn [dest contents lineNumber newLine].
      rewrite drop_all, Hdrop. cbn. by rewrite <- !app_assoc.
    + (* inside a line *)
      rewrite <- Hlen.
      destruct (IH (pre ++ [b]) written l w) as (written' & l' & Hloop & Hle & Hout & Hstate);
        [lia | by rewrite Hnl |].
      exists written', l'. rewrite Hloop. repeat split; [done.. | | by rewrite Hstate, Hnl].
      rewrite Hout, Hnl, Hdrop. cbn. by rewrite <- !app_assoc.
Qed.

(** [Write] into a buffer, as an equation. *)
Lemma Write_into_Buffer {W : Type} (l : t Buffer) (p : list byte) (w : W) :
  Write_ l p w
  = ((length p, None),
     {| dest := {| contents := contents (dest l)
                               ++ numbered (lineNumber l) (newLine l) p |};
        lineNumber := (state_after (lineNumber l) (newLine l) p).1;
        newLine := (state_after (lineNumber l) (newLine l) p).2 |},
     w).
Proof.
  unfold Write_.
  destruct (loop_numbers (W := W) p [] 0 l w) as (written' & l' & Hloop & Hle & Hout & Hstate);
    [cbn; lia | by intros _ |].
  cbn [app length] in Hloop, Hle, Hout. rewrite Hloop. rewrite drop_0 in Hout. cbn in Hout.
  destruct l' as [[c] number fresh]. cbn in Hout, Hstate.
  destruct (state_after (lineNumber l) (newLine l) p) as [number' fresh'].
  injection Hstate as -> ->.
  destruct (Nat.ltb_spec written' (length p)) as [Hlt|Hge].
  - cbn [Write Buffer_Write dest contents lineNumber newLine].
    rewrite length_drop, Hout. do 3 f_equal. lia.
  - rewrite drop_ge, app_nil_r in Hout by lia. subst c.
    do 3 f_equal. lia.
Qed.

(** One [Write] of a line-number writer whose destination takes everything:
    it reports all of [p] and no error, and the destination has received
    [p] with the line number put before the first byte of every line, the
    numbering going on from the writer's state. *)
Theorem LineNumberWriter_Write_numbers {W : Type} (l : t Buffer) (p : list byte) (w : W) :
  Write_ l p w
  = ((length p, None),
     {| dest := {| contents := contents (dest l)
                               ++ numbered (lineNumber l) (newLine l) p |};
        lineNumber := (state_after (lineNumber l) (newLine l) p).1;
        newLine := (state_after (lineNumber l) (newLine l) p).2 |},
     w).
Proof. exact (Write_into_Buffer l p w). Qed.

(** The numbering does not depend on how the text is cut into writes: two
    writes leave the writer and its destination as one write of both
    slices does. *)
Theorem LineNumberWriter_writes_compose {W : Type} (l : t Buffer) (a b : list byte)
    (w : W) :
  (Write_ (Write_ l a w).1.2 b w).1.2 = (Write_ l (a ++ b) w).1.2.
Proof.
  rewrite !Write_into_Buffer. cbn [fst snd dest contents lineNumber newLine].
  destruct (numbered_app a b (lineNumber l) (newLine l)) as [-> ->].
  by rewrite <- app_assoc.
Qed.

Lemma forallb_take {A : Type} (P : A -> bool) (n : nat) (xs : list A) :
  forallb P xs = true -> forallb P (take n xs) = true /\ forallb P (drop n xs) = true.
Proof.
  revert n. induction xs as [|x xs IH]; intros [|n] Hxs; cbn in *; try done.
  apply andb_true_iff in Hxs as [Hx Hxs]. rewrite Hx. cbn. by apply IH.
Qed.

Lemma upper_remaining_Read `{!Unicode} {W : Type} (u : UpperCaseReader BytesReader)
    (rest : list byte) (n : nat) (w : W) :
  upper_remaining u rest -> 0 < n ->
  exists u',
    Read u n w = ((take n rest, match rest with [] => Some EOF | _ => None end), u', w)
    /\ upper_remaining u' (drop n rest).
Proof.
  intros [Hascii ->] Hn. unfold Read at 1, UpperCaseReader_Read.
  unfold Read, BytesReader_Read.
  destruct (unread (source u)) as [|b raw] eqn:Hraw.
  - cbn. exists {| source := source u |}. rewrite take_nil, drop_nil.
    split; [done|]. split; cbn; by rewrite Hraw.
  - destruct (forallb_take is_ascii_byte n (b :: raw) Hascii) as [Htake Hdrop].
    set (data := take n (b :: raw)) in *.
    assert (Hupper : bytes_ToUpper data = map upper_byte data).
    { unfold bytes_ToUpper. by rewrite Htake. }
    rewrite Hupper.
    assert (Hlen : length data <= n) by (unfold data; rewrite length_take; lia).
    rewrite (take_ge (map upper_byte data)) by (rewrite length_map; lia).
    rewrite length_map, drop_all, app_nil_r.
    rewrite take_ge by (rewrite length_map; lia).
    eexists. split.
    + unfold data. by rewrite <- firstn_map.
    + split; [exact Hdrop | cbn [source unread]; by rewrite skipn_map].
Qed.

(** [customReaderWriterPattern] on ASCII text prints the text in upper case
    with its lines numbered from 1. *)
Theorem customReaderWriterPattern_prints `{!Unicode} (fuel : nat) (testData : list byte) :
  forallb is_ascii_byte testData = true ->
  length testData < fuel ->
  customReaderWriterPattern fuel testData
  = Some (numbered 1%Z true (map upper_byte testData)).
Proof.
  intros Hascii Hfuel. unfold customReaderWriterPattern, io_Copy.
  set (obs := fun l : t Buffer => (contents (dest l), lineNumber l, newLine l)).
  set (f := fun (p : list byte) (x : list byte * Z * bool) =>
              (x.1.1 ++ numbered x.1.2 x.2 p,
               (state_after x.1.2 x.2 p).1, (state_after x.1.2 x.2 p).2)).
  assert (Haccepts : forall (s : t Buffer) p (w : unit),
            exists s', Write s p w = ((length p, None), s', w) /\ obs s' = f p (obs s)).
  { intros l p w. eexists. split; [apply Write_into_Buffer|]. done. }
  assert (Hnil : forall x, f [] x = x).
  { intros [[c number] fresh]. unfold f. cbn. by rewrite app_nil_r. }
  assert (Happ : forall a b x, f (a ++ b) x = f b (f a x)).
  { intros a b [[c number] fresh]. unfold f. cbn [fst snd].
    destruct (numbered_app a b number fresh) as [-> ->]. by rewrite <- app_assoc. }
  destruct (io_Copy_stream_to_sink (W := unit) upper_remaining
              (fun r rest n w => upper_remaining_Read r rest n w)
              obs f Haccepts Hnil Happ
              fuel (map upper_byte testData)
              {| source := {| unread := testData |} |}
              {| dest := {| contents := [] |}; lineNumber := 1; newLine := true |}
              tt 0%Z)
    as (l' & u' & Hcopy & Hobs & _).
  - by split.
  - by rewrite length_map.
  - done.
  - rewrite Hcopy. unfold obs, f in Hobs. cbn in Hobs. by injection Hobs as -> _ _.
Qed.

Lemma customReaderWriterPattern_prints_witness :
  @customReaderWriterPattern (fun s => s) 9 (list_byte_of_string "ab")
  = Some (numbered 1%Z true (map upper_byte (list_byte_of_string "ab"))).
Proof.
  apply (@customReaderWriterPattern_prints (fun s => s) 9 (list_byte_of_string "ab")).
  - reflexivity.
  - vm_compute; lia.
Defined.

(** [limitReaderPattern]: whatever capacity [append] chooses, reading
    through the limit gives the first 100 bytes of the text (all of it when
    it is shorter), and the direct read that follows fills the 100-byte
    buffer with the next 100 bytes, the rest of the buffer staying zero:
    the limited reader moved the cursor of the shared reader. *)
Theorem limitReaderPattern_prints (grow : nat -> nat) (fuel : nat) (longText : list byte) :
  2 <= fuel ->
  limitReaderPattern grow fuel longText
  = Some (take 100 longText, min 100 (length longText),
          take 100 (drop 100 longText)
          ++ repeat x00 (100 - length (take 100 (drop 100 longText))),
          100).
Proof.
  intros Hfuel. destruct fuel as [|[|fuel]]; [lia|lia|].
  unfold limitReaderPattern, io_ReadAll.
  cbn [io_ReadAll_from app length]. rewrite Nat.sub_0_r.
  unfold Read at 1, LimitedReader_Read. cbn [lim_N lim_R].
  replace (100 <=? 0)%Z with false by reflexivity.
  replace (100 <? Z.of_nat 512)%Z with true by reflexivity.
  replace (Z.to_nat 100) with 100 by reflexivity.
  unfold Read at 1, BytesReader_Read. cbn [unread].
  destruct longText as [|c text].
  { cbn [lim_R]. unfold Read, BytesReader_Read. cbn [unread].
    rewrite take_nil, drop_nil, take_nil. cbn [length app]. by rewrite repeat_length. }
  set (longText := c :: text).
  set (data := take 100 longText).
  assert (Hdata : length data = min 100 (length longText)) by apply length_take.
  assert (Hpos : 0 < length data) by (rewrite Hdata; unfold longText; cbn [length]; lia).
  replace (length data =? 512) with false by (symmetry; apply Nat.eqb_neq; lia).
  rewrite wrap64_small by lia.
  assert (Hrest : forall rest : list byte,
            length (take 100 rest ++ repeat x00 (100 - length (take 100 rest))) = 100).
  { intros rest. rewrite length_app, repeat_length, length_take. lia. }
  unfold Read at 1, LimitedReader_Read. cbn [lim_N lim_R].
  destruct (Z.leb_spec (100 - Z.of_nat (length data)) 0) as [Hfull|Hshort].
  - cbn [lim_R]. rewrite app_nil_r, Hdata.
    unfold Read, BytesReader_Read. cbn [unread].
    destruct (drop 100 longText) as [|d rest] eqn:Hdrop.
    + rewrite take_nil. cbn [length app]. by rewrite repeat_length.
    + by rewrite Hrest.
  - assert (Hlen : length longText < 100) by lia.
    assert (Hdrop : drop 100 longText = []) by (apply drop_ge; lia).
    rewrite Hdrop. unfold Read at 1, BytesReader_Read. cbn [unread].
    cbn [lim_R]. rewrite app_nil_r, Hdata.
    unfold Read, BytesReader_Read; cbn [unread].
    rewrite take_nil; cbn [length app]; by rewrite repeat_length.
Qed.

Lemma payloads_snoc (program : list pipe_op) (b : list byte) :
  payloads (program ++ [PWrite b]) = payloads program ++ b.
Proof.
  unfold payloads. rewrite omap_app, concat_app. cbn. by rewrite app_nil_r.
Qed.

Lemma payloads_writes (chunks : list (list byte)) :
  payloads (map PWrite chunks) = concat chunks.
Proof.
  induction chunks as [|c chunks IH]; [done|].
  unfold payloads in *. cbn. by rewrite IH.
Qed.

(** Every run of the two goroutines on a program that closes ends with the
    consumer holding the program's bytes and the close error, and the
    scheduler's run does end. *)
Lemma consumer_returns (program : list pipe_op) (e : error) :
  close_error program = Some e ->
  (forall s received written err,
     rtc step (start program) s -> reading s = Returned received written err ->
     received = bytes_written program /\ err = copy_result e)
  /\ exists written,
       reading (run (weight (start program)) (start program))
       = Returned (bytes_written program) written (copy_result e).
Proof.
  intros Hclose.
  assert (Hsafe : forall s received written err,
            rtc step (start program) s -> reading s = Returned received written err ->
            received = bytes_written program /\ err = copy_result e).
  { intros s received written err Hrun Hread.
    apply pipe_inv_reachable in Hrun. unfold pipe_inv in Hrun. rewrite Hread in Hrun.
    destruct Hrun as (Hrec & _ & e' & He' & Herr).
    rewrite Hclose in He'. by injection He' as <-. }
  split; [exact Hsafe|].
  destruct (run_returns program (weight (start program)) (start program))
    as (received & written & err & Hret);
    [apply pipe_inv_start | by rewrite Hclose | lia |].
  destruct (Hsafe _ _ _ _ (run_steps _ _) Hret) as [-> ->].
  by exists written.
Qed.

(** The chunks a copy writes into the pipe are never empty. *)
Lemma io_Copy_PipeWriter_chunks {W R : Type} `{!Reader W R} (fuel : nat) :
  forall (written : Z) (pw : PipeWriter) (r : R) (w : W) res pw' r' w',
    io_Copy_from fuel written pw r w = Some (res, pw', r', w') ->
    exists chunks,
      ops pw' = ops pw ++ map PWrite chunks /\ Forall (fun b => 0 < length b) chunks.
Proof.
  induction fuel as [|fuel IH]; intros written pw r w res pw' r' w' Hcopy; [discriminate|].
  cbn [io_Copy_from] in Hcopy.
  destruct (Read r copy_buffer_size w) as [[[data er] r1] w1].
  destruct (Nat.ltb_spec 0 (length data)) as [Hpos|_].
  - unfold Write, PipeWriter_Write in Hcopy.
    rewrite Nat.ltb_irrefl, Nat.eqb_refl in Hcopy.
    destruct er as [[]|];
      try (injection Hcopy as <- <- <- <-; exists [data]; split;
           [reflexivity | by apply Forall_cons_2; [|apply Forall_nil_2]]).
    apply IH in Hcopy as (chunks & Hops & Hall). exists (data :: chunks).
    split; [|by apply Forall_cons_2].
    rewrite Hops. cbn. by rewrite <- app_assoc.
  - destruct er as [[]|];
      try (injection Hcopy as <- <- <- <-; exists []; cbn; split;
           [by rewrite app_nil_r | apply Forall_nil_2]).
    by apply IH in Hcopy.
Qed.

(** The program of the goroutine for a regular file: the file's bytes in
    chunks that are not empty, then the deferred close. *)
Lemma ioPipePattern_producer_file (fuel : nat) (fs : FS) (c : list byte) :
  files fs !! ["fake.log"] = Some c ->
  is_dir fs ["fake.log"] = false ->
  length c < fuel ->
  exists chunks,
    ioPipePattern_producer fuel fs = Some (map PWrite chunks ++ [PClose None])
    /\ concat chunks = c /\ Forall (fun b => 0 < length b) chunks.
Proof.
  intros Hc Hdir Hfuel.
  unfold ioPipePattern_producer, os_Open.
  replace (resolve fs "fake.log") with (Some ["fake.log"]) by reflexivity.
  rewrite Hdir, Hc. unfold producer, io_Copy.
  assert (Haccepts : forall (pw : PipeWriter) p (fs0 : FS),
            exists pw', Write pw p fs0 = ((length p, None), pw', fs0)
                        /\ payloads (ops pw') = payloads (ops pw) ++ p).
  { intros pw p fs0. eexists. split; [reflexivity|]. apply payloads_snoc. }
  destruct (io_Copy_file_to_sink (S := PipeWriter) (fun pw => payloads (ops pw))
              Haccepts fuel {| fpath := ["fake.log"]; offset := 0; is_directory := false |}
              {| ops := [] |} fs 0%Z c eq_refl Hc)
    as (pw' & f' & Hcopy & Hacc); [by rewrite drop_0 | done |].
  rewrite Hcopy.
  destruct (io_Copy_PipeWriter_chunks _ _ _ _ _ _ _ _ _ Hcopy) as (chunks & Hops & Hall).
  cbn [ops app] in Hops, Hacc. cbn [offset] in Hacc. rewrite drop_0 in Hacc.
  rewrite Hops, payloads_writes in Hacc.
  exists chunks. by rewrite Hops.
Qed.

(** The program of the goroutine when [fake.log] cannot be read. *)
Lemma ioPipePattern_producer_fault (fuel : nat) (fs : FS) :
  0 < fuel ->
  files fs !! ["fake.log"] = None \/ is_dir fs ["fake.log"] = true ->
  ioPipePattern_producer fuel fs
  = Some [PClose (Some (if is_dir fs ["fake.log"] then ErrIsDir else ErrNotExist));
          PClose None].
Proof.
  intros Hfuel Hbad. unfold ioPipePattern_producer, os_Open.
  replace (resolve fs "fake.log") with (Some ["fake.log"]) by reflexivity.
  destruct (is_dir fs ["fake.log"]) eqn:Hdir.
  - destruct fuel as [|fuel]; [lia|].
    unfold producer, io_Copy. cbn [io_Copy_from].
    unfold Read, File_Read. cbn [is_directory].
    replace (copy_buffer_size =? 0) with false
      by (symmetry; apply Nat.eqb_neq; unfold copy_buffer_size; lia).
    reflexivity.
  - destruct Hbad as [Hmissing|]; [|done]. by rewrite Hmissing.
Qed.

(** The goroutine looks at [fake.log] only: its program is the same on
    every file system with the same directories and the same [fake.log],
    so it does not matter how its reads fall among the writes of the main
    goroutine to [compressed.zip]. *)
Lemma ioPipePattern_producer_agree (fuel : nat) (fs fs' : FS) :
  dirs fs' = dirs fs ->
  files fs' !! ["fake.log"] = files fs !! ["fake.log"] ->
  ioPipePattern_producer fuel fs' = ioPipePattern_producer fuel fs.
Proof.
  intros Hdirs Hfile. unfold ioPipePattern_producer, os_Open.
  replace (resolve fs' "fake.log") with (Some ["fake.log"]) by reflexivity.
  replace (resolve fs "fake.log") with (Some ["fake.log"]) by reflexivity.
  replace (is_dir fs' ["fake.log"]) with (is_dir fs ["fake.log"])
    by (unfold is_dir; by rewrite Hdirs).
  rewrite Hfile.
  assert (Hagree : forall f : File,
            is_directory f = true \/ files fs' !! fpath f = files fs !! fpath f ->
            producer fuel (inr f) fs' = producer fuel (inr f) fs).
  { intros f Hsame. unfold producer, io_Copy.
    pose proof (io_Copy_from_file_agree (S := PipeWriter) (fun _ _ _ _ => eq_refl)
                  fuel 0%Z {| ops := [] |} f fs fs' Hsame) as Hcopy.
    destruct (io_Copy_from fuel 0 _ f fs) as [[[[[n1 e1] w1] f1] fs1]|],
             (io_Copy_from fuel 0 _ f fs') as [[[[[n2 e2] w2] f2] fs2]|]; try done.
    by destruct Hcopy as [[= -> ->] ->]. }
  destruct (is_dir fs ["fake.log"]); [apply Hagree; by left|].
  destruct (files fs !! ["fake.log"]) eqn:Hc; [|done].
  apply Hagree. right. cbn. congruence.
Qed.

Section PipeToSink.

Context {S : Type} `{!Writer FS S}.

(** A sink that takes every write whole; [fed] is what it was given, and
    its writes may change the file system. *)
Variable fed : S -> list byte.

Hypothesis accepts : forall s p fs,
  exists s' fs', Write s p fs = ((length p, None), s', fs') /\ fed s' = fed s ++ p.

(** [io.Copy] out of the pipe into such a sink: it passes on the bytes of
    the write under way and of the writes to come, up to the producer's
    first close, and returns the error of that close, nil for a plain one. *)
Lemma io_Copy_from_pipe (fuel : nat) :
  forall (pr : PipeReader) (chunks : list (list byte)) (err : option error)
         (rest : list pipe_op) (dst : S) (fs : FS) (written : Z),
    done (between pr) = false -> werr (between pr) = None ->
    coming pr = map PWrite chunks ++ PClose err :: rest ->
    reads_left pr <= fuel -> wrap64 written = written ->
    exists dst' pr' fs',
      io_Copy_from fuel written dst pr fs
      = Some ((wrap64 (written
                       + Z.of_nat (length (in_flight (between pr) ++ concat chunks))),
               copy_result (default EOF err)), dst', pr', fs')
      /\ fed dst' = fed dst ++ in_flight (between pr) ++ concat chunks.
Proof.
  induction fuel as [|fuel IH];
    intros pr chunks err rest dst fs written Hopen Hwerr Hcoming Hfuel Hw.
  { unfold reads_left in Hfuel. rewrite Hcoming in Hfuel.
    destruct chunks; cbn in Hfuel; lia. }
  assert (Hbuf : 0 < copy_buffer_size) by (unfold copy_buffer_size; lia).
  (* a read that takes from the slice [b], with [ops] left to the producer *)
  assert (Htaken : forall (b : list byte) (ops : list pipe_op) (chunks' : list (list byte)),
            ops = map PWrite chunks' ++ PClose err :: rest ->
            sum_list (map (fun op => match op with
                                     | PWrite b => Datatypes.S (length b)
                                     | PClose _ => 1
                                     end) ops) + length b <= fuel ->
            in_flight (between pr) ++ concat chunks = b ++ concat chunks' ->
            Read pr copy_buffer_size fs
            = ((take copy_buffer_size b, None),
               {| coming := ops;
                  between := {| wrCh := if (length b <=? copy_buffer_size)%nat then None
                                        else Some (drop copy_buffer_size b);
                                done := false; werr := werr (between pr) |} |}, fs) ->
            exists dst' pr' fs',
              io_Copy_from (Datatypes.S fuel) written dst pr fs
              = Some ((wrap64 (written
                         + Z.of_nat (length (in_flight (between pr) ++ concat chunks))),
                       copy_result (default EOF err)), dst', pr', fs')
              /\ fed dst' = fed dst ++ in_flight (between pr) ++ concat chunks).
  { intros b ops chunks' Hops Hbound Hbytes Hread.
    cbn [io_Copy_from]. rewrite Hread, Hbytes.
    set (pr1 := {| coming := ops; between := _ |}).
    assert (Hflight : in_flight (between pr1) = drop copy_buffer_size b).
    { unfold pr1, in_flight. cbn [between wrCh].
      destruct (Nat.leb_spec (length b) copy_buffer_size); [|done].
      cbn. by rewrite drop_ge. }
    assert (Hleft : reads_left pr1 <= fuel).
    { unfold reads_left, pr1. cbn [coming between wrCh].
      destruct (Nat.leb_spec (length b) copy_buffer_size); [lia|].
      rewrite length_drop. lia. }
    assert (Hsplit : length b = length (take copy_buffer_size b)
                                + length (drop copy_buffer_size b)).
    { rewrite <- length_app. by rewrite take_drop. }
    destruct (Nat.ltb_spec 0 (length (take copy_buffer_size b))) as [Hpos|Hnil].
    - destruct (accepts dst (take copy_buffer_size b) fs) as (dst1 & fs1 & Hwrite & Hfed1).
      rewrite Hwrite, Nat.ltb_irrefl, Nat.eqb_refl.
      destruct (IH pr1 chunks' err rest dst1 fs1
                  (wrap64 (written + Z.of_nat (length (take copy_buffer_size b)))))
        as (dst2 & pr2 & fs2 & Hcopy & Hfed2);
        [done | exact Hwerr | done | done | apply wrap64_wrap64 |].
      exists dst2, pr2, fs2. rewrite Hcopy, Hflight, wrap64_idem.
      split.
      + replace (written + Z.of_nat (length (take copy_buffer_size b))
                 + Z.of_nat (length (drop copy_buffer_size b ++ concat chunks')))%Z
          with (written + Z.of_nat (length (b ++ concat chunks')))%Z; [done|].
        rewrite !length_app. lia.
      + rewrite Hfed2, Hfed1, Hflight, <- !app_assoc. f_equal.
        by rewrite (app_assoc (take _ _)), take_drop.
    - assert (Hb : b = []).
      { destruct b as [|x b]; [done|]. rewrite length_take in Hnil. cbn [length] in Hnil. lia. }
      subst b. rewrite take_nil in *. rewrite drop_nil in Hflight.
      destruct (IH pr1 chunks' err rest dst fs written)
        as (dst2 & pr2 & fs2 & Hcopy & Hfed2); [done | exact Hwerr | done | done | done |].
      exists dst2, pr2, fs2. rewrite Hcopy, Hflight. by split. }
  destruct (wrCh (between pr)) as [b|] eqn:Hwr.
  - apply (Htaken b (coming pr) chunks Hcoming).
    + unfold reads_left in Hfuel. rewrite Hwr in Hfuel. lia.
    + unfold in_flight. by rewrite Hwr.
    + unfold Read, PipeReader_Read. by rewrite Hopen, Hwr.
  - destruct chunks as [|b chunks].
    + (* the producer closes *)
      cbn [map app] in Hcoming. cbn [io_Copy_from].
      unfold Read, PipeReader_Read. rewrite Hopen, Hwr, Hcoming.
      unfold in_flight. rewrite Hwr. cbn [default from_option concat app length Nat.ltb Nat.leb].
      unfold id. rewrite Z.add_0_r, Hw, app_nil_r.
      exists dst, {| coming := rest; between := closeWrite err (between pr) |}, fs.
      split; [|done].
      unfold readCloseError, closeWrite. cbn [werr]. rewrite Hwerr.
      cbn [default from_option]. unfold id, copy_result.
      by destruct (from_option (fun x : error => x) EOF err).
    + cbn [map app] in Hcoming.
      apply (Htaken b (map PWrite chunks ++ PClose err :: rest) chunks eq_refl).
      * unfold reads_left in Hfuel. rewrite Hcoming, Hwr in Hfuel. cbn in Hfuel. lia.
      * unfold in_flight. by rewrite Hwr.
      * unfold Read, PipeReader_Read. by rewrite Hopen, Hwr, Hcoming.
Qed.

End PipeToSink.

Lemma reads_left_chunks (chunks : list (list byte)) (err : option error) :
  Forall (fun b : list byte => 0 < length b) chunks ->
  reads_left (pipe_of (map PWrite chunks ++ [PClose err])) <= 2 * length (concat chunks) + 1.
Proof.
  unfold reads_left, pipe_of. cbn [coming between shared start wrCh].
  induction 1 as [|b chunks Hb _ IH]; cbn [map app concat sum_list sum_list_with];
    [cbn; lia|].
  rewrite length_app. unfold id.
  change (sum_list_with (fun x : nat => x)) with sum_list.
  set (total := sum_list _) in *. lia.
Qed.

Section IoPipePattern.

Context {G : Type} `{!Writer FS G}.
Variable gzip_NewWriter : File -> G.
Variable gzip_Close : G -> FS -> FS.

(** What the compressor was given, for a compressor that takes every write. *)
Variable fed : G -> list byte.

Hypothesis gzip_accepts : forall g p fs,
  exists g' fs', Write g p fs = ((length p, None), g', fs') /\ fed g' = fed g ++ p.

(** [ioPipePattern] with a regular file [fake.log] and a compressor that
    takes every write. When [compressed.zip] cannot be created the function
    returns at once and no copy is started; otherwise the copy in the main
    goroutine gives the compressor exactly the file's bytes and the count
    printed is their number. The goroutine's program is the same wherever
    its reads fall among the main goroutine's writes, and under every
    interleaving of the two goroutines the copy receives the file's bytes
    and no error. *)
Theorem ioPipePattern_streams_file (fuel : nat) (fs : FS) (c : list byte) :
  files fs !! ["fake.log"] = Some c ->
  is_dir fs ["fake.log"] = false ->
  2 * length c + 1 < fuel ->
  match os_Create "compressed.zip" fs with
  | inl e => ioPipePattern gzip_NewWriter gzip_Close fuel fs = Some (CreateFailed e, fs)
  | inr (outFile, fs1) =>
      exists gzipWriter fs2,
        ioPipePattern gzip_NewWriter gzip_Close fuel fs
        = Some (Compressed (wrap64 (Z.of_nat (length c))), gzip_Close gzipWriter fs2)
        /\ fed gzipWriter = fed (gzip_NewWriter outFile) ++ c
  end
  /\ exists program,
       ioPipePattern_producer fuel fs = Some program
       /\ (forall fs', dirs fs' = dirs fs ->
             files fs' !! ["fake.log"] = Some c ->
             ioPipePattern_producer fuel fs' = Some program)
       /\ (forall s received written err,
             rtc step (start program) s -> reading s = Returned received written err ->
             received = c /\ err = None).
Proof.
  intros Hc Hdir Hfuel.
  destruct (ioPipePattern_producer_file fuel fs c Hc Hdir) as (chunks & Hprogram & Hcat & Hall);
    [lia|].
  split.
  - unfold ioPipePattern. destruct (os_Create "compressed.zip" fs) as [e|[outFile fs1]]; [done|].
    rewrite Hprogram. unfold io_Copy.
    destruct (io_Copy_from_pipe fed gzip_accepts fuel
                (pipe_of (map PWrite chunks ++ [PClose None])) chunks None []
                (gzip_NewWriter outFile) fs1 0%Z)
      as (gz & pr' & fs2 & Hcopy & Hfed); [done | done | done | | done |].
    { pose proof (reads_left_chunks chunks None Hall). rewrite Hcat in *. lia. }
    cbn [pipe_of between shared start in_flight wrCh default from_option app] in Hcopy, Hfed.
    unfold id in Hcopy. rewrite Hcat, Z.add_0_l, copy_result_EOF in Hcopy.
    rewrite Hcopy. exists gz, fs2. by rewrite Hcat in Hfed.
  - exists (map PWrite chunks ++ [PClose None]). split; [exact Hprogram|]. split.
    + intros fs' Hdirs Hc'. rewrite <- Hprogram.
      apply ioPipePattern_producer_agree; [done | congruence].
    + destruct (bytes_written_writes chunks None []) as [Hbytes Herr].
      destruct (consumer_returns _ _ Herr) as [Hsafe _].
      rewrite Hbytes, Hcat in Hsafe. cbn [default from_option] in Hsafe.
      unfold id in Hsafe. by rewrite copy_result_EOF in Hsafe.
Qed.

(** [ioPipePattern] when [fake.log] is missing or is a directory. When
    [compressed.zip] cannot be created the function returns at once;
    otherwise the goroutine closes the pipe with the error, the copy in the
    main goroutine gives the compressor nothing and returns that error, and
    so it does under every interleaving of the two goroutines. *)
Theorem ioPipePattern_passes_on_error (fuel : nat) (fs : FS) :
  0 < fuel ->
  files fs !! ["fake.log"] = None \/ is_dir fs ["fake.log"] = true ->
  let e := if is_dir fs ["fake.log"] then ErrIsDir else ErrNotExist in
  match os_Create "compressed.zip" fs with
  | inl e' => ioPipePattern gzip_NewWriter gzip_Close fuel fs = Some (CreateFailed e', fs)
  | inr (outFile, fs1) =>
      ioPipePattern gzip_NewWriter gzip_Close fuel fs
      = Some (CopyFailed e, gzip_Close (gzip_NewWriter outFile) fs1)
  end
  /\ exists program,
       ioPipePattern_producer fuel fs = Some program
       /\ (forall s received written err,
             rtc step (start program) s -> reading s = Returned received written err ->
             received = [] /\ err = Some e).
Proof.
  intros Hfuel Hbad e.
  pose proof (ioPipePattern_producer_fault fuel fs Hfuel Hbad) as Hprogram. fold e in Hprogram.
  assert (Hfault : copy_result e = Some e).
  { apply copy_result_fault. unfold e. by destruct (is_dir fs ["fake.log"]). }
  split.
  - unfold ioPipePattern. destruct (os_Create "compressed.zip" fs) as [e'|[outFile fs1]]; [done|].
    rewrite Hprogram. destruct fuel as [|fuel]; [lia|].
    unfold io_Copy. cbn [io_Copy_from]. unfold Read, PipeReader_Read.
    cbn [pipe_of between shared start done wrCh coming].
    unfold readCloseError, closeWrite. cbn [werr default from_option length Nat.ltb Nat.leb].
    unfold id. clear Hprogram Hfault. subst e. by destruct (is_dir fs ["fake.log"]).
  - exists [PClose (Some e); PClose None]. split; [exact Hprogram|].
    destruct (consumer_returns [PClose (Some e); PClose None] e eq_refl) as [Hsafe _].
    by rewrite Hfault in Hsafe.
Qed.

End IoPipePattern.

(** A buffer in place of the compressor takes every write. *)
Lemma Buffer_accepts (g : Buffer) (p : list byte) (fs : FS) :
  exists g' fs', Write g p fs = ((length p, None), g', fs') /\ contents g' = contents g ++ p.
Proof. by eexists _, fs. Qed.

Lemma ioPipePattern_streams_file_witness :
  match os_Create "compressed.zip" (log_fs (list_byte_of_string "abc")) with
  | inl e =>
      ioPipePattern (fun _ => {| contents := [] |}) (fun _ fs => fs) 8
        (log_fs (list_byte_of_string "abc")) = Some (CreateFailed e, log_fs (list_byte_of_string "abc"))
  | inr (outFile, fs1) =>
      exists gzipWriter fs2,
        ioPipePattern (fun _ => {| contents := [] |}) (fun _ fs => fs) 8
          (log_fs (list_byte_of_string "abc"))
        = Some (Compressed (wrap64 (Z.of_nat (length (list_byte_of_string "abc")))), fs2)
        /\ contents gzipWriter = [] ++ list_byte_of_string "abc"
  end
  /\ exists program,
       ioPipePattern_producer 8 (log_fs (list_byte_of_string "abc")) = Some program
       /\ (forall fs', dirs fs' = dirs (log_fs (list_byte_of_string "abc")) ->
             files fs' !! ["fake.log"] = Some (list_byte_of_string "abc") ->
             ioPipePattern_producer 8 fs' = Some program)
       /\ (forall s received written err,
             rtc step (start program) s -> reading s = Returned received written err ->
             received = list_byte_of_string "abc" /\ err = None).
Proof.
  apply (ioPipePattern_streams_file (G := Buffer) (fun _ => {| contents := [] |})
           (fun _ fs => fs) contents
           Buffer_accepts
           8 (log_fs (list_byte_of_string "abc")) (list_byte_of_string "abc")).
  - reflexivity.
  - reflexivity.
  - vm_compute; lia.
Defined.

Lemma ioPipePattern_passes_on_error_witness :
  match os_Create "compressed.zip" (Step09.server_fs [] 0) with
  | inl e' =>
      ioPipePattern (fun _ => {| contents := [] |}) (fun _ fs => fs) 1
        (Step09.server_fs [] 0) = Some (CreateFailed e', Step09.server_fs [] 0)
  | inr (outFile, fs1) =>
      ioPipePattern (fun _ => {| contents := [] |}) (fun _ fs => fs) 1
        (Step09.server_fs [] 0) = Some (CopyFailed ErrNotExist, fs1)
  end
  /\ exists program,
       ioPipePattern_producer 1 (Step09.server_fs [] 0) = Some program
       /\ (forall s received written err,
             rtc step (start program) s -> reading s = Returned received written err ->
             received = [] /\ err = Some ErrNotExist).
Proof.
  apply (ioPipePattern_passes_on_error (G := Buffer) (fun _ => {| contents := [] |})
           (fun _ fs => fs) 1 (Step09.server_fs [] 0)).
  - lia.
  - left. reflexivity.
Defined.

(** [teeReaderPattern] when [tee_reader.txt] cannot be created, for every
    input: the error of [os.Create] is dropped and the copy into the nil
    file fails before anything is read, so the hash absorbs nothing: the
    program prints the checksum of no bytes and zero bytes written, and the
    file system is as it was. *)
Theorem teeReaderPattern_create_fails (md5 : list byte -> list byte) (fuel : nat)
    (data : list byte) (fs : FS) :
  is_dir fs ["tee_reader.txt"] = true ->
  teeReaderPattern md5 fuel data fs
  = Some ({| checksum := md5 []; written := 0; mirrored := [] |}, fs).
Proof.
  intros Hdir. unfold teeReaderPattern, os_Create.
  replace (resolve fs "tee_reader.txt") with (Some ["tee_reader.txt"]) by reflexivity.
  by rewrite Hdir.
Qed.

Lemma teeReaderPattern_create_fails_witness :
  teeReaderPattern (fun bs => rev bs) 0 (list_byte_of_string "tee") tee_dir_fs
  = Some ({| checksum := rev []; written := 0; mirrored := [] |}, tee_dir_fs).
Proof.
  apply (teeReaderPattern_create_fails (fun bs => rev bs) 0 (list_byte_of_string "tee")
           tee_dir_fs).
  reflexivity.
Defined.

Lemma limitReaderPattern_prints_witness :
  limitReaderPattern (fun cap => 2 * cap) 2 (list_byte_of_string "Hello, World! ")
  = Some (take 100 (list_byte_of_string "Hello, World! "),
          min 100 (length (list_byte_of_string "Hello, World! ")),
          take 100 (drop 100 (list_byte_of_string "Hello, World! "))
          ++ repeat x00
               (100 - length (take 100 (drop 100 (list_byte_of_string "Hello, World! ")))),
          100).
Proof.
  apply (limitReaderPattern_prints (fun cap => 2 * cap) 2
           (list_byte_of_string "Hello, World! ")).
  lia.
Defined.

(** One [Read] of the upper-casing reader over a reader that keeps the
    contract: the count and the error are the inner read's; ASCII bytes
    that come without an error are returned in upper case; bytes that come
    together with an error, [EOF] included, are returned as they are, not
    upper-cased. *)
Theorem UpperCaseReader_Read_cases `{!Unicode} {W R : Type} `{!Reader W R}
    (u : UpperCaseReader R) (n : nat) (w : W) :
  (forall (r : R) m (w0 : W), length (Read r m w0).1.1.1 <= m) ->
  let '((data, err), _, _) := Read (source u) n w in
  let '((out, err'), _, _) := Read u n w in
  err' = err
  /\ length out = length data
  /\ (err <> None -> out = data)
  /\ (err = None -> forallb is_ascii_byte data = true -> out = map upper_byte data).
Proof.
  intros Hcontract. pose proof (Hcontract (source u) n w) as Hlen.
  unfold Read at 2, UpperCaseReader_Read.
  destruct (Read (source u) n w) as [[[data err] r1] w1]. cbn [fst] in Hlen.
  destruct err as [e|].
  - by repeat split.
  - split; [done|].
    assert (Hout : length (take (length data)
                     (take n (bytes_ToUpper data)
                      ++ drop (length (take n (bytes_ToUpper data))) data))
                   = length data).
    { rewrite length_take, length_app, length_drop. lia. }
    split; [exact Hout|]. split; [done|]. intros _ Hascii.
    unfold bytes_ToUpper. rewrite Hascii.
    rewrite (take_ge (map upper_byte data)) by (rewrite length_map; lia).
    rewrite length_map, drop_all, app_nil_r.
    apply take_ge. by rewrite length_map.
Qed.

Lemma UpperCaseReader_Read_cases_witness :
  let u := {| source := {| script := [(list_byte_of_string "end", Some EOF)] |} |} in
  let '((data, err), _, _) := Read (source u) 8 tt in
  let '((out, err'), _, _) := @Read unit _ (@UpperCaseReader_Read _ _ (fun s => s) _) u 8 tt in
  err' = err
  /\ length out = length data
  /\ (err <> None -> out = data)
  /\ (err = None -> forallb is_ascii_byte data = true -> out = map upper_byte data).
Proof.
  apply (@UpperCaseReader_Read_cases (fun s => s) unit ScriptReader _
           {| source := {| script := [(list_byte_of_string "end", Some EOF)] |} |} 8 tt).
  intros r m w0. unfold Read, ScriptReader_Read.
  destruct (script r) as [|[data err] rest]; cbn [fst length]; [lia|].
  destruct (Nat.ltb_spec m (length data)); cbn [fst]; [rewrite length_take|]; lia.
Defined.

End Step05MoreFacts.

(** ** A device that fills up during a copy *)
Module DiskFullFacts.
Import GoIO GoOS Step09 Step05 CopyFacts UploadFacts TeeFacts.

(** A write at the end of a file that does not fit: the bytes that fit are
    stored, the device is full afterwards, and [ENOSPC] is reported. *)
Lemma File_Write_short (f : File) (fs : FS) (c p : list byte) :
  at_end f fs c -> free fs < length p ->
  exists f' fs',
    Write f p fs = ((free fs, Some ErrNoSpace), f', fs')
    /\ at_end f' fs' (c ++ take (free fs) p) /\ fpath f' = fpath f
    /\ free fs' = 0
    /\ dirs fs' = dirs fs
    /\ (forall q, q <> fpath f -> files fs' !! q = files fs !! q).
Proof.
  intros (Hdir & Hc & Hoff) Hroom.
  unfold Write, File_Write. rewrite Hdir, Hoff.
  unfold content_of. rewrite Hc. cbn [default from_option]. unfold id.
  replace (free fs + (length c - length c)) with (free fs) by lia.
  rewrite Nat.min_r by lia.
  replace (free fs <? length p)%nat with true by (symmetry; apply Nat.ltb_lt; lia).
  rewrite firstn_all, drop_ge, app_nil_r by lia.
  eexists _, _. split; [reflexivity|]. cbn.
  split; [|split; [done|split; [|split; [done|]]]].
  - split; [done|]. cbn. split; [by rewrite lookup_insert_eq|].
    rewrite length_app, length_take. lia.
  - rewrite length_app, length_take. lia.
  - intros q Hq. by rewrite lookup_insert_ne.
Qed.

Section ShortOfRoom.

Context {R : Type} `{!Reader FS R}.

Variable remaining : R -> list byte -> Prop.

Hypothesis remaining_Read : forall r rest n fs,
  remaining r rest -> 0 < n ->
  exists r',
    Read r n fs = ((take n rest, match rest with [] => Some EOF | _ => None end), r', fs)
    /\ remaining r' (drop n rest).

(** [io.Copy] from a finite stream into a file on a device with less room
    than the stream is long: the copy stops with [ENOSPC] and the count of
    the bytes that fitted; the file holds exactly those; the source was
    read further than that. *)
Lemma io_Copy_stream_disk_full (fuel : nat) :
  forall (rest c : list byte) (r : R) (f : File) (fs : FS) (written : Z),
    remaining r rest -> at_end f fs c -> free fs < length rest ->
    length rest < fuel -> wrap64 written = written ->
    exists f' r' fs' consumed,
      io_Copy_from fuel written f r fs
        = Some ((wrap64 (written + Z.of_nat (free fs)), Some ErrNoSpace), f', r', fs')
      /\ remaining r' (drop consumed rest)
      /\ free fs < consumed <= length rest
      /\ at_end f' fs' (c ++ take (free fs) rest) /\ fpath f' = fpath f
      /\ free fs' = 0
      /\ dirs fs' = dirs fs
      /\ (forall q, q <> fpath f -> files fs' !! q = files fs !! q).
Proof.
  induction fuel as [|fuel IH]; intros rest c r f fs written Hrem Hend Hroom Hfuel Hw; [lia|].
  assert (Hbuf : 0 < copy_buffer_size) by (unfold copy_buffer_size; lia).
  destruct (remaining_Read r rest copy_buffer_size fs Hrem Hbuf) as (r1 & Hread & Hrem1).
  cbn [io_Copy_from]. rewrite Hread.
  destruct rest as [|b rest]; [cbn [length] in Hroom; lia|].
  set (whole := b :: rest) in *.
  set (data := take copy_buffer_size whole) in *.
  assert (Hlen : length data = min copy_buffer_size (length whole)) by apply length_take.
  assert (Hpos : 0 < length data) by (rewrite Hlen; unfold whole; cbn [length]; lia).
  assert (Hdata : data ++ drop copy_buffer_size whole = whole) by apply take_drop.
  assert (Hsplit : length whole = length data + length (drop copy_buffer_size whole)).
  { rewrite <- length_app. by rewrite Hdata. }
  replace (0 <? length data)%nat with true by (symmetry; apply Nat.ltb_lt; lia).
  destruct (Nat.le_gt_cases (length data) (free fs)) as [Hfits|Hshort].
  - assert (Hfull : length data = copy_buffer_size) by lia.
    destruct (File_Write_at_end f fs c data Hend Hfits) as
      (f1 & fs1 & Hwrite & Hend1 & Hpath1 & Hfree1 & Hdirs1 & _ & Hframe1).
    rewrite Hwrite.
    replace (length data <? length data)%nat with false
      by (symmetry; apply Nat.ltb_ge; lia).
    rewrite Nat.eqb_refl.
    destruct (IH (drop copy_buffer_size whole) (c ++ data) r1 f1 fs1
                (wrap64 (written + Z.of_nat (length data))))
      as (f2 & r2 & fs2 & consumed & Hcopy & Hrem2 & Hcons & Hend2 & Hpath2 & Hfree2
          & Hdirs2 & Hframe2);
      [done | done | lia | lia | apply wrap64_wrap64 |].
    exists f2, r2, fs2, (copy_buffer_size + consumed). rewrite Hcopy.
    split.
    { rewrite wrap64_idem.
      by replace (written + Z.of_nat (length data) + Z.of_nat (free fs1))%Z
        with (written + Z.of_nat (free fs))%Z by lia. }
    split; [by rewrite <- drop_drop|].
    split; [lia|].
    rewrite Hpath1 in Hpath2, Hframe2.
    split.
    { replace (free fs) with (copy_buffer_size + free fs1) by lia.
      rewrite <- take_take_drop, app_assoc. exact Hend2. }
    split; [exact Hpath2|].
    split; [exact Hfree2|].
    split; [congruence|].
    intros q Hq. by rewrite Hframe2, Hframe1.
  - destruct (File_Write_short f fs c data Hend Hshort) as
      (f1 & fs1 & Hwrite & Hend1 & Hpath1 & Hfree1 & Hdirs1 & Hframe1).
    rewrite Hwrite.
    replace (length data <? free fs)%nat with false
      by (symmetry; apply Nat.ltb_ge; lia).
    exists f1, r1, fs1, (length data).
    split; [reflexivity|].
    split.
    { destruct (Nat.le_gt_cases copy_buffer_size (length whole)) as [Hle|Hgt].
      - replace (length data) with copy_buffer_size by lia. exact Hrem1.
      - replace (length data) with (length whole) by lia.
        rewrite drop_all. by rewrite drop_ge in Hrem1 by lia. }
    split; [lia|].
    split.
    { unfold data in Hend1. rewrite take_take in Hend1.
      replace (free fs `min` copy_buffer_size) with (free fs) in Hend1 by lia.
      exact Hend1. }
    done.
Qed.

End ShortOfRoom.

(** [uploadHandler] when the part is longer than the room the device has
    once the old file is truncated: the handler answers 500 and logs
    nothing, and the destination is left behind holding the bytes that
    fitted; no other file changed. *)
Theorem uploadHandler_disk_full (fuel : nat) (name : string) (content : list byte)
    (w : ResponseWriter) (fs : FS) (p : list string) :
  status w = None ->
  resolve fs ("uploads/" +:+ name) = Some p ->
  is_dir fs p = false -> is_dir fs (removelast p) = true ->
  free fs + length (content_of fs p) < length content ->
  length content < fuel ->
  exists w' fs',
    uploadHandler fuel (upload_request name content) w fs = Some (w', fs', [])
    /\ statusCode w' = StatusInternalServerError
    /\ files fs' !! p = Some (take (free fs + length (content_of fs p)) content)
    /\ free fs' = 0
    /\ (forall q, q <> p -> files fs' !! q = files fs !! q).
Proof.
  intros Hw Hres Hnd Hpd Hroom Hfuel.
  destruct (os_Create_ok _ _ _ Hres Hnd Hpd)
    as (dst & fs1 & Hcreate & Hpath & Hend & Hfree1 & Hdirs1 & Hsync1 & Hframe1).
  destruct (io_Copy_stream_disk_full (fun r rest => unread r = rest)
              (fun r rest n fs0 => BytesReader_remaining r rest n fs0)
              fuel content [] {| unread := content |} dst fs1 0%Z)
    as (dst2 & r2 & fs2 & consumed & Hcopy & _ & _ & Hend2 & Hpath2 & Hfree2 & _ & Hframe2);
    [done | done | lia | done | done |].
  eexists _, fs2. unfold uploadHandler.
  destruct (FormFile_upload_request name content) as [-> ->].
  cbn [Method upload_request String.eqb Ascii.eqb Bool.eqb negb Filename].
  rewrite Hcreate. unfold io_Copy. rewrite Hcopy.
  split; [reflexivity|].
  split; [by apply statusCode_http_Error|].
  destruct Hend2 as (_ & Hc & _). rewrite Hpath2, Hpath, Hfree1 in Hc.
  rewrite Hpath in Hframe2.
  split; [exact Hc|]. split; [exact Hfree2|].
  intros q Hq. by rewrite Hframe2, Hframe1.
Qed.

Lemma uploadHandler_disk_full_witness :
  exists w' fs',
    uploadHandler 13 (upload_request "big.bin" (list_byte_of_string "abcdefghijkl"))
      fresh (server_fs [] 5) = Some (w', fs', [])
    /\ statusCode w' = StatusInternalServerError
    /\ files fs' !! ["uploads"; "big.bin"]
       = Some (take (free (server_fs [] 5)
                     + length (content_of (server_fs [] 5) ["uploads"; "big.bin"]))
                 (list_byte_of_string "abcdefghijkl"))
    /\ free fs' = 0
    /\ (forall q, q <> ["uploads"; "big.bin"] ->
          files fs' !! q = files (server_fs [] 5) !! q).
Proof.
  apply (uploadHandler_disk_full 13 "big.bin" (list_byte_of_string "abcdefghijkl")
           fresh (server_fs [] 5) ["uploads"; "big.bin"]).
  - reflexivity.
  - reflexivity.
  - reflexivity.
  - reflexivity.
  - vm_compute; lia.
  - vm_compute; lia.
Defined.

(** [teeReaderPattern] on a device with less room than the input is long:
    the file ends up with the bytes that fitted and the count printed is
    their number, while the hash has absorbed more of the input than the
    file holds, so the checksum printed is not the file's. *)
Theorem teeReaderPattern_disk_full (md5 : list byte -> list byte)
    (fuel : nat) (data : list byte) (fs : FS) :
  is_dir fs ["tee_reader.txt"] = false ->
  free fs + length (content_of fs ["tee_reader.txt"]) < length data ->
  length data < fuel ->
  let room := free fs + length (content_of fs ["tee_reader.txt"]) in
  exists report fs' absorbed,
    teeReaderPattern md5 fuel data fs = Some (report, fs')
    /\ files fs' !! ["tee_reader.txt"] = Some (take room data)
    /\ written report = wrap64 (Z.of_nat room)
    /\ mirrored report = take absorbed data
    /\ checksum report = md5 (take absorbed data)
    /\ room < absorbed <= length data.
Proof.
  intros Hnd Hroom Hfuel room.
  destruct (os_Create_ok "tee_reader.txt" fs ["tee_reader.txt"] eq_refl Hnd eq_refl)
    as (file & fs1 & Hcreate & Hpath & Hend & Hfree1 & _).
  destruct (io_Copy_stream_disk_full (tee_remaining data) (tee_remaining_Read data)
              fuel data [] {| tee_r := {| unread := data |}; tee_w := md5_New |}
              file fs1 0%Z)
    as (file2 & t2 & fs2 & consumed & Hcopy & [Hunread Habs] & Hcons & Hend2 & Hpath2 & _);
    [by split | done | lia | done | done |].
  unfold teeReaderPattern. rewrite Hcreate. unfold io_Copy. rewrite Hcopy.
  destruct Hend2 as (_ & Hc & _). rewrite Hpath2, Hpath, Hfree1 in Hc.
  assert (Habsorbed : absorbed (tee_w t2) = take consumed data).
  { apply (app_inv_tail (drop consumed data)). by rewrite Habs, take_drop. }
  eexists _, fs2, consumed. split; [reflexivity|]. cbn [written mirrored checksum].
  split; [exact Hc|].
  split.
  { by rewrite Hfree1, Z.add_0_l. }
  split; [exact Habsorbed|].
  split; [unfold Hash_Sum; by rewrite Habsorbed|].
  fold room. lia.
Qed.

Lemma teeReaderPattern_disk_full_witness :
  let room := free (server_fs [] 3)
              + length (content_of (server_fs [] 3) ["tee_reader.txt"]) in
  exists report fs' absorbed,
    teeReaderPattern (fun bs => rev bs) 7 (list_byte_of_string "teeabc") (server_fs [] 3)
    = Some (report, fs')
    /\ files fs' !! ["tee_reader.txt"] = Some (take room (list_byte_of_string "teeabc"))
    /\ written report = wrap64 (Z.of_nat room)
    /\ mirrored report = take absorbed (list_byte_of_string "teeabc")
    /\ checksum report = rev (take absorbed (list_byte_of_string "teeabc"))
    /\ room < absorbed <= length (list_byte_of_string "teeabc").
Proof.
  apply (teeReaderPattern_disk_full (fun bs => rev bs) 7 (list_byte_of_string "teeabc")
           (server_fs [] 3)).
  - reflexivity.
  - vm_compute; lia.
  - vm_compute; lia.
Defined.

End DiskFullFacts.

(** ** [chunkedFilePattern] on the file system *)
Module FileOpsMoreFacts.
Import GoIO GoOS FileOps CopyFacts UploadFacts FileOpsFacts FileSourceFacts DiskFullFacts.

Lemma chunkSize_Z : Z.of_nat chunkSize = 104857600%Z.
Proof. unfold chunkSize. rewrite !Nat2Z.inj_mul. reflexivity. Qed.

(** A write at the end of a file stores what fits, whether all of it fits
    or not, and touches no other file. *)
Lemma File_Write_what_fits (f : File) (fs : FS) (c p : list byte) :
  at_end f fs c ->
  let fs' := (Write f p fs).2 in
  files fs' !! fpath f = Some (c ++ take (free fs) p)
  /\ (forall q, q <> fpath f -> files fs' !! q = files fs !! q).
Proof.
  intros Hend fs'. subst fs'.
  destruct (Nat.le_gt_cases (length p) (free fs)) as [Hfits|Hshort].
  - destruct (File_Write_at_end f fs c p Hend Hfits)
      as (f1 & fs1 & -> & (_ & Hc & _) & Hpath & _ & _ & _ & Hframe).
    cbn [snd]. rewrite (take_ge p) by lia. rewrite Hpath in Hc. by split.
  - destruct (File_Write_short f fs c p Hend Hshort)
      as (f1 & fs1 & -> & (_ & Hc & _) & Hpath & _ & _ & Hframe).
    cbn [snd]. rewrite Hpath in Hc. by split.
Qed.

(** [chunkedFilePattern] on a file that fits one buffer: one chunk is
    processed and the total printed is the file's length; [chunk_1.txt]
    receives what the device has room for, which the total does not show,
    as the results of [os.Create] and [Write] are dropped; no other file
    changes. *)
Theorem chunkedFilePattern_single_chunk (fuel : nat) (fs : FS) (c : list byte) :
  files fs !! ["fake.log"] = Some c ->
  is_dir fs ["fake.log"] = false ->
  is_dir fs ["chunk_1.txt"] = false ->
  0 < length c <= chunkSize ->
  2 <= fuel ->
  exists fs',
    chunkedFilePattern fuel fs
    = Some ({| totalBytes := Z.of_nat (length c); chunkNumber := 2; failure := None |}, fs')
    /\ files fs' !! ["chunk_1.txt"]
       = Some (take (free fs + length (content_of fs ["chunk_1.txt"])) c)
    /\ (forall q, q <> ["chunk_1.txt"] -> files fs' !! q = files fs !! q).
Proof.
  intros Hc Hdir Hnd Hlen Hfuel.
  destruct fuel as [|[|fuel]]; [lia|lia|].
  unfold chunkedFilePattern, os_Open.
  replace (resolve fs "fake.log") with (Some ["fake.log"]) by reflexivity.
  rewrite Hdir, Hc.
  set (file := {| fpath := ["fake.log"]; offset := 0; is_directory := false |}).
  destruct (File_Read_regular file chunkSize fs c eq_refl Hc chunkSize_pos)
    as (file1 & Hread & Hpath1 & Hdir1 & Hoff1).
  cbn [offset file] in Hread, Hoff1. rewrite drop_0 in Hread, Hoff1.
  rewrite take_ge in Hread, Hoff1 by lia.
  destruct c as [|b c']; [cbn [length] in Hlen; lia|]. set (c := b :: c') in *.
  cbn [chunk_loop]. rewrite Hread.
  replace (length c =? 0) with false by (symmetry; apply Nat.eqb_neq; lia).
  (* the chunk is written *)
  set (fs1 := write_chunk 1 c fs).
  assert (Hfs1 : files fs1 !! ["chunk_1.txt"]
                 = Some (take (free fs + length (content_of fs ["chunk_1.txt"])) c)
                 /\ (forall q, q <> ["chunk_1.txt"] -> files fs1 !! q = files fs !! q)).
  { unfold fs1, write_chunk.
    replace ("chunk_" +:+ pretty 1%Z +:+ ".txt") with "chunk_1.txt" by reflexivity.
    destruct (os_Create_ok "chunk_1.txt" fs ["chunk_1.txt"] eq_refl Hnd eq_refl)
      as (out & fs0 & -> & Hpath & Hend & Hfree0 & _ & _ & Hframe0).
    destruct (File_Write_what_fits out fs0 [] c Hend) as [Hnew Hframe].
    rewrite Hpath, Hfree0 in Hnew. rewrite Hpath in Hframe.
    split; [exact Hnew|]. intros q Hq. by rewrite Hframe, Hframe0. }
  destruct Hfs1 as [Hnew Hframe].
  (* the next read finds the end *)
  assert (Hc1 : files fs1 !! fpath file1 = Some c).
  { rewrite Hpath1. cbn [fpath file]. by rewrite Hframe. }
  destruct (File_Read_regular file1 chunkSize fs1 c Hdir1 Hc1 chunkSize_pos)
    as (file2 & Hread2 & _).
  rewrite Hoff1, Nat.add_0_l, drop_all, take_nil in Hread2.
  rewrite Hread2. cbn [bool_decide decide_rel length Nat.eqb].
  rewrite bool_decide_eq_true_2 by done. cbn [length Nat.eqb].
  exists fs1. split; [|by split].
  do 2 f_equal. f_equal.
  rewrite Z.add_0_l. apply wrap64_small_nonneg.
  pose proof chunkSize_Z. lia.
Qed.

Lemma chunkedFilePattern_single_chunk_witness :
  exists fs',
    chunkedFilePattern 2 (Step05.log_fs (list_byte_of_string "abc"))
    = Some ({| totalBytes := Z.of_nat (length (list_byte_of_string "abc"));
               chunkNumber := 2; failure := None |}, fs')
    /\ files fs' !! ["chunk_1.txt"]
       = Some (take (free (Step05.log_fs (list_byte_of_string "abc"))
                     + length (content_of (Step05.log_fs (list_byte_of_string "abc"))
                                 ["chunk_1.txt"]))
                 (list_byte_of_string "abc"))
    /\ (forall q, q <> ["chunk_1.txt"] ->
          files fs' !! q = files (Step05.log_fs (list_byte_of_string "abc")) !! q).
Proof.
  apply (chunkedFilePattern_single_chunk 2 (Step05.log_fs (list_byte_of_string "abc"))
           (list_byte_of_string "abc")).
  - reflexivity.
  - reflexivity.
  - reflexivity.
  - split; [vm_compute; lia | apply small_fits; vm_compute; lia].
  - lia.
Defined.

(** The two writes through the handle of [os.Create]. *)
Lemma createFilePattern_first_lines (line1 line2 : list byte) (fs : FS) :
  is_dir fs ["create_file.txt"] = false ->
  length line1 + length line2 <= free fs + length (content_of fs ["create_file.txt"]) ->
  exists file1 fs1 f2 fs2,
    os_Create "create_file.txt" fs = inr (file1, fs1)
    /\ (let '(_, file1a, fs1a) := Write file1 line1 fs1 in (Write file1a line2 fs1a).2) = fs2
    /\ at_end f2 fs2 (line1 ++ line2)
    /\ fpath f2 = ["create_file.txt"]
    /\ free fs2 = free fs + length (content_of fs ["create_file.txt"])
                  - length line1 - length line2
    /\ dirs fs2 = dirs fs.
Proof.
  intros Hnd Hroom.
  destruct (os_Create_ok "create_file.txt" fs ["create_file.txt"] eq_refl Hnd eq_refl)
    as (file1 & fs1 & Hcreate & Hpath & Hend & Hfree1 & Hdirs1 & _).
  destruct (File_Write_at_end file1 fs1 [] line1 Hend)
    as (fa & fsa & Hwa & Henda & Hpatha & Hfreea & Hdirsa & _); [lia|].
  destruct (File_Write_at_end fa fsa ([] ++ line1) line2 Henda)
    as (fb & fsb & Hwb & Hendb & Hpathb & Hfreeb & Hdirsb & _); [lia|].
  exists file1, fs1, fb, fsb. rewrite Hwa, Hwb.
  split; [exact Hcreate|]. split; [reflexivity|]. split; [exact Hendb|].
  split; [congruence|]. split; [lia | congruence].
Qed.

Lemma is_dir_dirs (fs fs' : FS) (p : list string) :
  dirs fs' = dirs fs -> is_dir fs' p = is_dir fs p.
Proof. intros Hd. unfold is_dir. by rewrite Hd. Qed.

(** [createFilePattern]: [os.O_APPEND] alone gives a descriptor without
    write access, so the third line never reaches the file, which ends up
    holding the first two lines. *)
Theorem createFilePattern_append_is_lost (line1 line2 line3 : list byte) (fs : FS) :
  is_dir fs ["create_file.txt"] = false ->
  length line1 + length line2 <= free fs + length (content_of fs ["create_file.txt"]) ->
  files (createFilePattern line1 line2 line3 fs) !! ["create_file.txt"]
  = Some (line1 ++ line2).
Proof.
  intros Hnd Hroom.
  destruct (createFilePattern_first_lines line1 line2 fs Hnd Hroom)
    as (file1 & fs1 & f2 & fs2 & Hcreate & Hwrites & (_ & Hc & _) & Hpath & _ & Hdirs).
  unfold createFilePattern. rewrite Hcreate, Hwrites. rewrite Hpath in Hc.
  unfold os_OpenFile.
  replace (resolve fs2 "create_file.txt") with (Some ["create_file.txt"]) by reflexivity.
  rewrite (is_dir_dirs fs fs2) by done. rewrite Hnd, Hc.
  replace (flag_set O_APPEND O_CREATE) with false by reflexivity.
  replace (flag_set O_APPEND O_TRUNC) with false by reflexivity.
  rewrite andb_false_r. cbn [andb].
  unfold Opened_Write. cbn [FileOps.flag].
  replace (write_access O_APPEND) with false by reflexivity.
  exact Hc.
Qed.

Lemma createFilePattern_append_is_lost_witness :
  files (createFilePattern (list_byte_of_string "a") (list_byte_of_string "b")
           (list_byte_of_string "c") (Step09.server_fs [] 3)) !! ["create_file.txt"]
  = Some (list_byte_of_string "a" ++ list_byte_of_string "b").
Proof.
  apply (createFilePattern_append_is_lost (list_byte_of_string "a")
           (list_byte_of_string "b") (list_byte_of_string "c") (Step09.server_fs [] 3)).
  - reflexivity.
  - vm_compute; lia.
Defined.

End FileOpsMoreFacts.

(** ** step02: the read loop *)
Module Step02Facts.
Import GoIO Step02 FileOpsFacts.

Lemma readPattern_loop_text (fuel : nat) :
  forall (text : list byte) (out : list line),
    length text < fuel ->
    exists r',
      readPattern_loop fuel {| unread := text |} tt out
      = Some (out ++ map Chunk (slices fuel 256 text), r', tt).
Proof.
  induction fuel as [|fuel IH]; intros text out Hfuel; [lia|].
  cbn [readPattern_loop].
  destruct text as [|b text].
  - replace (Read {| unread := [] |} 256 tt)
      with (([] : list byte, Some EOF), {| unread := [] |}, tt) by reflexivity.
    rewrite bool_decide_eq_true_2 by done. cbn [slices map]. rewrite app_nil_r. by eexists.
  - replace (Read {| unread := b :: text |} 256 tt)
      with ((take 256 (b :: text), @None error),
            {| unread := drop 256 (b :: text) |}, tt) by reflexivity.
    destruct (IH (drop 256 (b :: text)) (out ++ [Chunk (take 256 (b :: text))]))
      as [r' Hloop].
    { rewrite length_drop. cbn [length] in *. lia. }
    exists r'. rewrite Hloop. cbn [slices map]. by rewrite <- app_assoc.
Qed.

Lemma slices_concat (fuel n : nat) :
  forall text : list byte,
    0 < n -> length text <= fuel ->
    concat (slices fuel n text) = text
    /\ Forall (fun c : list byte => 0 < length c <= n) (slices fuel n text).
Proof.
  induction fuel as [|fuel IH]; intros text Hn Hfuel.
  - destruct text; [by split | cbn [length] in Hfuel; lia].
  - destruct text as [|b text]; [by split|].
    cbn [slices concat].
    destruct (IH (drop n (b :: text)) Hn) as [Hcat Hall].
    { rewrite length_drop. cbn [length] in *. lia. }
    rewrite Hcat, take_drop. split; [done|].
    apply Forall_cons_2; [|exact Hall].
    rewrite length_take. cbn [length]. lia.
Qed.

(** [readPattern] prints the text in slices of the buffer's 256 bytes: the
    slices in order make up the text, none is empty or longer than the
    buffer, and no failure line is printed. *)
Theorem readPattern_prints_text (fuel : nat) (text : list byte) :
  length text < fuel ->
  exists chunks,
    readPattern fuel text = Some (map Chunk chunks)
    /\ concat chunks = text
    /\ Forall (fun c : list byte => 0 < length c <= 256) chunks.
Proof.
  intros Hfuel. unfold readPattern.
  destruct (readPattern_loop_text fuel text [] Hfuel) as [r' ->].
  exists (slices fuel 256 text). split; [reflexivity|].
  apply slices_concat; lia.
Qed.

Lemma readPattern_prints_text_witness :
  exists chunks,
    readPattern 4 (list_byte_of_string "abc") = Some (map Chunk chunks)
    /\ concat chunks = list_byte_of_string "abc"
    /\ Forall (fun c : list byte => 0 < length c <= 256) chunks.
Proof.
  apply (readPattern_prints_text 4 (list_byte_of_string "abc")).
  vm_compute; lia.
Defined.

End Step02Facts.

(** ** step11: the throttled readers, call by call *)
Module Step11MoreFacts.
Import GoIO GoTime Step11 Step11Facts.

(** A byte reader keeps the contract of [io.Reader]: at most [len(p)]
    bytes per call. *)
Lemma BytesReader_contract {W : Type} (r : BytesReader) (m : nat) (w0 : W) :
  length (Read r m w0).1.1.1 <= m.
Proof.
  unfold Read, BytesReader_Read. destruct (unread r) as [|b bs]; cbn [fst length]; [lia|].
  rewrite length_take. lia.
Qed.

(** One [Read] of the throttled reader of [main.go], over a reader that
    keeps the contract. With [allowed] the bytes computed from the time
    since the last read: the call panics exactly when [allowed] is
    negative and the buffer is longer than that; otherwise it returns at
    most [len(p)] and at most [allowed] bytes; and when the buffer is empty
    or nothing is allowed it sleeps 10 ms and returns no bytes and no error,
    without a call to the inner reader and without moving [lastRead]. *)
Theorem ThrottledReader_Read_within_allowance {W R : Type} `{!Clock W, !Reader W R}
    (tr : ThrottledReader.t R) (n : nat) (w : W) :
  (forall (r : R) m (w0 : W), length (Read r m w0).1.1.1 <= m) ->
  let allowed := ThrottledReader.allowedBytes (ThrottledReader.bytesPerSec tr)
                   (Since (ThrottledReader.lastRead tr) w) in
  match ThrottledReader.Read_ tr n w with
  | Panic _ => (allowed < 0)%Z /\ (allowed < Z.of_nat n)%Z
  | Ret ((data, err), tr', w') =>
      (0 <= allowed \/ Z.of_nat n <= allowed)%Z
      /\ length data <= n
      /\ (Z.of_nat (length data) <= Z.max 0 allowed)%Z
      /\ (n = 0 \/ allowed = 0%Z ->
          data = [] /\ err = None /\ tr' = tr /\ w' = Sleep (Millisecond * 10) w)
  end.
Proof.
  intros Hcontract allowed. unfold ThrottledReader.Read_, ThrottledReader.clip.
  fold allowed.
  destruct (Z.ltb_spec allowed (Z.of_nat n)) as [Hlt|Hge].
  - destruct (Z.ltb_spec allowed 0) as [Hneg|Hpos]; [done|].
    destruct (Z.to_nat allowed) as [|k] eqn:Hk.
    + cbn [length]. split; [lia|]. split; [lia|]. split; [lia|]. done.
    + pose proof (Hcontract (ThrottledReader.reader tr) (S k) w) as Hlen.
      destruct (Read (ThrottledReader.reader tr) (S k) w) as [[[data err] r1] w1].
      cbn [fst] in Hlen.
      split; [lia|]. split; [lia|]. split; [lia|]. intros [Hn|Hzero]; lia.
  - destruct n as [|k].
    + cbn [length]. split; [lia|]. split; [lia|]. split; [lia|]. done.
    + pose proof (Hcontract (ThrottledReader.reader tr) (S k) w) as Hlen.
      destruct (Read (ThrottledReader.reader tr) (S k) w) as [[[data err] r1] w1].
      cbn [fst] in Hlen.
      split; [lia|]. split; [lia|]. split; [lia|]. intros [Hn|Hzero]; lia.
Qed.

Lemma ThrottledReader_Read_within_allowance_witness :
  let tr := {| ThrottledReader.reader := {| unread := repeat "x"%byte 40 |};
               ThrottledReader.bytesPerSec := 10;
               ThrottledReader.lastRead := 0 |} in
  let w := {| clock := 3 * Second; progress := [] |} in
  let allowed := ThrottledReader.allowedBytes (ThrottledReader.bytesPerSec tr)
                   (Since (ThrottledReader.lastRead tr) w) in
  match ThrottledReader.Read_ tr 100 w with
  | Panic _ => (allowed < 0)%Z /\ (allowed < Z.of_nat 100)%Z
  | Ret ((data, err), tr', w') =>
      (0 <= allowed \/ Z.of_nat 100 <= allowed)%Z
      /\ length data <= 100
      /\ (Z.of_nat (length data) <= Z.max 0 allowed)%Z
      /\ (100 = 0 \/ allowed = 0%Z ->
          data = [] /\ err = None /\ tr' = tr /\ w' = Sleep (Millisecond * 10) w)
  end.
Proof.
  exact (ThrottledReader_Read_within_allowance
           {| ThrottledReader.reader := {| unread := repeat "x"%byte 40 |};
              ThrottledReader.bytesPerSec := 10;
              ThrottledReader.lastRead := 0 |}
           100 {| clock := 3 * Second; progress := [] |}
           (fun r m w0 => BytesReader_contract r m w0)).
Defined.

(** The reader of the README at the input where the reader of [main.go]
    bursts: ten bytes a second, three idle seconds, a 100-byte buffer. *)
Lemma Documented_Read_within_capacity_witness :
  let tr := {| DocumentedThrottledReader.reader := {| unread := repeat "x"%byte 40 |};
               DocumentedThrottledReader.bytesPerSec := 10;
               DocumentedThrottledReader.lastTime := 0;
               DocumentedThrottledReader.bucket := 10 |} in
  let w := {| clock := 3 * Second; progress := [] |} in
  let '((data, _), tr', _) := DocumentedThrottledReader.Read_ tr 100 w in
  (Z.of_nat (length data) <= Z.max 0 (DocumentedThrottledReader.bytesPerSec tr))%Z
  /\ (DocumentedThrottledReader.bucket tr' <= DocumentedThrottledReader.bytesPerSec tr')%Z
  /\ (data <> [] -> 0 <= DocumentedThrottledReader.bucket tr')%Z.
Proof.
  exact (Documented_Read_within_capacity
           {| DocumentedThrottledReader.reader := {| unread := repeat "x"%byte 40 |};
              DocumentedThrottledReader.bytesPerSec := 10;
              DocumentedThrottledReader.lastTime := 0;
              DocumentedThrottledReader.bucket := 10 |}
           100 {| clock := 3 * Second; progress := [] |}
           (fun r m w0 => BytesReader_contract r m w0) eq_refl).
Defined.

End Step11MoreFacts.

(** ** [io.ReadAll], and the read with a timeout of step08 *)
Module ReadAllFacts.
Import GoIO GoOS Step08 CopyFacts FileSourceFacts.

Section FromStream.

Context {W R : Type} `{!Reader W R}.

(** [remaining r w rest]: in the world [w] the reader [r] is a finite
    stream with exactly the bytes [rest] to deliver. *)
Variable remaining : R -> W -> list byte -> Prop.

Hypothesis remaining_Read : forall r rest n w,
  remaining r w rest -> 0 < n ->
  exists r',
    Read r n w = ((take n rest, match rest with [] => Some EOF | _ => None end), r', w)
    /\ remaining r' w (drop n rest).

(** The capacity [append] gives a full slice is larger than the one it had. *)
Variable grow : nat -> nat.
Hypothesis grow_grows : forall cap, cap < grow cap.

(** [io.ReadAll] returns all the bytes of a finite stream, after what the
    slice held, and no error. *)
Lemma io_ReadAll_stream (fuel : nat) :
  forall (rest b : list byte) (cap : nat) (r : R) (w : W),
    remaining r w rest -> length b < cap -> length rest < fuel ->
    exists r',
      io_ReadAll_from grow fuel b cap r w = Some ((b ++ rest, None), r', w)
      /\ remaining r' w [].
Proof.
  induction fuel as [|fuel IH]; intros rest b cap r w Hrem Hcap Hfuel; [lia|].
  destruct (remaining_Read r rest (cap - length b) w Hrem) as (r1 & Hread & Hrem1); [lia|].
  cbn [io_ReadAll_from]. rewrite Hread.
  destruct rest as [|c rest].
  - rewrite take_nil, bool_decide_eq_true_2 by done.
    exists r1. split; [done|]. by rewrite drop_nil in Hrem1.
  - set (n := cap - length b) in *. set (whole := c :: rest) in *.
    assert (Hlen : length (take n whole) <= n) by (rewrite length_take; lia).
    assert (Hsplit : length whole = length (take n whole) + length (drop n whole)).
    { rewrite <- length_app. by rewrite take_drop. }
    assert (Hpos : 0 < length (take n whole)).
    { rewrite length_take. unfold whole. cbn [length]. lia. }
    destruct (IH (drop n whole) (b ++ take n whole)
                (if (length (b ++ take n whole) =? cap)%nat then grow cap else cap)
                r1 w Hrem1) as (r2 & Hall & Hrem2).
    + rewrite length_app.
      destruct (Nat.eqb_spec (length b + length (take n whole)) cap) as [Heq|Hne].
      * rewrite Heq. apply grow_grows.
      * lia.
    + lia.
    + exists r2. rewrite Hall. split; [|exact Hrem2].
      by rewrite <- app_assoc, take_drop.
Qed.

End FromStream.

Lemma file_remaining_Read (f : File) (rest : list byte) (n : nat) (fs : FS) :
  file_remaining f fs rest -> 0 < n ->
  exists f',
    Read f n fs = ((take n rest, match rest with [] => Some EOF | _ => None end), f', fs)
    /\ file_remaining f' fs (drop n rest).
Proof.
  intros (Hdir & c & Hc & Hrest) Hn.
  destruct (File_Read_regular f n fs c Hdir Hc Hn) as (f1 & Hread & Hpath1 & Hdir1 & Hoff1).
  rewrite Hrest in Hread, Hoff1.
  exists f1. split; [exact Hread|]. split; [exact Hdir1|].
  exists c. rewrite Hpath1. split; [exact Hc|].
  rewrite Hoff1, <- drop_drop, Hrest, length_take.
  destruct (Nat.le_gt_cases n (length rest)) as [Hle|Hgt].
  - by rewrite Nat.min_l.
  - rewrite Nat.min_r by lia. by rewrite drop_all, drop_ge by lia.
Qed.

(** [readFileWithTimeout] on a regular file, whatever capacities [append]
    chooses: when the [select] does not take the deadline the whole content
    of the file is returned, and in no case is a part of it, or an error
    other than the timeout, returned. *)
Theorem readFileWithTimeout_all_or_timeout (grow : nat -> nat) (fuel : nat)
    (deadline_first : bool) (filename : string) (fs : FS) (file : File) (c : list byte) :
  (forall cap, cap < grow cap) ->
  os_Open filename fs = inr file -> is_directory file = false ->
  files fs !! fpath file = Some c ->
  length c < fuel ->
  readFileWithTimeout grow fuel deadline_first filename fs
  = Some (if deadline_first then TimedOut (Errorf "타임아웃" DeadlineExceeded) else Data c).
Proof.
  intros Hgrow Hopen Hreg Hc Hfuel. unfold readFileWithTimeout.
  destruct deadline_first; [done|].
  unfold readFile_goroutine, io_ReadAll. rewrite Hopen.
  destruct (os_Open_regular _ _ _ Hopen Hreg) as (_ & Hoff & _).
  destruct (io_ReadAll_stream file_remaining file_remaining_Read grow Hgrow fuel
              c [] 512 file fs) as (f' & -> & _).
  - split; [exact Hreg|]. exists c. split; [exact Hc|]. by rewrite Hoff, drop_0.
  - cbn [length]. lia.
  - exact Hfuel.
  - done.
Qed.

Lemma readFileWithTimeout_all_or_timeout_witness :
  readFileWithTimeout (fun cap => 2 * cap + 1) 6 false "uploads/a.txt"
    (Step09.server_fs [("a.txt", list_byte_of_string "hello")] 0)
  = Some (Data (list_byte_of_string "hello")).
Proof.
  apply (readFileWithTimeout_all_or_timeout (fun cap => 2 * cap + 1) 6 false
           "uploads/a.txt" (Step09.server_fs [("a.txt", list_byte_of_string "hello")] 0)
           {| fpath := ["uploads"; "a.txt"]; offset := 0; is_directory := false |}
           (list_byte_of_string "hello")).
  - intros cap. lia.
  - reflexivity.
  - reflexivity.
  - reflexivity.
  - vm_compute; lia.
Defined.

(** [readFileWithTimeout] on a name that cannot be read, missing or a
    directory, when the [select] does not take the deadline: the error of
    [os.Open] or of the first read is returned as it is, not wrapped. *)
Theorem readFileWithTimeout_passes_on_error (grow : nat -> nat) (fuel : nat)
    (filename : string) (fs : FS) :
  0 < fuel ->
  match os_Open filename fs with
  | inl e => readFileWithTimeout grow fuel false filename fs = Some (Failed e)
  | inr file =>
      is_directory file = true ->
      readFileWithTimeout grow fuel false filename fs = Some (Failed ErrIsDir)
  end.
Proof.
  intros Hfuel. unfold readFileWithTimeout, readFile_goroutine.
  destruct (os_Open filename fs) as [e|file]; [done|].
  intros Hdir. destruct fuel as [|fuel]; [lia|].
  unfold io_ReadAll. cbn [io_ReadAll_from length]. unfold Read, File_Read.
  rewrite Hdir. cbn. reflexivity.
Qed.

Lemma readFileWithTimeout_passes_on_error_witness :
  match os_Open "large_file.txt" (Step09.server_fs [] 0) with
  | inl e =>
      readFileWithTimeout (fun cap => 2 * cap) 1 false "large_file.txt"
        (Step09.server_fs [] 0) = Some (Failed e)
  | inr file =>
      is_directory file = true ->
      readFileWithTimeout (fun cap => 2 * cap) 1 false "large_file.txt"
        (Step09.server_fs [] 0) = Some (Failed ErrIsDir)
  end.
Proof.
  apply (readFileWithTimeout_passes_on_error (fun cap => 2 * cap) 1 "large_file.txt"
           (Step09.server_fs [] 0)).
  lia.
Defined.

End ReadAllFacts.

(** ** The chunked loop on the file it reads, and the loop that drains the
    throttled reader *)
Module StallFacts.
Import GoIO GoOS GoTime FileOps Step02 Step11 CopyFacts UploadFacts FileOpsFacts
  FileSourceFacts HandlerFacts DiskFullFacts FileOpsMoreFacts Step02Facts.

(** A decimal numeral has no path separator. *)
Lemma pretty_N_go_no_slash (x : N) :
  forall s : string,
    no_slash (list_ascii_of_string s) -> no_slash (list_ascii_of_string (pretty_N_go x s)).
Proof.
  induction (N.lt_wf_0 x) as [x _ IH]. intros s Hs.
  destruct (N.eq_dec x 0%N) as [->|Hx]; [by rewrite pretty_N_go_0|].
  rewrite pretty_N_go_step by lia.
  apply IH; [apply N.div_lt; lia|].
  cbn [list_ascii_of_string]. apply Forall_cons_2; [|exact Hs].
  unfold pretty_N_char. by repeat case_match.
Qed.

Lemma pretty_Z_no_slash (z : Z) : no_slash (list_ascii_of_string (pretty z)).
Proof.
  assert (Hpos : forall p : positive, no_slash (list_ascii_of_string (pretty p))).
  { intros p. unfold pretty, pretty_positive, pretty, pretty_N.
    case_decide; [by repeat constructor|]. apply pretty_N_go_no_slash. constructor. }
  destruct z as [|p|p]; unfold pretty, pretty_Z.
  - by repeat constructor.
  - apply Hpos.
  - cbn [String.append list_ascii_of_string]. apply Forall_cons_2; [done | apply Hpos].
Qed.

(** The name of a chunk file is a single component, never [fake.log]. *)
Lemma chunk_name_resolves (fs : FS) (number : Z) :
  resolve fs ("chunk_" +:+ pretty number +:+ ".txt")
  = Some ["chunk_" +:+ pretty number +:+ ".txt"].
Proof.
  set (name := "chunk_" +:+ pretty number +:+ ".txt").
  assert (Hname : no_slash (list_ascii_of_string name)).
  { unfold name. rewrite !list_ascii_of_append. apply Forall_app. split.
    - by repeat constructor.
    - apply Forall_app. split; [apply pretty_Z_no_slash | by repeat constructor]. }
  unfold resolve, split_path. replace (String.eqb name "") with false by reflexivity.
  rewrite split_aux_no_slash by exact Hname. cbn [rev app].
  rewrite string_of_list_ascii_of_string. cbn [walk].
  replace (String.eqb name "" || String.eqb name ".") with false by reflexivity.
  by replace (String.eqb name "..") with false by reflexivity.
Qed.

(** Writing a chunk changes no directory and no file but the chunk's. *)
Lemma write_chunk_keeps (number : Z) (data : list byte) (fs : FS) :
  dirs (write_chunk number data fs) = dirs fs
  /\ forall q, q <> ["chunk_" +:+ pretty number +:+ ".txt"] ->
               files (write_chunk number data fs) !! q = files fs !! q.
Proof.
  unfold write_chunk, os_Create. rewrite chunk_name_resolves.
  destruct (is_dir fs _); [done|]. destruct (negb _); [done|].
  unfold Write, File_Write. cbn.
  split; [done|]. intros q Hq. by rewrite !lookup_insert_ne.
Qed.

Section ChunkLoopOnFile.

(** The body's work leaves the file the loop reads as it is. *)
Variable process : Z -> list byte -> FS -> FS.
Variable source : list string.

Hypothesis process_keeps : forall number data fs,
  files (process number data fs) !! source = files fs !! source.

(** The loop over a regular file: it processes the slices of what the file
    holds from the offset on, in order, and stops at the end of the file
    only; the total is the number of those bytes. *)
Lemma chunk_loop_file (fuel : nat) :
  forall (f : File) (fs : FS) (total number : Z) (c : list byte),
    is_directory f = false -> fpath f = source -> files fs !! source = Some c ->
    length (drop (offset f) c) < fuel -> wrap64 total = total ->
    exists f',
      chunk_loop process fuel total number f fs
      = Some ({| totalBytes := wrap64 (total + Z.of_nat (length (drop (offset f) c)));
                 chunkNumber :=
                   (process_all process number
                      (slices fuel chunkSize (drop (offset f) c)) fs).1;
                 failure := None |},
              f',
              (process_all process number (slices fuel chunkSize (drop (offset f) c)) fs).2).
Proof.
  induction fuel as [|fuel IH]; intros f fs total number c Hdir Hpath Hc Hfuel Hw; [lia|].
  rewrite <- Hpath in Hc.
  destruct (File_Read_regular f chunkSize fs c Hdir Hc chunkSize_pos)
    as (f1 & Hread & Hpath1 & Hdir1 & Hoff1).
  cbn [chunk_loop]. rewrite Hread.
  destruct (drop (offset f) c) as [|b rest] eqn:Hrest.
  - rewrite take_nil, bool_decide_eq_true_2 by done. cbn [length Nat.eqb slices process_all fst snd].
    exists f1. by rewrite Z.add_0_r, Hw.
  - set (whole := b :: rest) in *. set (data := take chunkSize whole) in *.
    assert (Hlen : length data = min chunkSize (length whole)) by apply length_take.
    assert (Hpos : 0 < length data).
    { rewrite Hlen. pose proof chunkSize_pos. unfold whole. cbn [length]. lia. }
    assert (Hsplit : length whole = length data + length (drop chunkSize whole)).
    { rewrite <- length_app. unfold data. by rewrite take_drop. }
    assert (Hnext : drop (offset f1) c = drop chunkSize whole).
    { rewrite Hoff1, <- drop_drop, Hrest. fold whole.
      destruct (Nat.le_gt_cases chunkSize (length whole)) as [Hle|Hgt].
      - replace (length data) with chunkSize by lia. done.
      - replace (length data) with (length whole) by lia.
        rewrite drop_all. by rewrite drop_ge by lia. }
    replace (length data =? 0) with false by (symmetry; apply Nat.eqb_neq; lia).
    destruct (IH f1 (process number data fs)
                (wrap64 (total + Z.of_nat (length data))) (wrap64 (number + 1)) c)
      as (f2 & Hloop); [done | congruence | | rewrite Hnext; lia | apply wrap64_wrap64 |].
    { rewrite process_keeps. by rewrite <- Hpath. }
    exists f2. rewrite Hloop, Hnext.
    change (slices (Datatypes.S fuel) chunkSize whole)
      with (data :: slices fuel chunkSize (drop chunkSize whole)).
    cbn [process_all]. rewrite wrap64_idem.
    by replace (total + Z.of_nat (length data) + Z.of_nat (length (drop chunkSize whole)))%Z
      with (total + Z.of_nat (length whole))%Z by lia.
Qed.

End ChunkLoopOnFile.

Lemma discard_buffer_size_pos : 0 < discard_buffer_size.
Proof. apply Nat.ltb_lt. by vm_compute. Qed.

Section DrainThrottled.

Context {W R : Type} `{!Clock W, !Reader W R}.

(** A finite stream whose reads take no time. *)
Variable remaining : R -> list byte -> Prop.

Hypothesis remaining_Read : forall r rest n w,
  remaining r rest -> 0 < n ->
  exists r' w',
    Read r n w = ((take n rest, match rest with [] => Some EOF | _ => None end), r', w')
    /\ Now w' = Now w /\ remaining r' (drop n rest).

(** Sleeping moves the clock on by the time slept. *)
Hypothesis Now_Sleep : forall d w, Now (Sleep d w) = (Now w + d)%Z.

(** A rate that allows nothing in no time and something in 10 ms. *)
Variable bps : Z.
Hypothesis nothing_at_once : ThrottledReader.allowedBytes bps 0 = 0%Z.
Hypothesis something_later : (0 < ThrottledReader.allowedBytes bps (Millisecond * 10))%Z.

Lemma granted_later_pos : 0 < granted_later bps.
Proof. unfold granted_later. pose proof discard_buffer_size_pos. lia. Qed.

(** Called right after a read, the reader stalls: no bytes, no error, the
    inner reader and [lastRead] as they were, 10 ms slept. *)
Lemma ThrottledReader_stalls (tr : ThrottledReader.t R) (w : W) :
  ThrottledReader.bytesPerSec tr = bps -> ThrottledReader.lastRead tr = Now w ->
  ThrottledReader.Read_ tr discard_buffer_size w
  = Ret (([], None), tr, Sleep (Millisecond * 10) w).
Proof.
  intros Hbps Hlast. unfold ThrottledReader.Read_, Since.
  rewrite Hbps, Hlast, Z.sub_diag.
  replace (Z.max (- 2 ^ 63) (Z.min (2 ^ 63 - 1) 0)) with 0%Z by reflexivity.
  rewrite nothing_at_once. unfold ThrottledReader.clip.
  replace (0 <? Z.of_nat discard_buffer_size)%Z with true
    by (symmetry; apply Z.ltb_lt; pose proof discard_buffer_size_pos; lia).
  reflexivity.
Qed.

(** Called again after the stall, it reads what the rate allows. *)
Lemma ThrottledReader_reads_after_stall (tr : ThrottledReader.t R) (w : W)
    (rest : list byte) :
  ThrottledReader.bytesPerSec tr = bps -> ThrottledReader.lastRead tr = Now w ->
  remaining (ThrottledReader.reader tr) rest ->
  exists tr1 w1,
    ThrottledReader.Read_ tr discard_buffer_size (Sleep (Millisecond * 10) w)
    = Ret ((take (granted_later bps) rest, match rest with [] => Some EOF | _ => None end),
           tr1, w1)
    /\ ThrottledReader.bytesPerSec tr1 = bps
    /\ ThrottledReader.lastRead tr1 = Now w1
    /\ remaining (ThrottledReader.reader tr1) (drop (granted_later bps) rest).
Proof.
  intros Hbps Hlast Hrem. unfold ThrottledReader.Read_, Since.
  rewrite Hbps, Hlast, Now_Sleep.
  replace (Now w + Millisecond * 10 - Now w)%Z with (Millisecond * 10)%Z by lia.
  replace (Z.max (- 2 ^ 63) (Z.min (2 ^ 63 - 1) (Millisecond * 10)))
    with (Millisecond * 10)%Z by reflexivity.
  set (a := ThrottledReader.allowedBytes bps (Millisecond * 10)) in *.
  assert (Hclip : ThrottledReader.clip a discard_buffer_size = Ret (granted_later bps)).
  { unfold ThrottledReader.clip, granted_later. fold a.
    destruct (Z.ltb_spec a (Z.of_nat discard_buffer_size)) as [Hlt|Hge].
    - replace (a <? 0)%Z with false by (symmetry; apply Z.ltb_ge; lia). f_equal. lia.
    - f_equal. lia. }
  rewrite Hclip. pose proof granted_later_pos as Hpos.
  destruct (granted_later bps) as [|k] eqn:Hk; [lia|].
  destruct (remaining_Read (ThrottledReader.reader tr) rest (Datatypes.S k)
              (Sleep (Millisecond * 10) w) Hrem) as (r1 & w1 & Hread & _ & Hrem1); [lia|].
  rewrite Hread. by eexists _, w1.
Qed.

(** Draining the throttled reader: every read of data comes after a stall,
    and the copy goes on until the end of the stream, having counted every
    byte. *)
Lemma Discard_ReadFrom_throttled (m : nat) :
  forall (rest : list byte) (fuel : nat) (tr : ThrottledReader.t R) (w : W) (n : Z),
    length rest <= m ->
    ThrottledReader.bytesPerSec tr = bps -> ThrottledReader.lastRead tr = Now w ->
    remaining (ThrottledReader.reader tr) rest ->
    2 * m + 2 <= fuel -> wrap64 n = n ->
    exists tr' w',
      Discard_ReadFrom fuel n tr w
      = Some (Ret ((wrap64 (n + Z.of_nat (length rest)), None), tr', w'))
      /\ remaining (ThrottledReader.reader tr') [].
Proof.
  induction m as [|m IH]; intros rest fuel tr w n Hlen Hbps Hlast Hrem Hfuel Hn.
  all: destruct fuel as [|[|fuel]]; [lia | lia |].
  all: cbn [Discard_ReadFrom]; rewrite (ThrottledReader_stalls tr w Hbps Hlast).
  all: cbn [length]; rewrite Z.add_0_r, Hn.
  all: destruct (ThrottledReader_reads_after_stall tr w rest Hbps Hlast Hrem)
         as (tr1 & w1 & Hread & Hbps1 & Hlast1 & Hrem1).
  all: rewrite Hread.
  all: destruct rest as [|b rest].
  all: try (cbn [length] in Hlen; lia).
  1,2: rewrite take_nil, bool_decide_eq_true_2 by done.
  1,2: cbn [length]; rewrite Z.add_0_r, Hn.
  1,2: exists tr1, w1; split; [done | by rewrite drop_nil in Hrem1].
  set (whole := b :: rest) in *.
  assert (Hsplit : length whole = length (take (granted_later bps) whole)
                                  + length (drop (granted_later bps) whole)).
  { rewrite <- length_app. by rewrite take_drop. }
  assert (Htake : 0 < length (take (granted_later bps) whole)).
  { rewrite length_take. pose proof granted_later_pos. unfold whole. cbn [length]. lia. }
  destruct (IH (drop (granted_later bps) whole) fuel tr1 w1
              (wrap64 (n + Z.of_nat (length (take (granted_later bps) whole)))))
    as (tr2 & w2 & Hdrain & Hrem2);
    [cbn [length] in Hlen; lia | done | done | done | lia | apply wrap64_wrap64 |].
  exists tr2, w2. rewrite Hdrain, wrap64_idem. split; [|done].
  by replace (n + Z.of_nat (length (take (granted_later bps) whole))
              + Z.of_nat (length (drop (granted_later bps) whole)))%Z
    with (n + Z.of_nat (length whole))%Z by lia.
Qed.

End DrainThrottled.

(** A read of a file into a buffer with room never stalls: when it hands
    over no byte, it reports the end of the file or a fault. *)
Lemma File_Read_never_stalls (f : File) (n : nat) (fs : FS) :
  0 < n -> (Read f n fs).1.1.1 = [] ->
  (Read f n fs).1.1.2 = Some EOF \/ (Read f n fs).1.1.2 = Some ErrIsDir.
Proof.
  intros Hn. unfold Read, File_Read.
  destruct (Nat.eqb_spec n 0) as [->|_]; [lia|].
  destruct (is_directory f); [by right|].
  destruct (take n _) as [|b data]; [by left|]. cbn. discriminate.
Qed.

(** The chunks of [chunkedFilePattern] never land on the file it reads. *)
Lemma write_chunk_keeps_source (number : Z) (data : list byte) (fs : FS) :
  files (write_chunk number data fs) !! ["fake.log"] = files fs !! ["fake.log"].
Proof.
  apply (write_chunk_keeps number data fs). intros Heq.
  injection Heq as Heq. cbn in Heq. discriminate.
Qed.

(** [chunkedFilePattern] on any regular [fake.log]: the loop hands every
    byte of the file to its body, in chunks of at most the buffer's size
    and none empty, and ends at the end of the file with the file's length
    as the total. *)
Lemma chunkedFilePattern_whole_file (fuel : nat) (fs : FS) (c : list byte) :
  files fs !! ["fake.log"] = Some c -> is_dir fs ["fake.log"] = false ->
  length c < fuel ->
  chunkedFilePattern fuel fs
  = Some ({| totalBytes := wrap64 (Z.of_nat (length c));
             chunkNumber := (process_all write_chunk 1 (slices fuel chunkSize c) fs).1;
             failure := None |},
          (process_all write_chunk 1 (slices fuel chunkSize c) fs).2)
  /\ concat (slices fuel chunkSize c) = c
  /\ Forall (fun data : list byte => 0 < length data <= chunkSize)
            (slices fuel chunkSize c).
Proof.
  intros Hc Hdir Hfuel. split; [|apply slices_concat; [apply chunkSize_pos | lia]].
  unfold chunkedFilePattern, os_Open.
  replace (resolve fs "fake.log") with (Some ["fake.log"]) by reflexivity.
  rewrite Hdir, Hc.
  set (file := {| fpath := ["fake.log"]; offset := 0; is_directory := false |}).
  destruct (chunk_loop_file write_chunk ["fake.log"] write_chunk_keeps_source fuel
              file fs 0 1 c eq_refl eq_refl Hc) as (file' & Hloop);
    [by rewrite drop_0 | done |].
  cbn [offset file] in Hloop. rewrite drop_0, Z.add_0_l in Hloop.
  by rewrite Hloop.
Qed.

(** The progress reader of [main] is a finite stream whose reads take no
    time: the callback prints and leaves the clock alone. *)
Lemma progress_remaining_Read (pr : ProgressReader.t World BytesReader)
    (rest : list byte) (n : nat) (w : World) :
  progress_remaining pr rest -> 0 < n ->
  exists pr' w',
    Read pr n w = ((take n rest, match rest with [] => Some EOF | _ => None end), pr', w')
    /\ Now w' = Now w /\ progress_remaining pr' (drop n rest).
Proof.
  intros [Hrest Hcb] Hn.
  unfold Read, ProgressReader.Reader_inst, ProgressReader.Read_.
  unfold Read, BytesReader_Read. rewrite Hrest, Hcb.
  destruct rest as [|b rest]; [rewrite take_nil|]; eexists _, _; (split; [reflexivity|]).
  - split; [done|]. rewrite drop_nil. by split.
  - split; [done|]. by split.
Qed.



End StallFacts.
